(** * Steam games loader and query server: a shallow embedding

    The pipeline of [scripts/load_data.py] (field coercers, date resolver,
    row mapper, bulk upsert loader, relationship normalizer) and the
    [get_game_details] tool of [server.py], as Rocq functions over an
    explicit database state, with the properties of the specification
    proved about them.

    Conventions of the embedding.
    - A Python [str] is a [string] whose characters are read as the code
      points 0..255 (Latin-1); whitespace, digits, word characters and
      lower-casing follow Python's tables on that range.
    - A cell of the data frame is a [pyval]: [None], a bool, an int, a float
      or a str.  A float is [FNaN], an infinity or a finite dyadic number
      [m * 2^e], which is exact for every binary64 value.
    - A Python call either returns or raises: [result A].
    - What belongs to the interpreter and not to the repository (the parsing
      of a str by [float()], the [repr] of a float, whether the C library
      pads [%Y]) is a field of the class [PyRuntime]; what belongs to the
      absent [db/schema.sql] (which value tuples the storage refuses) is the
      class [Schema]. *)

From Stdlib Require Import ZArith Ascii String List Bool Lia.
From stdpp Require Import base option list gmap strings fin_maps.

Open Scope Z_scope.

(** ** Python results *)

Inductive exn :=
| ValueError
| TypeError
| OverflowError
| ZeroDivisionError
| DatabaseError
| ConnectionFailed.

Inductive result (A : Type) :=
| Ret (a : A)
| Raise (e : exn).
Arguments Ret {A} a.
Arguments Raise {A} e.

Global Instance result_ret : MRet result := fun A a => Ret a.

Global Instance result_bind : MBind result := fun A B k r =>
  match r with
  | Ret a => k a
  | Raise e => Raise e
  end.

Global Instance result_fmap : FMap result := fun A B f r =>
  match r with
  | Ret a => Ret (f a)
  | Raise e => Raise e
  end.

(** ** Text *)

Module Text.

Definition code (c : ascii) : Z := Z.of_N (N_of_ascii c).

Definition between (lo hi x : Z) : bool := (lo <=? x) && (x <=? hi).

(** [str.isspace] on one character, which is also the regex class [\s]. *)
Definition is_space (c : ascii) : bool :=
  let n := code c in
  between 9 13 n || between 28 32 n || (n =? 133) || (n =? 160).

(** The regex class [\d]. *)
Definition is_digit (c : ascii) : bool := between 48 57 (code c).

(** The regex class [\w]: alphanumeric characters and the underscore. *)
Definition is_word (c : ascii) : bool :=
  let n := code c in
  between 48 57 n || between 65 90 n || (n =? 95) || between 97 122 n
  || (n =? 170) || between 178 179 n || (n =? 181) || between 185 186 n
  || between 188 190 n || between 192 214 n || between 216 246 n
  || between 248 255 n.

Definition digit_value (c : ascii) : Z := code c - 48.

(** [str.lower] on one character. *)
Definition lower_char (c : ascii) : ascii :=
  let n := code c in
  if between 65 90 n || between 192 214 n || between 216 222 n
  then ascii_of_N (Z.to_N (n + 32))
  else c.

Definition lower (s : string) : string :=
  string_of_list_ascii (map lower_char (list_ascii_of_string s)).

Fixpoint lstrip (s : list ascii) : list ascii :=
  match s with
  | c :: s' => if is_space c then lstrip s' else s
  | [] => []
  end.

Definition rstrip (s : list ascii) : list ascii := rev (lstrip (rev s)).

(** [str.strip()] *)
Definition strip (s : string) : string :=
  string_of_list_ascii (rstrip (lstrip (list_ascii_of_string s))).

(** [s.split(',')]: the pieces between commas, at least one piece. *)
Fixpoint split_on (sep : ascii) (cur : list ascii) (s : list ascii)
  : list (list ascii) :=
  match s with
  | [] => [rev cur]
  | c :: s' =>
      if Ascii.eqb c sep then rev cur :: split_on sep [] s'
      else split_on sep (c :: cur) s'
  end.

Definition split_comma (s : string) : list string :=
  map string_of_list_ascii (split_on "," [] (list_ascii_of_string s)).

(** [int(s)] for a run of decimal digits, most significant first. *)
Definition int_of_digits (ds : list ascii) : Z :=
  fold_left (fun acc c => 10 * acc + digit_value c) ds 0.

Definition digit_char (n : Z) : ascii := ascii_of_N (Z.to_N (48 + n)).

(** The decimal digits of a number that is not negative, least significant
    first; [fuel] bounds their count. *)
Fixpoint digits_le (fuel : nat) (n : Z) : list ascii :=
  match fuel with
  | O => []
  | S fuel' =>
      digit_char (n mod 10)
      :: (if n <? 10 then [] else digits_le fuel' (n / 10))
  end.

Definition str_of_nonneg (n : Z) : string :=
  string_of_list_ascii (rev (digits_le (S (Z.to_nat (Z.log2 n))) n)).

(** [str(n)] for an int. *)
Definition str_of_Z (n : Z) : string :=
  if n <? 0 then String "-" (str_of_nonneg (- n)) else str_of_nonneg n.

(** The formats [%02d] and [%04d] for a number within their width. *)
Definition pad2 (n : Z) : string :=
  String (digit_char (n / 10 mod 10))
    (String (digit_char (n mod 10)) EmptyString).

Definition pad4 (n : Z) : string :=
  String (digit_char (n / 1000 mod 10))
    (String (digit_char (n / 100 mod 10)) (pad2 n)).

End Text.

(** ** Python values *)

Inductive pyfloat :=
| FNaN
| FInf (negative : bool)
| FFin (m e : Z).

Inductive pyval :=
| VNone
| VBool (b : bool)
| VInt (n : Z)
| VFloat (f : pyfloat)
| VStr (s : string).

(** The interpreter's own conversions between floats and text. *)
Class PyRuntime := {
  py_float_of_str : string -> option pyfloat;
  py_repr_float : pyfloat -> string;
  py_strftime_pads_year : bool
}.

Module Py.

(** [math.trunc] of a float, as [int(f)] computes it. *)
Definition int_of_float (f : pyfloat) : result Z :=
  match f with
  | FNaN => Raise ValueError
  | FInf _ => Raise OverflowError
  | FFin m e => Ret (if 0 <=? e then m * 2 ^ e else Z.quot m (2 ^ (- e)))
  end.

(** [float(n)] for an int: round to 53 bits, ties to even; too large an
    int raises [OverflowError]. *)
Definition float_of_int (n : Z) : result pyfloat :=
  let a := Z.abs n in
  let bits := if a =? 0 then 0 else Z.log2 a + 1 in
  if bits <=? 53 then Ret (FFin n 0)
  else
    let sh := bits - 53 in
    let q := Z.shiftr a sh in
    let r := Z.land a (Z.ones sh) in
    let half := 2 ^ (sh - 1) in
    let q' := if (half <? r) || ((r =? half) && Z.odd q) then q + 1 else q in
    if 2 ^ 1024 <=? q' * 2 ^ sh then Raise OverflowError
    else Ret (FFin (Z.sgn n * q') sh).

(** [float(value)] *)
Definition float `{PyRuntime} (value : pyval) : result pyfloat :=
  match value with
  | VNone => Raise TypeError
  | VBool b => Ret (FFin (if b then 1 else 0) 0)
  | VInt n => float_of_int n
  | VFloat f => Ret f
  | VStr s =>
      match py_float_of_str s with
      | Some f => Ret f
      | None => Raise ValueError
      end
  end.

(** [str(value)] *)
Definition str `{PyRuntime} (value : pyval) : string :=
  match value with
  | VNone => "None"
  | VBool true => "True"
  | VBool false => "False"
  | VInt n => Text.str_of_Z n
  | VFloat f => py_repr_float f
  | VStr s => s
  end.

(** Truth value of an object, as [if value:] and [not value] test it. *)
Definition truthy (value : pyval) : bool :=
  match value with
  | VNone => false
  | VBool b => b
  | VInt n => negb (n =? 0)
  | VFloat (FFin m _) => negb (m =? 0)
  | VFloat _ => true
  | VStr s => negb (String.eqb s EmptyString)
  end.

End Py.

(** [pd.isna] on a scalar *)
Definition pd_isna (value : pyval) : bool :=
  match value with
  | VNone => true
  | VFloat FNaN => true
  | _ => false
  end.

(** ** Field coercers *)

(** The handler [except (ValueError, TypeError): return default]. *)
Definition except_value_type {A} (r : result A) (default : A) : result A :=
  match r with
  | Raise ValueError => Ret default
  | Raise TypeError => Ret default
  | _ => r
  end.

Definition parse_bool `{PyRuntime} (value : pyval) : bool :=
  if pd_isna value then false
  else match value with
       | VBool b => b
       | _ =>
           let s := Text.lower (Py.str value) in
           bool_decide (s ∈ ["true"; "1"; "yes"])
       end.

Definition safe_int `{PyRuntime} (value : pyval) (default : Z) : result Z :=
  if pd_isna value then Ret default
  else except_value_type (f ← Py.float value; Py.int_of_float f) default.

Definition safe_float `{PyRuntime} (value : pyval) (default : pyfloat)
  : result pyfloat :=
  if pd_isna value then Ret default
  else except_value_type (Py.float value) default.

Definition safe_str `{PyRuntime} (value : pyval) (max_length : option nat)
  : option string :=
  if pd_isna value then None
  else
    let result := Text.strip (Py.str value) in
    let result :=
      match max_length with
      | Some (S n) =>
          if (S n <? String.length result)%nat
          then String.substring 0 (S n) result
          else result
      | _ => result
      end in
    if String.eqb result EmptyString then None else Some result.

(** ** Date resolver *)

(** Calendar dates as [datetime] holds them (the time of day is always
    midnight here and is left out). *)
Record datetime := { dt_year : Z; dt_month : Z; dt_day : Z }.

(** [datetime.strptime], for the directives the loader's formats use, in
    the C locale.  The format is compiled to a regular expression which is
    matched at the start of the text with the regex engine's priorities
    (first alternative first, greedy repetition); the first match found has
    to cover the whole text. *)
Module Strptime.
Import Text.

Inductive directive :=
| Lit (c : ascii)
| Spaces
| Dir_b
| Dir_B
| Dir_d
| Dir_m
| Dir_Y.

Definition directive_of (c : ascii) : option directive :=
  if Ascii.eqb c "b" then Some Dir_b
  else if Ascii.eqb c "B" then Some Dir_B
  else if Ascii.eqb c "d" then Some Dir_d
  else if Ascii.eqb c "m" then Some Dir_m
  else if Ascii.eqb c "Y" then Some Dir_Y
  else None.

(** [TimeRE.pattern]: a run of whitespace becomes [\s+], [%x] the group of
    its directive, any other character itself. *)
Fixpoint pattern (after_space : bool) (fmt : list ascii)
  : option (list directive) :=
  match fmt with
  | [] => Some []
  | c :: fmt' =>
      if is_space c then
        if after_space then pattern true fmt'
        else cons Spaces <$> pattern true fmt'
      else if Ascii.eqb c "%" then
        match fmt' with
        | x :: fmt'' =>
            match directive_of x, pattern false fmt'' with
            | Some d, Some ds => Some (d :: ds)
            | _, _ => None
            end
        | [] => None
        end
      else cons (Lit c) <$> pattern false fmt'
  end.

Definition a_month : list string :=
  ["jan"; "feb"; "mar"; "apr"; "may"; "jun";
   "jul"; "aug"; "sep"; "oct"; "nov"; "dec"].

Definition f_month : list string :=
  ["january"; "february"; "march"; "april"; "may"; "june"; "july";
   "august"; "september"; "october"; "november"; "december"].

(** Month numbers attached to the names: [locale_time.a_month.index]. *)
Definition numbered (names : list string) : list (Z * string) :=
  imap (fun i name => (Z.of_nat i + 1, name)) names.

Fixpoint insert_by_length (x : Z * string) (l : list (Z * string))
  : list (Z * string) :=
  match l with
  | [] => [x]
  | y :: l' =>
      if (String.length y.2 <=? String.length x.2)%nat then x :: l
      else y :: insert_by_length x l'
  end.

(** [sorted(to_convert, key=len, reverse=True)], which is stable. *)
Definition sorted_by_length (l : list (Z * string)) : list (Z * string) :=
  foldr insert_by_length [] l.

(** Captured groups: year, month and day. *)
Record found := { g_Y : option Z; g_month : option Z; g_d : option Z }.

Definition no_groups : found := {| g_Y := None; g_month := None; g_d := None |}.

Definition item (p : ascii -> bool) (s : list ascii)
  : list (ascii * list ascii) :=
  match s with
  | c :: s' => if p c then [(c, s')] else []
  | [] => []
  end.

Definition range (lo hi : ascii) (c : ascii) : bool :=
  between (code lo) (code hi) (code c).

Definition one (p : ascii -> bool) (s : list ascii) : list (Z * list ascii) :=
  '(a, s1) ← item p s; [(digit_value a, s1)].

Definition two (p q : ascii -> bool) (s : list ascii)
  : list (Z * list ascii) :=
  '(a, s1) ← item p s; '(b, s2) ← item q s1;
  [(10 * digit_value a + digit_value b, s2)].

(** [3[0-1]|[1-2]\d|0[1-9]|[1-9]| [1-9]] *)
Definition re_d (s : list ascii) : list (Z * list ascii) :=
  two (range "3" "3") (range "0" "1") s
  ++ two (range "1" "2") is_digit s
  ++ two (range "0" "0") (range "1" "9") s
  ++ one (range "1" "9") s
  ++ ('(_, s1) ← item (Ascii.eqb " ") s; one (range "1" "9") s1).

(** [1[0-2]|0[1-9]|[1-9]] *)
Definition re_m (s : list ascii) : list (Z * list ascii) :=
  two (range "1" "1") (range "0" "2") s
  ++ two (range "0" "0") (range "1" "9") s
  ++ one (range "1" "9") s.

(** [\d\d\d\d] *)
Definition re_Y (s : list ascii) : list (Z * list ascii) :=
  '(a, s1) ← item is_digit s; '(b, s2) ← item is_digit s1;
  '(c, s3) ← item is_digit s2; '(d, s4) ← item is_digit s3;
  [(int_of_digits [a; b; c; d], s4)].

(** A literal word, letters compared without case. *)
Fixpoint re_word (w : list ascii) (s : list ascii) : list (list ascii) :=
  match w, s with
  | [], _ => [s]
  | a :: w', c :: s' =>
      if Ascii.eqb (lower_char c) (lower_char a) then re_word w' s' else []
  | _ :: _, [] => []
  end.

(** An alternation of month names, each capturing its month number. *)
Definition re_names (names : list (Z * string)) (s : list ascii)
  : list (Z * list ascii) :=
  '(n, name) ← names;
  s' ← re_word (list_ascii_of_string name) s; [(n, s')].

(** [\s*] and [\s+], greedy: the longest run is tried first. *)
Fixpoint re_spaces_star (s : list ascii) : list (list ascii) :=
  match s with
  | c :: s' => if is_space c then re_spaces_star s' ++ [s] else [s]
  | [] => [[]]
  end.

Definition re_spaces (s : list ascii) : list (list ascii) :=
  match s with
  | c :: s' => if is_space c then re_spaces_star s' else []
  | [] => []
  end.

Definition set_Y (fd : found) (y : Z) : found :=
  {| g_Y := Some y; g_month := g_month fd; g_d := g_d fd |}.
Definition set_month (fd : found) (m : Z) : found :=
  {| g_Y := g_Y fd; g_month := Some m; g_d := g_d fd |}.
Definition set_d (fd : found) (d : Z) : found :=
  {| g_Y := g_Y fd; g_month := g_month fd; g_d := Some d |}.

Definition re_directive (d : directive) (fd : found) (s : list ascii)
  : list (found * list ascii) :=
  match d with
  | Lit c => s' ← re_word [c] s; [(fd, s')]
  | Spaces => s' ← re_spaces s; [(fd, s')]
  | Dir_b =>
      '(n, s') ← re_names (sorted_by_length (numbered a_month)) s;
      [(set_month fd n, s')]
  | Dir_B =>
      '(n, s') ← re_names (sorted_by_length (numbered f_month)) s;
      [(set_month fd n, s')]
  | Dir_d => '(n, s') ← re_d s; [(set_d fd n, s')]
  | Dir_m => '(n, s') ← re_m s; [(set_month fd n, s')]
  | Dir_Y => '(n, s') ← re_Y s; [(set_Y fd n, s')]
  end.

(** All matches of the compiled format at the start of [s], best first. *)
Fixpoint re_match (ds : list directive) (fd : found) (s : list ascii)
  : list (found * list ascii) :=
  match ds with
  | [] => [(fd, s)]
  | d :: ds' => '(fd', s') ← re_directive d fd s; re_match ds' fd' s'
  end.

Definition is_leap (y : Z) : bool :=
  (y mod 4 =? 0) && (negb (y mod 100 =? 0) || (y mod 400 =? 0)).

Definition days_in_month (y m : Z) : Z :=
  if m =? 2 then (if is_leap y then 29 else 28)
  else if (m =? 4) || (m =? 6) || (m =? 9) || (m =? 11) then 30
  else 31.

(** The constructor [datetime(year, month, day)], which checks its
    arguments. *)
Definition make_datetime (y m d : Z) : result datetime :=
  if between 1 9999 y && between 1 12 m && between 1 (days_in_month y m) d
  then Ret {| dt_year := y; dt_month := m; dt_day := d |}
  else Raise ValueError.

Definition strptime (data_string format : string) : result datetime :=
  match pattern false (list_ascii_of_string format) with
  | None => Raise ValueError
  | Some ds =>
      match re_match ds no_groups (list_ascii_of_string data_string) with
      | [] => Raise ValueError
      | (fd, rest) :: _ =>
          match rest with
          | _ :: _ => Raise ValueError
          | [] =>
              let month := default 1 (g_month fd) in
              let day := default 1 (g_d fd) in
              let year :=
                match g_Y fd with
                | Some y => y
                | None => if (month =? 2) && (day =? 29) then 1904 else 1900
                end in
              make_datetime year month day
          end
      end
  end.

(** [dt.strftime(format)] for [%Y], [%m], [%d] and literal text. *)
Fixpoint strftime_chars `{PyRuntime} (dt : datetime) (fmt : list ascii)
  : string :=
  match fmt with
  | [] => EmptyString
  | c :: fmt' =>
      if Ascii.eqb c "%" then
        match fmt' with
        | x :: fmt'' =>
            (if Ascii.eqb x "Y" then
               if py_strftime_pads_year then pad4 (dt_year dt)
               else str_of_Z (dt_year dt)
             else if Ascii.eqb x "m" then pad2 (dt_month dt)
             else if Ascii.eqb x "d" then pad2 (dt_day dt)
             else String c (String x EmptyString))
            +:+ strftime_chars dt fmt''
        | [] => String c EmptyString
        end
      else String c (strftime_chars dt fmt')
  end.

Definition strftime `{PyRuntime} (dt : datetime) (format : string) : string :=
  strftime_chars dt (list_ascii_of_string format).

End Strptime.

(** [re.search(r'\b(19|20)\d{2}\b', text)] *)
Module YearRegex.
Import Text.

(** [\b] between two neighbours, either of which may be missing. *)
Definition word_boundary (prev next : option ascii) : bool :=
  xorb (from_option is_word false prev) (from_option is_word false next).

(** [(19|20)\d{2}\b] at the start of [s]: the text of the match. *)
Definition year_here (s : list ascii) : option (list ascii) :=
  match s with
  | c1 :: c2 :: c3 :: c4 :: rest =>
      if ((Ascii.eqb c1 "1" && Ascii.eqb c2 "9")
          || (Ascii.eqb c1 "2" && Ascii.eqb c2 "0"))
         && is_digit c3 && is_digit c4
         && word_boundary (Some c4) (head rest)
      then Some [c1; c2; c3; c4]
      else None
  | _ => None
  end.

(** The leftmost position where the pattern matches. *)
Fixpoint search_from (prev : option ascii) (s : list ascii)
  : option (list ascii) :=
  match (if word_boundary prev (head s) then year_here s else None) with
  | Some m => Some m
  | None =>
      match s with
      | c :: s' => search_from (Some c) s'
      | [] => None
      end
  end.

Definition search (text : string) : option (list ascii) :=
  search_from None (list_ascii_of_string text).

End YearRegex.

Definition formats : list string :=
  ["%b %d, %Y"; "%B %d, %Y"; "%Y-%m-%d"; "%d %b, %Y"].

(** The loop [for fmt in formats: try: ... return ... except ValueError:
    continue]; [None] when the loop falls through. *)
Fixpoint try_formats `{PyRuntime} (date_str : string) (fmts : list string)
  : option (string * Z) :=
  match fmts with
  | [] => None
  | fmt :: fmts' =>
      match Strptime.strptime date_str fmt with
      | Ret dt => Some (Strptime.strftime dt "%Y-%m-%d", dt_year dt)
      | Raise _ => try_formats date_str fmts'
      end
  end.

Definition parse_date `{PyRuntime} (date_str : pyval)
  : option string * option Z :=
  if negb (Py.truthy date_str) || pd_isna date_str then (None, None)
  else
    let date_str := Text.strip (Py.str date_str) in
    match try_formats date_str formats with
    | Some (date, year) => (Some date, Some year)
    | None =>
        match YearRegex.search date_str with
        | Some year_match =>
            let year := Text.int_of_digits year_match in
            (Some (Text.str_of_Z year +:+ "-01-01"), Some year)
        | None => (None, None)
        end
    end.

(** ** Storage *)

Inductive sqlval :=
| SNull
| SBool (b : bool)
| SInt (n : Z)
| SFloat (f : pyfloat)
| SStr (s : string).

(** Modelled from the spec: the tables of the absent [db/schema.sql].
    [games] has one row per natural key, so the table maps the primary key
    [app_id] to its row, and a stored row maps column names to values.  A
    lookup table ([genres], [tags]) is a list of [(id, name)] rows and a
    junction table ([game_genres], [game_tags]) a list of
    [(game_id, label_id)] rows, in insertion order; their uniqueness
    constraints are enforced by the insert statements below. *)
Record database := {
  games : gmap Z (gmap string sqlval);
  genres : list (Z * string);
  game_genres : list (Z * Z);
  tags : list (Z * string);
  game_tags : list (Z * Z)
}.

(** A connection holds the state its statements see and the state of the
    last commit. *)
Record connection := {
  session : database;
  committed : database;
  commits : nat
}.

Definition empty_database : database :=
  {| games := ∅; genres := []; game_genres := []; tags := [];
     game_tags := [] |}.

Definition connect (db : database) : connection :=
  {| session := db; committed := db; commits := 0 |}.

Definition commit (conn : connection) : connection :=
  {| session := session conn; committed := session conn;
     commits := S (commits conn) |}.

Definition with_session (db : database) (conn : connection) : connection :=
  {| session := db; committed := committed conn; commits := commits conn |}.

Definition with_games (g : gmap Z (gmap string sqlval)) (db : database)
  : database :=
  {| games := g; genres := genres db; game_genres := game_genres db;
     tags := tags db; game_tags := game_tags db |}.

Definition with_genres (l : list (Z * string)) (db : database) : database :=
  {| games := games db; genres := l; game_genres := game_genres db;
     tags := tags db; game_tags := game_tags db |}.

Definition with_game_genres (l : list (Z * Z)) (db : database) : database :=
  {| games := games db; genres := genres db; game_genres := l;
     tags := tags db; game_tags := game_tags db |}.

Definition with_tags (l : list (Z * string)) (db : database) : database :=
  {| games := games db; genres := genres db; game_genres := game_genres db;
     tags := l; game_tags := game_tags db |}.

(** The constraints of the absent schema on a tuple of values for [games]
    (nullability, lengths, ranges): [storage_rejects values] when the
    statement fails on them. *)
Class Schema := {
  storage_rejects : list sqlval -> bool
}.

(** The column list of [insert_sql]. *)
Definition insert_columns : list string :=
  ["app_id"; "name"; "release_date"; "release_year"; "estimated_owners";
   "peak_ccu"; "required_age"; "price"; "discount"; "dlc_count";
   "about_the_game"; "supported_languages"; "full_audio_languages";
   "reviews"; "header_image"; "website"; "support_url"; "support_email";
   "windows"; "mac"; "linux";
   "metacritic_score"; "metacritic_url"; "user_score";
   "positive_reviews"; "negative_reviews"; "score_rank";
   "achievements"; "recommendations"; "notes";
   "avg_playtime_forever"; "avg_playtime_2weeks";
   "median_playtime_forever"; "median_playtime_2weeks";
   "developers"; "publishers"; "categories"; "genres"; "tags";
   "screenshots"; "movies"].

(** The columns of the clause [ON DUPLICATE KEY UPDATE]. *)
Definition update_columns : list string :=
  ["name"; "price"; "positive_reviews"; "negative_reviews"].

Definition column (c : string) (row : gmap string sqlval) : sqlval :=
  default SNull (row !! c).

(** The row that [INSERT INTO games (...) VALUES (...)] would store. *)
Definition values_row (values : list sqlval) : gmap string sqlval :=
  list_to_map (zip insert_columns values).

(** [c = VALUES(c)] for each column of the update clause. *)
Definition on_duplicate_key_update (old new : gmap string sqlval)
  : gmap string sqlval :=
  foldr (fun c row => <[c := column c new]> row) old update_columns.

(** [INSERT ... ON DUPLICATE KEY UPDATE ...] of the row [new] under the
    primary key [app_id], the only unique key of [games]: a stored row with
    that key is updated in the columns of the clause, and otherwise the new
    row is stored. *)
Definition upsert (g : gmap Z (gmap string sqlval)) (app_id : Z)
  (new : gmap string sqlval) : gmap Z (gmap string sqlval) :=
  match g !! app_id with
  | Some old => <[app_id := on_duplicate_key_update old new]> g
  | None => <[app_id := new]> g
  end.

(** [cursor.execute(insert_sql, values)] *)
Definition execute_insert `{Schema} (values : list sqlval) (db : database)
  : result database :=
  if negb (length values =? length insert_columns)%nat then
    Raise DatabaseError
  else if storage_rejects values then Raise DatabaseError
  else
    match values with
    | SInt app_id :: _ =>
        Ret (with_games (upsert (games db) app_id (values_row values)) db)
    | _ => Raise DatabaseError
    end.

(** ** Row mapper *)

(** [row.get(key)] and [row.get(key, default)] on a record of the frame. *)
Definition row_get (row : gmap string pyval) (key : string)
  (dflt : pyval) : pyval :=
  default dflt (row !! key).

Definition sql_str (o : option string) : sqlval := from_option SStr SNull o.
Definition sql_int (o : option Z) : sqlval := from_option SInt SNull o.

(** The tuple [values] of [load_games], evaluated left to right. *)
Definition map_row `{PyRuntime} (row : gmap string pyval)
  : result (list sqlval) :=
  let get key := row_get row key VNone in
  let int key := SInt <$> safe_int (get key) 0 in
  let flt key := SFloat <$> safe_float (get key) (FFin 0 0) in
  let str key max_length := Ret (sql_str (safe_str (get key) max_length)) in
  let bool key := Ret (SBool (parse_bool (get key))) in
  let '(release_date, release_year) := parse_date (get "Release date") in
  mapM id [
    int "AppID";
    str "Name" (Some 500%nat);
    Ret (sql_str release_date);
    Ret (sql_int release_year);
    str "Estimated owners" (Some 50%nat);
    int "Peak CCU";
    int "Required age";
    flt "Price";
    int "DiscountDLC count";
    SInt <$> safe_int (row_get row "DLC count" (VInt 0)) 0;
    str "About the game" None;
    str "Supported languages" None;
    str "Full audio languages" None;
    str "Reviews" None;
    str "Header image" (Some 500%nat);
    str "Website" (Some 500%nat);
    str "Support url" (Some 500%nat);
    str "Support email" (Some 200%nat);
    bool "Windows";
    bool "Mac";
    bool "Linux";
    int "Metacritic score";
    str "Metacritic url" (Some 500%nat);
    int "User score";
    int "Positive";
    int "Negative";
    str "Score rank" (Some 50%nat);
    int "Achievements";
    int "Recommendations";
    str "Notes" None;
    int "Average playtime forever";
    int "Average playtime two weeks";
    int "Median playtime forever";
    int "Median playtime two weeks";
    str "Developers" None;
    str "Publishers" None;
    str "Categories" None;
    str "Genres" None;
    str "Tags" None;
    str "Screenshots" None;
    str "Movies" None
  ].

(** ** Bulk upsert loader *)

(** Lines written to standard output. *)
Inductive line :=
| PrintLoading
| PrintTotalRows (n : nat)
| PrintInsertedRows (n : Z)
| PrintErrorRow (idx : nat) (e : exn)
| PrintComplete
| PrintInserted (n : Z)
| PrintErrors (n : Z)
| PrintPopulating
| PrintFoundGenres (n : nat)
| PrintFoundTags (n : nat)
| PrintPopulated.

(** The variables of [load_games] that its loop updates. *)
Record loader := {
  conn : connection;
  inserted : Z;
  errors : Z;
  stdout : list line
}.

Definition print (l : line) (st : loader) : loader :=
  {| conn := conn st; inserted := inserted st; errors := errors st;
     stdout := stdout st ++ [l] |}.

(** The [try] block of one iteration: the state it leaves behind and the
    exception it ended with, if any. *)
Definition try_row `{PyRuntime} `{Schema} (batch_size : Z) (st : loader)
  (row : gmap string pyval) : loader * option exn :=
  match map_row row with
  | Raise e => (st, Some e)
  | Ret values =>
      match execute_insert values (session (conn st)) with
      | Raise e => (st, Some e)
      | Ret db =>
          let st :=
            {| conn := with_session db (conn st);
               inserted := inserted st + 1;
               errors := errors st; stdout := stdout st |} in
          if batch_size =? 0 then (st, Some ZeroDivisionError)
          else if inserted st mod batch_size =? 0 then
            (print (PrintInsertedRows (inserted st))
               {| conn := commit (conn st); inserted := inserted st;
                  errors := errors st; stdout := stdout st |}, None)
          else (st, None)
      end
  end.

(** One iteration of [for idx, row in df.iterrows()]. *)
Definition load_row `{PyRuntime} `{Schema} (batch_size : Z) (st : loader)
  (idx : nat) (row : gmap string pyval) : loader :=
  match try_row batch_size st row with
  | (st, None) => st
  | (st, Some e) =>
      let st :=
        {| conn := conn st; inserted := inserted st;
           errors := errors st + 1; stdout := stdout st |} in
      if errors st <=? 5 then print (PrintErrorRow idx e) st else st
  end.

Fixpoint load_rows `{PyRuntime} `{Schema} (batch_size : Z) (st : loader)
  (idx : nat) (df : list (gmap string pyval)) : loader :=
  match df with
  | [] => st
  | row :: df' => load_rows batch_size (load_row batch_size st idx row)
                    (S idx) df'
  end.

(** [load_games(conn, csv_path, batch_size)], on the frame [df] read from
    the file. *)
Definition load_games `{PyRuntime} `{Schema} (c : connection)
  (df : list (gmap string pyval)) (batch_size : Z) : loader :=
  let st :=
    {| conn := c; inserted := 0; errors := 0;
       stdout := [PrintLoading; PrintTotalRows (length df)] |} in
  let st := load_rows batch_size st 0 df in
  let st :=
    {| conn := commit (conn st); inserted := inserted st;
       errors := errors st; stdout := stdout st |} in
  print (PrintErrors (errors st))
    (print (PrintInserted (inserted st)) (print PrintComplete st)).

(** ** Vocabulary for the loader's properties *)

(** What one record does to the stored state: the key and the row that
    its statement carries when the record is mapped and the storage takes
    it, or the exception that ends its [try] block. *)
Definition row_outcome `{PyRuntime} `{Schema} (row : gmap string pyval)
  : result (Z * gmap string sqlval) :=
  values ← map_row row;
  _ ← execute_insert values empty_database;
  match values with
  | SInt app_id :: _ => Ret (app_id, values_row values)
  | _ => Raise DatabaseError
  end.

Definition row_ok `{PyRuntime} `{Schema} (row : gmap string pyval) : bool :=
  match row_outcome row with Ret _ => true | Raise _ => false end.

(** The statements of the accepted records, in source order. *)
Definition accepted `{PyRuntime} `{Schema} (df : list (gmap string pyval))
  : list (Z * gmap string sqlval) :=
  omap (fun row => match row_outcome row with
                   | Ret kv => Some kv
                   | Raise _ => None
                   end) df.

(** The error line of each failing record, numbered from [idx]. *)
Fixpoint failure_lines `{PyRuntime} `{Schema} (idx : nat)
  (df : list (gmap string pyval)) : list line :=
  match df with
  | [] => []
  | row :: df' =>
      match row_outcome row with
      | Ret _ => failure_lines (S idx) df'
      | Raise e => PrintErrorRow idx e :: failure_lines (S idx) df'
      end
  end.

Definition is_error_line (l : line) : bool :=
  match l with PrintErrorRow _ _ => true | _ => false end.

Definition error_lines (out : list line) : list line :=
  List.filter is_error_line out.

(** The table after a list of statements. *)
Definition upsert_all (g : gmap Z (gmap string sqlval))
  (stmts : list (Z * gmap string sqlval)) : gmap Z (gmap string sqlval) :=
  foldl (fun g kv => upsert g kv.1 kv.2) g stmts.

(** The last statement of a list for a given key. *)
Fixpoint last_write (app_id : Z) (stmts : list (Z * gmap string sqlval))
  : option (gmap string sqlval) :=
  match stmts with
  | [] => None
  | (k, new) :: stmts' =>
      match last_write app_id stmts' with
      | Some n => Some n
      | None => if decide (k = app_id) then Some new else None
      end
  end.

(** A row that has a value for each column of the update clause. *)
Definition has_update_columns (new : gmap string sqlval) : Prop :=
  forall c, c ∈ update_columns -> is_Some (new !! c).

(** ** Relationship normalizer *)

(** The labels of a delimited list: split on commas, strip, drop the empty
    ones. *)
Definition tokens (s : string) : list string :=
  filter (fun t => t ≠ EmptyString) (Text.strip <$> Text.split_comma s).

(** [SELECT DISTINCT c FROM games WHERE c IS NOT NULL AND c != ''] *)
Definition select_distinct (c : string) (db : database) : list string :=
  remove_dups
    (omap (fun kv : Z * gmap string sqlval =>
             match column c kv.2 with
             | SStr s => if decide (s = EmptyString) then None else Some s
             | _ => None
             end)
          (map_to_list (games db))).

(** [SELECT app_id, c FROM games WHERE c IS NOT NULL] *)
Definition select_keyed (c : string) (db : database) : list (Z * string) :=
  omap (fun kv : Z * gmap string sqlval =>
          match column c kv.2 with
          | SStr s => Some (kv.1, s)
          | _ => None
          end)
       (map_to_list (games db)).

(** The scan loop: the set of labels of all the rows read. *)
Definition collect_labels (rows : list string) : gset string :=
  foldl (fun all s =>
           if decide (s = EmptyString) then all
           else foldl (fun all label => all ∪ {[label]}) all (tokens s))
        ∅ rows.

(** Modelled from the spec: the generated surrogate identifier of a lookup
    row, declared in the absent [db/schema.sql]; a value above every
    identifier in use. *)
Definition next_id (table : list (Z * string)) : Z :=
  1 + foldr Z.max 0 table.*1.

(** Modelled from the spec: [name] is a unique key of the lookup tables in
    the absent [db/schema.sql], compared as the exact text.
    [INSERT IGNORE INTO t (name) VALUES (label)] adds a row unless the label
    is there. *)
Definition insert_ignore_label (table : list (Z * string)) (label : string)
  : list (Z * string) :=
  if decide (label ∈ table.*2) then table
  else table ++ [(next_id table, label)].

(** Modelled from the spec: the pair is the key of a junction table in the
    absent [db/schema.sql].  [INSERT IGNORE] adds the pair unless it is
    there. *)
Definition insert_ignore_pair (junction : list (Z * Z)) (pair : Z * Z)
  : list (Z * Z) :=
  if decide (pair ∈ junction) then junction else junction ++ [pair].

(** [INSERT IGNORE INTO j (game_id, label_id)
     SELECT app_id, id FROM t WHERE name = label] *)
Definition insert_links (table : list (Z * string)) (app_id : Z)
  (junction : list (Z * Z)) (label : string) : list (Z * Z) :=
  foldl (fun j (r : Z * string) =>
           if decide (r.2 = label) then insert_ignore_pair j (app_id, r.1)
           else j)
        junction table.

(** The link loop over the rows [(app_id, list)] read. *)
Definition link_rows (table : list (Z * string)) (rows : list (Z * string))
  (junction : list (Z * Z)) : list (Z * Z) :=
  foldl (fun j (r : Z * string) =>
           if decide (r.2 = EmptyString) then j
           else foldl (insert_links table r.1) j (tokens r.2))
        junction rows.

Definition populate_normalized_tables (c : connection)
  : connection * list line :=
  (* Get unique genres *)
  let db := session c in
  let all_genres := collect_labels (select_distinct "genres" db) in
  let db :=
    with_genres (foldl insert_ignore_label (genres db) (elements all_genres))
      db in
  let c := commit (with_session db c) in
  (* Link games to genres *)
  let db :=
    with_game_genres
      (link_rows (genres db) (select_keyed "genres" db) (game_genres db))
      db in
  let c := commit (with_session db c) in
  (* Similar for tags *)
  let all_tags := collect_labels (select_distinct "tags" db) in
  let db :=
    with_tags (foldl insert_ignore_label (tags db) (elements all_tags)) db in
  let c := commit (with_session db c) in
  (c, [PrintPopulating; PrintFoundGenres (size all_genres);
       PrintFoundTags (size all_tags); PrintPopulated]).

(** ** Vocabulary for the normalizer's properties *)

(** The rows of a lookup table that carry a label. *)
Definition lookup_rows (label : string) (table : list (Z * string))
  : list (Z * string) :=
  filter (fun r => r.2 = label) table.

(** The rows of a junction table that link a product to a label of the
    lookup table. *)
Definition junction_rows (app_id : Z) (label : string)
  (table : list (Z * string)) (junction : list (Z * Z)) : list (Z * Z) :=
  filter (fun p => p.1 = app_id /\ (p.2, label) ∈ table) junction.

(** The uniqueness constraints of the lookup and junction tables: unique
    labels, and each pair at most once. *)
Definition constraints_hold (db : database) : Prop :=
  NoDup (genres db).*2 /\ NoDup (game_genres db) /\
  NoDup (tags db).*2 /\ NoDup (game_tags db).

(** Every label of every row read is linked in the junction table to every
    row of the lookup table that carries it. *)
Definition linked (table : list (Z * string)) (rows : list (Z * string))
  (junction : list (Z * Z)) : Prop :=
  forall app_id s label id,
    (app_id, s) ∈ rows -> label ∈ tokens s -> (id, label) ∈ table ->
    (app_id, id) ∈ junction.

(** ** Query server *)

Module Server.

(** The database as the server reaches it. *)
Record backend := { reachable : bool; stored : database }.

Definition get_db_connection (b : backend) : result database :=
  if reachable b then Ret (stored b) else Raise ConnectionFailed.

(** [execute_query("SELECT * FROM games WHERE app_id = %s", (app_id,))] *)
Definition execute_query (b : backend) (app_id : Z)
  : result (list (gmap string sqlval)) :=
  db ← get_db_connection b;
  Ret (match games db !! app_id with
       | Some row => [row]
       | None => []
       end).

Definition get_game_details (b : backend) (app_id : Z)
  : result (gmap string sqlval) :=
  results ← execute_query b app_id;
  Ret (match results with
       | row :: _ => row
       | [] => {[ "error" := SStr "Game not found" ]}
       end).

End Server.

(** ** Sample data *)

(** A runtime restricted to what the examples need: [float()] reads the
    special values and short runs of digits, [repr] writes the special
    values and small whole numbers, and [%Y] is not padded. *)
Definition sample_runtime : PyRuntime := {|
  py_float_of_str s :=
    let t := Text.lower (Text.strip s) in
    if decide (t ∈ ["inf"; "+inf"; "infinity"; "+infinity"]) then
      Some (FInf false)
    else if decide (t ∈ ["-inf"; "-infinity"]) then Some (FInf true)
    else if decide (t ∈ ["nan"; "+nan"; "-nan"]) then Some FNaN
    else
      let ds := list_ascii_of_string t in
      if forallb Text.is_digit ds && (0 <? length ds)%nat
         && (length ds <=? 15)%nat
      then Some (FFin (Text.int_of_digits ds) 0)
      else None;
  py_repr_float f :=
    match f with
    | FNaN => "nan"
    | FInf false => "inf"
    | FInf true => "-inf"
    | FFin m _ => Text.str_of_Z m +:+ ".0"
    end;
  py_strftime_pads_year := false
|}.

(** A schema whose only constraint on a tuple is [name NOT NULL]. *)
Definition sample_schema : Schema := {|
  storage_rejects values :=
    match values !! 1%nat with
    | Some SNull => true
    | _ => false
    end
|}.

Definition sample_row (app_id : Z) (name : option string) (price : Z)
  (date genres_ tags_ : string) : gmap string pyval :=
  list_to_map
    [("AppID", VInt app_id);
     ("Name", from_option VStr (VFloat FNaN) name);
     ("Release date", VStr date);
     ("Price", VFloat (FFin price 0));
     ("Positive", VInt 10); ("Negative", VInt 2);
     ("Windows", VBool true);
     ("Genres", VStr genres_); ("Tags", VStr tags_)].

(** ** The date tiers, in the words of the specification *)

Module DateSpec.
Import Text.

(** A four-digit token beginning with 19 or 20: the four characters [tok],
    standing between [pre] and [post] with no word character next to them. *)
Definition year_shape (tok : list ascii) : Prop :=
  exists c3 c4 : ascii,
    (tok = ["1"; "9"; c3; c4]%char \/ tok = ["2"; "0"; c3; c4]%char)
    /\ is_digit c3 = true /\ is_digit c4 = true.

Definition year_token (pre tok post : list ascii) : Prop :=
  year_shape tok
  /\ from_option is_word false (last pre) = false
  /\ from_option is_word false (head post) = false.

Definition no_parse (text fmt : string) : Prop :=
  forall dt, Strptime.strptime text fmt <> Ret dt.


(** The year component of a date string: the digits before its first
    hyphen, read as a number. *)
Fixpoint leading_digits (s : list ascii) : list ascii * list ascii :=
  match s with
  | c :: s' =>
      if is_digit c then
        let '(ds, rest) := leading_digits s' in (c :: ds, rest)
      else ([], s)
  | [] => ([], [])
  end.

Definition year_component (date : string) : option Z :=
  match leading_digits (list_ascii_of_string date) with
  | ((_ :: _) as ds, "-"%char :: _) => Some (int_of_digits ds)
  | _ => None
  end.

(** [s] is the number [y] written with [width] digits, or with some. *)
Definition digits_of (s : string) (width : nat) (y : Z) : bool :=
  let ds := list_ascii_of_string s in
  forallb is_digit ds && (length ds =? width)%nat && (int_of_digits ds =? y).

Definition some_digits_of (s : string) (y : Z) : bool :=
  let ds := list_ascii_of_string s in
  forallb is_digit ds && (0 <? length ds)%nat && (int_of_digits ds =? y).


(** The days of the leap year 2024, and each of them written in the four
    formats of the resolver. *)
Definition days_of_2024 : list (Z * Z) :=
  m ← seqZ 1 12; d ← seqZ 1 (Strptime.days_in_month 2024 m); [(m, d)].

Definition month_name (names : list string) (m : Z) : string :=
  default EmptyString (names !! Z.to_nat (m - 1)).

Definition day_texts (m d : Z) : list string :=
  [month_name Strptime.a_month m +:+ " " +:+ str_of_Z d +:+ ", 2024";
   month_name Strptime.f_month m +:+ " " +:+ str_of_Z d +:+ ", 2024";
   "2024-" +:+ pad2 m +:+ "-" +:+ pad2 d;
   str_of_Z d +:+ " " +:+ month_name Strptime.a_month m +:+ ", 2024"].

Definition resolves_to_day `{PyRuntime} (md : Z * Z) : bool :=
  forallb (fun text =>
             bool_decide
               (parse_date (VStr text)
                = (Some ("2024-" +:+ pad2 md.1 +:+ "-" +:+ pad2 md.2),
                   Some 2024)))
          (day_texts md.1 md.2).

End DateSpec.

(** One product whose genre list and tag list are both
    ["Action, RPG, Action"]. *)
Definition action_rpg_frame : list (gmap string pyval) :=
  [sample_row 1 (Some "Dungeon") 9 "Oct 29, 2024"
     "Action, RPG, Action" "Action, RPG, Action"].

(** Two products, the second record for the first product arriving with a
    new name and price and without a release date; and between them a
    record without a name, which the sample schema refuses. *)
Definition portal : gmap string pyval :=
  sample_row 10 (Some "Portal") 9 "Oct 10, 2007" "Action, Puzzle" "FPS".
Definition nameless : gmap string pyval :=
  sample_row 20 None 5 "2011-04-19" "Indie" "2D".
Definition portal_renamed : gmap string pyval :=
  sample_row 10 (Some "Portal 2") 19 EmptyString "Action, Puzzle" "FPS".

Definition portal_loaded : loader :=
  @load_games sample_runtime sample_schema (connect empty_database)
    [portal] 500.

Definition portal_renamed_values : list sqlval :=
  Eval vm_compute in
    match @map_row sample_runtime portal_renamed with
    | Ret values => values
    | Raise _ => []
    end.

Definition portal_stored : gmap string sqlval :=
  default ∅ (games (session (conn portal_loaded)) !! 10).

(** ** Vocabulary for the further properties *)

Module TextSpec.
Import Text.

(** A run of whitespace characters. *)
Definition spaces (l : list ascii) : Prop :=
  Forall (fun c => is_space c = true) l.

(** A character, if there is one, that is not whitespace. *)
Definition not_space (o : option ascii) : Prop :=
  from_option is_space false o = false.

End TextSpec.

(** ** Vocabulary for the further properties of the loader *)

(** The first statement of a list for a given key. *)
Fixpoint first_write (app_id : Z) (stmts : list (Z * gmap string sqlval))
  : option (gmap string sqlval) :=
  match stmts with
  | [] => None
  | (k, new) :: stmts' =>
      if decide (k = app_id) then Some new else first_write app_id stmts'
  end.

(** The exception that ends the [try] block of a record when the batch size
    is zero: its own, or the one of the remainder [inserted % batch_size]
    taken after its statement ran. *)
Definition zero_batch_error `{PyRuntime} `{Schema}
  (row : gmap string pyval) : exn :=
  match row_outcome row with
  | Ret _ => ZeroDivisionError
  | Raise e => e
  end.

(** ** Vocabulary for the further properties of delimited lists *)

(** A piece of a delimited list as the code keeps it: not empty, without
    whitespace at either end and without the separator. *)
Definition clean_piece (sep : ascii) (piece : string) : Prop :=
  piece <> EmptyString /\ Text.strip piece = piece
  /\ sep ∉ list_ascii_of_string piece.

(** ** Vocabulary for the further properties of the normalizer *)

(** Some stored product carries the label in the delimited list of its
    column [c]. *)
Definition labelled (c : string) (db : database) (label : string) : Prop :=
  exists k row s,
    games db !! k = Some row /\ column c row = SStr s /\ label ∈ tokens s.

(** A product carries the label in the delimited list of its column [c]. *)
Definition carries (c : string) (db : database) (k : Z) (label : string)
  : Prop :=
  exists row s,
    games db !! k = Some row /\ column c row = SStr s /\ label ∈ tokens s.

(** The rows [added] extend a lookup table by labels it did not have,
    under identifiers it did not use. *)
Definition fresh_rows (table added : list (Z * string)) : Prop :=
  NoDup added.*2 /\
  forall r, r ∈ added -> (r.2 ∉ table.*2) /\ (r.1 ∉ table.*1).

(** ** Schema installer *)

(** The server's answer to one statement of the schema file: the state it
    leaves, or the message of the connector's [Error]; a statement that
    fails leaves the state as it was. *)
Class SchemaServer := {
  execute_statement : string -> database -> database + string
}.

(** Lines that [execute_schema] writes to standard output. *)
Inductive schema_line :=
| PrintCreating
| PrintWarning (e : string)
| PrintCreated.

(** [statement.split(';')] *)
Definition split_semicolon (s : string) : list string :=
  map string_of_list_ascii
    (Text.split_on ";" [] (list_ascii_of_string s)).

(** The body of [for statement in schema_sql.split(';')]. *)
Definition run_piece `{SchemaServer} (st : database * list schema_line)
  (statement : string) : database * list schema_line :=
  let statement := Text.strip statement in
  if decide (statement = EmptyString) then st
  else
    match execute_statement statement st.1 with
    | inl db => (db, st.2)
    | inr e => (st.1, st.2 ++ [PrintWarning e])
    end.

(** [execute_schema(conn, schema_path)], on the text [schema_sql] read from
    the file. *)
Definition execute_schema `{SchemaServer} (c : connection)
  (schema_sql : string) : connection * list schema_line :=
  let st :=
    foldl run_piece (session c, [PrintCreating])
      (split_semicolon schema_sql) in
  (commit (with_session st.1 c), st.2 ++ [PrintCreated]).

(** ** Vocabulary for the schema installer's properties *)

(** The statements of a schema text: the pieces between semicolons,
    stripped, without the empty ones. *)
Definition schema_statements (schema_sql : string) : list string :=
  filter (fun t => t ≠ EmptyString)
    (Text.strip <$> split_semicolon schema_sql).

(** A list of statements sent to the server one after the other, with the
    warnings of those that fail. *)
Definition run_statements `{SchemaServer} (db : database)
  (statements : list string) : database * list schema_line :=
  foldl (fun st statement =>
           match execute_statement statement st.1 with
           | inl db => (db, st.2)
           | inr e => (st.1, st.2 ++ [PrintWarning e])
           end)
        (db, []) statements.

(** ** Entry point *)

(** Lines that [main] writes to standard output, those of the functions it
    calls included. *)
Inductive main_line :=
| PrintRule
| PrintTitle
| PrintConnectError
| PrintConnected
| SchemaLine (l : schema_line)
| LoaderLine (l : line)
| PrintVerification (count : nat)
| PrintDone.

(** [create_connection()]: the connection, or the line printed and the
    connector's error raised again. *)
Definition create_connection (b : Server.backend)
  : result connection * list main_line :=
  if Server.reachable b then (Ret (connect (Server.stored b)), [])
  else (Raise DatabaseError, [PrintConnectError]).

(** [main()], on the schema text and the frame read from the two files:
    the lines printed and the database as the closed connection leaves it,
    or the exception that ends the run. *)
Definition main `{PyRuntime} `{Schema} `{SchemaServer} (b : Server.backend)
  (schema_sql : string) (df : list (gmap string pyval))
  : result database * list main_line :=
  let out := [PrintRule; PrintTitle; PrintRule] in
  match create_connection b with
  | (Raise e, printed) => (Raise e, out ++ printed)
  | (Ret conn0, printed) =>
      let out := out ++ printed ++ [PrintConnected] in
      let '(conn1, printed) := execute_schema conn0 schema_sql in
      let out := out ++ (SchemaLine <$> printed) in
      let st := load_games conn1 df 500 in
      let out := out ++ (LoaderLine <$> stdout st) in
      let '(conn2, printed) := populate_normalized_tables (conn st) in
      let out := out ++ (LoaderLine <$> printed) in
      (* Verify *)
      let count := size (games (session conn2)) in
      let out := out ++ [PrintVerification count] in
      (Ret (committed conn2), out ++ [PrintDone])
  end.

(** ** Query construction of the server *)

Module Query.

(** A value bound to a placeholder of a statement. *)
Inductive param :=
| PText (s : string)
| PNumber (f : pyfloat)
| PInteger (n : Z).

(** [if text:] on an optional text. *)
Definition given (text : option string) : option string :=
  match text with
  | Some s => if Py.truthy (VStr s) then Some s else None
  | None => None
  end.

(** [" AND ".join(conditions)] *)
Definition join_and (conditions : list string) : string :=
  String.concat " AND " conditions.

(** The text of [sql] before and after the clause of [search_games]. *)
Definition search_games_select : string :=
  "
        SELECT app_id, name, release_date, price, 
               positive_reviews, negative_reviews, 
               genres, developers, publishers,
               windows, mac, linux
        FROM games 
        WHERE ".

Definition search_games_order : string :=
  "
        ORDER BY positive_reviews DESC
        LIMIT %s
    ".

(** The statement and the parameters that [search_games] hands to
    [execute_query]. *)
Definition search_games (name genre : option string)
  (min_price max_price : option pyfloat) (min_positive_reviews : option Z)
  (platform : option string) (limit : Z) : string * list param :=
  let q : list string * list param := ([], []) in
  let q :=
    match given name with
    | Some name =>
        (q.1 ++ ["name LIKE %s"], q.2 ++ [PText ("%" +:+ name +:+ "%")])
    | None => q
    end in
  let q :=
    match given genre with
    | Some genre =>
        (q.1 ++ ["genres LIKE %s"], q.2 ++ [PText ("%" +:+ genre +:+ "%")])
    | None => q
    end in
  let q :=
    match min_price with
    | Some min_price => (q.1 ++ ["price >= %s"], q.2 ++ [PNumber min_price])
    | None => q
    end in
  let q :=
    match max_price with
    | Some max_price => (q.1 ++ ["price <= %s"], q.2 ++ [PNumber max_price])
    | None => q
    end in
  let q :=
    match min_positive_reviews with
    | Some n => (q.1 ++ ["positive_reviews >= %s"], q.2 ++ [PInteger n])
    | None => q
    end in
  let q :=
    match given platform with
    | Some platform =>
        let platform := Text.lower platform in
        if String.eqb platform "windows" then
          (q.1 ++ ["windows = TRUE"], q.2)
        else if String.eqb platform "mac" then (q.1 ++ ["mac = TRUE"], q.2)
        else if String.eqb platform "linux" then
          (q.1 ++ ["linux = TRUE"], q.2)
        else q
    | None => q
    end in
  let where_clause :=
    match q.1 with
    | [] => "1=1"
    | _ :: _ => join_and q.1
    end in
  let limit := Z.min limit 100 in
  let sql := search_games_select +:+ where_clause +:+ search_games_order in
  (sql, q.2 ++ [PInteger limit]).

(** The text of [sql] before and after the clause of
    [get_top_rated_games]. *)
Definition get_top_rated_games_select : string :=
  "
        SELECT 
            app_id, name, release_year, price, genres,
            positive_reviews, negative_reviews,
            ROUND(positive_reviews * 100.0 / (positive_reviews + negative_reviews), 1) as positive_ratio,
            developers, publishers
        FROM games
        WHERE ".

Definition get_top_rated_games_order : string :=
  "
        ORDER BY positive_ratio DESC, positive_reviews DESC
        LIMIT %s
    ".

(** The statement and the parameters that [get_top_rated_games] hands to
    [execute_query]. *)
Definition get_top_rated_games (min_reviews : Z) (genre : option string)
  (limit : Z) : string * list param :=
  let q : list string * list param :=
    (["positive_reviews + negative_reviews >= %s"], [PInteger min_reviews]) in
  let q :=
    match given genre with
    | Some genre =>
        (q.1 ++ ["genres LIKE %s"], q.2 ++ [PText ("%" +:+ genre +:+ "%")])
    | None => q
    end in
  let where_clause := join_and q.1 in
  let sql :=
    get_top_rated_games_select +:+ where_clause
    +:+ get_top_rated_games_order in
  (sql, q.2 ++ [PInteger limit]).

(** *** Vocabulary for the properties of the statements *)

(** The number of placeholders [%s] of a statement; nothing when a percent
    sign stands anywhere else than in a placeholder or in a doubled
    percent sign. *)
Fixpoint placeholders (s : list ascii) : option nat :=
  match s with
  | [] => Some 0%nat
  | c :: s' =>
      if Ascii.eqb c "%" then
        match s' with
        | [] => None
        | x :: s'' =>
            if Ascii.eqb x "s" then S <$> placeholders s''
            else if Ascii.eqb x "%" then placeholders s''
            else None
        end
      else placeholders s'
  end.

(** The conditions hold as many placeholders as there are parameters. *)
Definition balanced (q : list string * list param) : Prop :=
  placeholders (list_ascii_of_string (join_and q.1)) = Some (length q.2).

End Query.

(** ** Sample data for the further properties *)

(** A server that knows no table [missing] and takes every other
    statement without a change of the stored rows. *)
Definition sample_server : SchemaServer := {|
  execute_statement statement db :=
    if decide (statement = "DROP TABLE missing") then inr "Unknown table"
    else inl db
|}.

Definition sample_statements : list string :=
  ["CREATE TABLE games (app_id INT PRIMARY KEY)"; "DROP TABLE missing"].

Definition sample_backend : Server.backend :=
  {| Server.reachable := true; Server.stored := empty_database |}.

(** A third product, under a key of its own. *)
Definition half_life : gmap string pyval :=
  sample_row 70 (Some "Half-Life") 9 "Nov 8, 1998" "Action" "FPS".

Definition portal_values : list sqlval :=
  Eval vm_compute in
    match @map_row sample_runtime portal with
    | Ret values => values
    | Raise _ => []
    end.

Definition half_life_values : list sqlval :=
  Eval vm_compute in
    match @map_row sample_runtime half_life with
    | Ret values => values
    | Raise _ => []
    end.

(** * Properties *)

(** ** Field coercers *)

Section Coercers.
Context `{PyRuntime}.

Lemma except_value_type_raises {A} (r : result A) (default : A) (e : exn) :
  except_value_type r default = Raise e <->
  r = Raise e /\ e <> ValueError /\ e <> TypeError.
Proof.
  destruct r as [a|e']; simpl.
  - split; [discriminate | intros [? _]; discriminate].
  - destruct e'; simpl; split;
      try discriminate; try (intros [[= <-] [? ?]]; congruence);
      intros [= <-]; repeat split; discriminate.
Qed.

Lemma float_of_int_raises (n : Z) (e : exn) :
  Py.float_of_int n = Raise e -> e = OverflowError.
Proof.
  unfold Py.float_of_int.
  repeat (case_match; try discriminate); congruence.
Qed.

Lemma float_raises (value : pyval) (e : exn) :
  Py.float value = Raise e ->
  e = OverflowError \/ e = ValueError \/ e = TypeError.
Proof.
  destruct value; simpl; try discriminate.
  - intros [= <-]; auto.
  - intros ?%float_of_int_raises; auto.
  - case_match; [discriminate | intros [= <-]; auto].
Qed.

(** The float coercer raises exactly on an int too large for a float. *)
Lemma safe_float_raises (value : pyval) (default : pyfloat) (e : exn) :
  safe_float value default = Raise e <->
  exists n, value = VInt n /\ Py.float_of_int n = Raise OverflowError
            /\ e = OverflowError.
Proof.
  unfold safe_float. split.
  - destruct (pd_isna value); [discriminate |].
    intros (Hr & Hv & Ht)%except_value_type_raises.
    destruct value; simpl in Hr; try discriminate.
    + congruence.
    + pose proof (float_of_int_raises _ _ Hr) as ->. eauto.
    + case_match; [discriminate | congruence].
  - intros (n & -> & Hn & ->). simpl. rewrite Hn. reflexivity.
Qed.

(** The integer coercer raises exactly when [float(value)] is infinite or
    overflows; in every other case it returns. *)
Lemma safe_int_raises (value : pyval) (default : Z) (e : exn) :
  safe_int value default = Raise e <->
  pd_isna value = false /\ e = OverflowError /\
  (Py.float value = Raise OverflowError
   \/ exists negative, Py.float value = Ret (FInf negative)).
Proof.
  unfold safe_int. split.
  - destruct (pd_isna value); [discriminate |].
    intros (Hr & Hv & Ht)%except_value_type_raises.
    destruct (Py.float value) as [f|e'] eqn:Hf; simpl in Hr.
    + destruct f; simpl in Hr; try discriminate; [congruence |].
      injection Hr as <-. eauto.
    + injection Hr as ->.
      destruct (float_raises _ _ Hf) as [->|[->| ->]]; try congruence; auto.
  - intros (-> & -> & [Hf | [negative Hf]]); rewrite Hf; reflexivity.
Qed.

Lemma safe_int_missing (value : pyval) (default : Z) :
  pd_isna value = true -> safe_int value default = Ret default.
Proof. unfold safe_int. intros ->. reflexivity. Qed.

Lemma safe_int_unparsable (s : string) (default : Z) :
  py_float_of_str s = None -> safe_int (VStr s) default = Ret default.
Proof. unfold safe_int. simpl. intros ->. reflexivity. Qed.

Lemma safe_int_truncates (value : pyval) (default m e : Z) :
  Py.float value = Ret (FFin m e) ->
  safe_int value default
  = Ret (if 0 <=? e then m * 2 ^ e else Z.quot m (2 ^ (- e))).
Proof.
  unfold safe_int. intros Hf.
  destruct (pd_isna value) eqn:Hna.
  - destruct value as [| | |[]|]; simpl in *; discriminate.
  - rewrite Hf. reflexivity.
Qed.

Lemma safe_float_missing (value : pyval) (default : pyfloat) :
  pd_isna value = true -> safe_float value default = Ret default.
Proof. unfold safe_float. intros ->. reflexivity. Qed.

Lemma safe_float_unparsable (s : string) (default : pyfloat) :
  py_float_of_str s = None -> safe_float (VStr s) default = Ret default.
Proof. unfold safe_float. simpl. intros ->. reflexivity. Qed.

(** C2, at the failing input.  The integer coercer is given the float
    infinity, which is not a missing value and which [float()] accepts;
    [int()] then raises [OverflowError], an exception the handler
    [except (ValueError, TypeError)] does not catch: the coercer raises
    instead of returning its default.  The float coercer raises in the same
    way on an int beyond the range of a float. *)
Theorem safe_int_infinity_raises (default : Z) (fdefault : pyfloat) :
  safe_int (VFloat (FInf false)) default = Raise OverflowError /\
  safe_float (VInt (10 ^ 400)) fdefault = Raise OverflowError.
Proof. split; vm_compute; reflexivity. Qed.

End Coercers.

(** The same on text, with a runtime whose [float()] reads ["inf"]. *)
Example safe_int_inf_text :
  @safe_int sample_runtime (VStr "inf") 0 = Raise OverflowError.
Proof. vm_compute. reflexivity. Qed.

(** ** Query server *)

Section ServerFacts.
Import Server.

(** C10.  With the database reachable, [get_game_details] answers the
    dictionary [{"error": "Game not found"}] for an [app_id] that has no row
    in [games], and the stored row itself, with all its columns, for an
    [app_id] that has one; it raises in neither case. *)
Theorem get_game_details_found_or_error (b : backend) (app_id : Z) :
  reachable b = true ->
  (games (stored b) !! app_id = None ->
   get_game_details b app_id = Ret {[ "error" := SStr "Game not found" ]}) /\
  (forall row, games (stored b) !! app_id = Some row ->
   get_game_details b app_id = Ret row).
Proof.
  intros Hup. unfold get_game_details, execute_query, get_db_connection.
  rewrite Hup. simpl. split.
  - intros ->. reflexivity.
  - intros row ->. reflexivity.
Qed.

End ServerFacts.

(** ** Date resolver *)

Section YearSearch.
Import Text YearRegex DateSpec.

Lemma is_digit_is_word (c : ascii) : is_digit c = true -> is_word c = true.
Proof. unfold is_digit, is_word. intros ->. reflexivity. Qed.

Lemma year_shape_head_word (tok post : list ascii) :
  year_shape tok -> from_option is_word false (head (tok ++ post)) = true.
Proof. intros (c3 & c4 & [-> | ->] & _); reflexivity. Qed.

Lemma year_shape_length (tok : list ascii) :
  year_shape tok -> length tok = 4%nat.
Proof. intros (c3 & c4 & [-> | ->] & _); reflexivity. Qed.

Lemma year_here_spec (s tok : list ascii) :
  year_here s = Some tok <->
  exists post, s = tok ++ post /\ year_shape tok
               /\ from_option is_word false (head post) = false.
Proof.
  split.
  - destruct s as [|c1 [|c2 [|c3 [|c4 rest]]]]; simpl; try discriminate.
    case_match eqn:Hc; [|discriminate]. intros [= <-].
    apply andb_prop in Hc as [Hc Hb]. apply andb_prop in Hc as [Hc H4].
    apply andb_prop in Hc as [Hc H3].
    exists rest. split; [reflexivity|]. split.
    + exists c3, c4. split; [|done].
      apply orb_prop in Hc as [Hc|Hc]; apply andb_prop in Hc as [E1 E2];
        apply Ascii.eqb_eq in E1 as ->; apply Ascii.eqb_eq in E2 as ->; auto.
    + unfold word_boundary in Hb. simpl in Hb.
      rewrite (is_digit_is_word _ H4) in Hb.
      destruct (from_option is_word false (head rest)); done.
  - intros (post & -> & (c3 & c4 & Htok & H3 & H4) & Hpost).
    destruct Htok as [-> | ->]; simpl; rewrite H3, H4; simpl;
      unfold word_boundary; simpl; rewrite (is_digit_is_word _ H4), Hpost;
      reflexivity.
Qed.

(** What the search returns is the leftmost year token of the text. *)
Lemma search_from_spec (s before : list ascii) :
  match search_from (last before) s with
  | Some tok =>
      exists mid post,
        s = mid ++ tok ++ post /\ year_token (before ++ mid) tok post /\
        forall mid' tok' post',
          s = mid' ++ tok' ++ post' ->
          year_token (before ++ mid') tok' post' ->
          (length mid <= length mid')%nat
  | None =>
      forall mid tok post,
        s = mid ++ tok ++ post -> ~ year_token (before ++ mid) tok post
  end.
Proof.
  revert before. induction s as [|c s IH]; intros before.
  - simpl. replace (year_here []) with (@None (list ascii)) by reflexivity.
    destruct (word_boundary (last before) None);
      intros mid tok post Hs [Hshape _];
      apply year_shape_length in Hshape;
      apply (f_equal length) in Hs; rewrite !length_app in Hs;
      simpl in Hs; lia.
  - cbn [search_from].
    destruct (if word_boundary (last before) (head (c :: s))
              then year_here (c :: s) else None) as [tok|] eqn:Hhere.
    + destruct (word_boundary (last before) (head (c :: s))) eqn:Hb;
        [|discriminate].
      apply year_here_spec in Hhere as (post & Hs & Hshape & Hpost).
      exists [], post. split; [exact Hs|]. split.
      * split; [exact Hshape|]. split; [|exact Hpost].
        rewrite app_nil_r. unfold word_boundary in Hb.
        rewrite Hs, (year_shape_head_word _ _ Hshape) in Hb.
        destruct (from_option is_word false (last before)); done.
      * intros; simpl; lia.
    + specialize (IH (before ++ [c])). rewrite last_snoc in IH.
      assert (Hnot0 : forall tok post,
                 c :: s = tok ++ post -> ~ year_token before tok post).
      { intros tok post Hs (Hshape & Hpre & Hpost).
        assert (Hy : year_here (c :: s) = Some tok)
          by (apply year_here_spec; eauto).
        unfold word_boundary in Hhere.
        rewrite Hs, (year_shape_head_word _ _ Hshape), Hpre in Hhere.
        simpl in Hhere. rewrite <- Hs in Hhere. congruence. }
      destruct (search_from (Some c) s) as [tok|].
      * destruct IH as (mid & post & Hs & Htok & Hleft).
        exists (c :: mid), post. split; [simpl; congruence|]. split.
        { replace (before ++ c :: mid) with ((before ++ [c]) ++ mid)
            by (rewrite <- app_assoc; reflexivity). exact Htok. }
        intros [|c' mid'] tok' post' Hs' Htok'.
        { exfalso. apply (Hnot0 tok' post' Hs').
          rewrite app_nil_r in Htok'. exact Htok'. }
        simpl in Hs'. injection Hs' as <- Hs'. simpl.
        apply le_n_S, (Hleft mid' tok' post' Hs').
        rewrite <- app_assoc. exact Htok'.
      * intros [|c' mid] tok post Hs Htok.
        { apply (Hnot0 tok post Hs). rewrite app_nil_r in Htok. exact Htok. }
        simpl in Hs. injection Hs as <- Hs.
        apply (IH mid tok post Hs). rewrite <- app_assoc. exact Htok.
Qed.

Lemma search_spec (text : string) :
  match search text with
  | Some tok =>
      exists pre post,
        list_ascii_of_string text = pre ++ tok ++ post /\
        year_token pre tok post /\
        forall pre' tok' post',
          list_ascii_of_string text = pre' ++ tok' ++ post' ->
          year_token pre' tok' post' -> (length pre <= length pre')%nat
  | None =>
      forall pre tok post,
        list_ascii_of_string text = pre ++ tok ++ post ->
        ~ year_token pre tok post
  end.
Proof. exact (search_from_spec (list_ascii_of_string text) []). Qed.


End YearSearch.

Section Enumeration.
Import Text DateSpec.


Lemma digit_char_spec (k : Z) :
  0 <= k <= 9 ->
  is_digit (digit_char k) = true /\ digit_value (digit_char k) = k.
Proof.
  intros Hk.
  assert (Hcases : k = 0 \/ k = 1 \/ k = 2 \/ k = 3 \/ k = 4 \/ k = 5
                   \/ k = 6 \/ k = 7 \/ k = 8 \/ k = 9) by lia.
  repeat destruct Hcases as [-> | Hcases]; try subst k; split; reflexivity.
Qed.

Lemma mod10_digit (n : Z) :
  is_digit (digit_char (n mod 10)) = true
  /\ digit_value (digit_char (n mod 10)) = n mod 10.
Proof. apply digit_char_spec. pose proof (Z.mod_pos_bound n 10). lia. Qed.

Lemma pad4_digits (y : Z) :
  0 <= y <= 9999 -> digits_of (pad4 y) 4 y = true.
Proof.
  intros Hy. unfold digits_of, pad4, pad2. simpl.
  destruct (mod10_digit (y / 1000)) as [-> E1].
  destruct (mod10_digit (y / 100)) as [-> E2].
  destruct (mod10_digit (y / 10)) as [-> E3].
  destruct (mod10_digit y) as [-> E4]. simpl.
  apply Z.eqb_eq. unfold int_of_digits. cbn [fold_left].
  rewrite E1, E2, E3, E4.
  replace (y / 1000) with (y / 10 / 10 / 10)
    by (rewrite !Z.div_div by lia; reflexivity).
  replace (y / 100) with (y / 10 / 10)
    by (rewrite !Z.div_div by lia; reflexivity).
  clear E1 E2 E3 E4.
  pose proof (Z.div_mod y 10 ltac:(lia)).
  pose proof (Z.div_mod (y / 10) 10 ltac:(lia)).
  pose proof (Z.div_mod (y / 10 / 10) 10 ltac:(lia)).
  pose proof (Z.mod_pos_bound y 10 ltac:(lia)).
  pose proof (Z.mod_pos_bound (y / 10) 10 ltac:(lia)).
  pose proof (Z.mod_pos_bound (y / 10 / 10) 10 ltac:(lia)).
  assert (0 <= y / 10 / 10 / 10 < 10).
  { split; [repeat apply Z.div_pos; lia|].
    rewrite !Z.div_div by lia. apply Z.div_lt_upper_bound; lia. }
  rewrite (Z.mod_small (y / 10 / 10 / 10) 10) by lia.
  lia.
Qed.


(** The value of a run of digits given least significant first. *)
Lemma int_of_digits_rev (ds : list ascii) :
  int_of_digits (rev ds)
  = fold_right (fun c acc => 10 * acc + digit_value c) 0 ds.
Proof.
  unfold int_of_digits. rewrite <- fold_left_rev_right, rev_involutive.
  reflexivity.
Qed.

Lemma digits_le_spec (fuel : nat) (n : Z) :
  0 <= n < 2 ^ Z.of_nat fuel ->
  Forall (fun c => is_digit c = true) (digits_le fuel n)
  /\ fold_right (fun c acc => 10 * acc + digit_value c) 0 (digits_le fuel n)
     = n
  /\ (0 < fuel -> digits_le fuel n <> [])%nat.
Proof.
  revert n. induction fuel as [|fuel IH]; intros n Hn.
  - simpl in *. split; [constructor|]. split; [lia | lia].
  - cbn [digits_le]. destruct (mod10_digit n) as [Hd Hv].
    rewrite Nat2Z.inj_succ, Z.pow_succ_r in Hn by lia.
    destruct (n <? 10) eqn:Hlt.
    + apply Z.ltb_lt in Hlt. split; [by repeat constructor|].
      split; [|discriminate]. simpl. rewrite Hv. rewrite Z.mod_small; lia.
    + apply Z.ltb_ge in Hlt.
      destruct (IH (n / 10)) as (Hall & Hval & _).
      { split; [apply Z.div_pos; lia|].
        apply Z.div_lt_upper_bound; lia. }
      split; [by constructor|]. split; [|discriminate].
      simpl. rewrite Hval, Hv. pose proof (Z.div_mod n 10). lia.
Qed.

(** The decimal text of a number that is not negative reads back as the
    number. *)
Lemma str_of_Z_digits (y : Z) :
  0 <= y -> some_digits_of (str_of_Z y) y = true.
Proof.
  intros Hy. unfold some_digits_of, str_of_Z, str_of_nonneg.
  rewrite (proj2 (Z.ltb_ge y 0)) by lia.
  rewrite list_ascii_of_string_of_list_ascii.
  destruct (digits_le_spec (S (Z.to_nat (Z.log2 y))) y) as (Hall & Hval & Hne).
  { split; [lia|]. rewrite Nat2Z.inj_succ, Z2Nat.id by apply Z.log2_nonneg.
    destruct (Z.eq_dec y 0) as [->|Hpos]; [reflexivity|].
    apply Z.log2_spec. lia. }
  rewrite int_of_digits_rev, Hval, Z.eqb_refl, andb_true_r.
  apply andb_true_intro. split.
  - apply forallb_forall. intros c Hc%in_rev.
    rewrite Forall_forall in Hall. apply Hall, list_elem_of_In, Hc.
  - rewrite length_rev. apply Nat.ltb_lt.
    destruct (digits_le _ y); [by destruct Hne; [lia|] | simpl; lia].
Qed.

(** A number of four digits is written as [%04d] writes it. *)
Lemma str_of_Z_pad4 (y : Z) : 1000 <= y <= 9999 -> str_of_Z y = pad4 y.
Proof.
  intros Hy. unfold str_of_Z, str_of_nonneg.
  rewrite (proj2 (Z.ltb_ge y 0)) by lia.
  assert (Hlog : 9 <= Z.log2 y).
  { apply Z.log2_le_pow2; [lia|]. change (2 ^ 9) with 512. lia. }
  replace (Z.to_nat (Z.log2 y))
    with (S (S (S (Z.to_nat (Z.log2 y - 3))))) by lia.
  cbn [digits_le].
  rewrite (proj2 (Z.ltb_ge y 10)) by lia.
  rewrite (proj2 (Z.ltb_ge (y / 10) 10))
    by (apply Z.div_le_lower_bound; lia).
  rewrite (proj2 (Z.ltb_ge (y / 10 / 10) 10))
    by (rewrite Z.div_div by lia; apply Z.div_le_lower_bound; lia).
  rewrite (proj2 (Z.ltb_lt (y / 10 / 10 / 10) 10))
    by (rewrite !Z.div_div by lia; apply Z.div_lt_upper_bound; lia).
  rewrite !Z.div_div by lia. reflexivity.
Qed.


End Enumeration.

Section DateResolver.
Context `{PyRuntime}.
Import Text DateSpec.

Lemma list_ascii_of_string_app (a b : string) :
  list_ascii_of_string (a +:+ b)
  = list_ascii_of_string a ++ list_ascii_of_string b.
Proof. induction a as [|c a IH]; simpl; [reflexivity | by rewrite IH]. Qed.

Lemma no_parse_raises (text fmt : string) :
  no_parse text fmt <-> exists e, Strptime.strptime text fmt = Raise e.
Proof.
  unfold no_parse. destruct (Strptime.strptime text fmt) as [dt|e].
  - split; [intros Hn; destruct (Hn dt eq_refl) | intros [e ?]; discriminate].
  - split; [eauto | intros _ dt; discriminate].
Qed.


Lemma try_formats_some (text : string) (fmts : list string)
      (date : string) (year : Z) :
  try_formats text fmts = Some (date, year) <->
  exists fmts_before fmt fmts_after dt,
    fmts = fmts_before ++ fmt :: fmts_after /\
    Forall (no_parse text) fmts_before /\
    Strptime.strptime text fmt = Ret dt /\
    date = Strptime.strftime dt "%Y-%m-%d" /\ year = dt_year dt.
Proof.
  induction fmts as [|fmt fmts IH]; simpl.
  - split; [discriminate|].
    intros (b & f & a & dt & Heq & _). destruct b; discriminate.
  - destruct (Strptime.strptime text fmt) as [dt|e] eqn:Hp.
    + split.
      * intros [= <- <-]. exists [], fmt, fmts, dt. auto.
      * intros ([|f0 b] & f & a & dt' & Heq & Hall & Hp' & -> & ->).
        -- simpl in Heq. injection Heq as <- <-. congruence.
        -- simpl in Heq. injection Heq as <- _.
           inversion Hall as [|? ? Hn _]. destruct (Hn dt Hp).
    + rewrite IH. split.
      * intros (b & f & a & dt & -> & Hall & Hp' & Hd & Hy).
        exists (fmt :: b), f, a, dt. repeat split; try assumption.
        constructor; [|exact Hall]. apply no_parse_raises. eauto.
      * intros ([|f0 b] & f & a & dt & Heq & Hall & Hp' & Hd & Hy).
        -- simpl in Heq. injection Heq as <- <-. congruence.
        -- simpl in Heq. injection Heq as <- ->.
           exists b, f, a, dt. inversion Hall. auto.
Qed.

(** On a str the resolver is its three steps on the stripped text; the
    test for an empty str only shortens the way to the same answer. *)
Lemma parse_date_text (s : string) :
  parse_date (VStr s)
  = match try_formats (strip s) formats with
    | Some (date, year) => (Some date, Some year)
    | None =>
        match YearRegex.search (strip s) with
        | Some year_match =>
            (Some (str_of_Z (int_of_digits year_match) +:+ "-01-01"),
             Some (int_of_digits year_match))
        | None => (None, None)
        end
    end.
Proof.
  unfold parse_date. simpl.
  destruct (String.eqb s EmptyString) eqn:Hs; simpl; [|reflexivity].
  apply String.eqb_eq in Hs as ->. reflexivity.
Qed.




Lemma make_datetime_valid (y m d : Z) (dt : datetime) :
  Strptime.make_datetime y m d = Ret dt ->
  dt = {| dt_year := y; dt_month := m; dt_day := d |} /\
  1 <= y <= 9999 /\ 1 <= m <= 12 /\ 1 <= d <= 31.
Proof.
  unfold Strptime.make_datetime, between.
  case_match eqn:Hc; [|discriminate]. intros [= <-].
  apply andb_prop in Hc as [Hc Hd]. apply andb_prop in Hc as [Hy Hm].
  assert (Strptime.days_in_month y m <= 31)
    by (unfold Strptime.days_in_month; repeat case_match; lia).
  split; [reflexivity | lia].
Qed.

Lemma strptime_valid (text fmt : string) (dt : datetime) :
  Strptime.strptime text fmt = Ret dt ->
  1 <= dt_year dt <= 9999 /\ 1 <= dt_month dt <= 12 /\ 1 <= dt_day dt <= 31.
Proof.
  unfold Strptime.strptime.
  repeat (case_match; try discriminate);
    intros (-> & Hb)%make_datetime_valid; exact Hb.
Qed.

Lemma strftime_ymd (dt : datetime) :
  Strptime.strftime dt "%Y-%m-%d"
  = (if py_strftime_pads_year then pad4 (dt_year dt)
     else str_of_Z (dt_year dt))
    +:+ "-" +:+ pad2 (dt_month dt) +:+ "-" +:+ pad2 (dt_day dt).
Proof.
  unfold Strptime.strftime. simpl.
  destruct py_strftime_pads_year; reflexivity.
Qed.

End DateResolver.


(** Every day of 2024, written in any of the four formats, resolves to
    that day. *)
Lemma parse_date_every_day_of_2024 (R : PyRuntime) :
  forallb DateSpec.resolves_to_day DateSpec.days_of_2024 = true.
Proof. destruct R as [fs rp []]; vm_compute; reflexivity. Qed.

Section DateShape.
Context `{PyRuntime}.
Import Text DateSpec.

Lemma is_digit_value (c : ascii) :
  is_digit c = true -> 0 <= digit_value c <= 9.
Proof.
  unfold is_digit, between, digit_value.
  intros [? ?]%andb_prop. lia.
Qed.

Lemma year_shape_range (tok : list ascii) :
  year_shape tok -> 1900 <= int_of_digits tok <= 2099.
Proof.
  intros (c3 & c4 & Htok & H3%is_digit_value & H4%is_digit_value).
  destruct Htok as [-> | ->]; unfold int_of_digits; simpl;
    change (digit_value "1") with 1; change (digit_value "9") with 9;
    change (digit_value "2") with 2; change (digit_value "0") with 0; lia.
Qed.

Lemma leading_digits_app (ds rest : list ascii) :
  Forall (fun c => is_digit c = true) ds ->
  leading_digits (ds ++ "-"%char :: rest) = (ds, "-"%char :: rest).
Proof.
  induction 1 as [|c ds Hc _ IH]; simpl; [reflexivity|].
  by rewrite Hc, IH.
Qed.

Lemma year_component_prefix (ys rest : string) (y : Z) :
  some_digits_of ys y = true ->
  year_component (ys +:+ "-" +:+ rest) = Some y.
Proof.
  unfold some_digits_of, year_component. intros Hc.
  apply andb_prop in Hc as [Hc Hy]. apply andb_prop in Hc as [Hd Hl].
  rewrite list_ascii_of_string_app. simpl.
  rewrite leading_digits_app.
  - destruct (list_ascii_of_string ys); [discriminate|].
    apply Z.eqb_eq in Hy. by rewrite Hy.
  - apply Forall_forall. intros c Hin. rewrite forallb_forall in Hd.
    apply Hd, list_elem_of_In, Hin.
Qed.

Lemma digits_of_some (s : string) (y : Z) :
  digits_of s 4 y = true -> some_digits_of s y = true.
Proof.
  unfold digits_of, some_digits_of. intros Hc.
  apply andb_prop in Hc as [Hc ->]. apply andb_prop in Hc as [-> Hl].
  apply Nat.eqb_eq in Hl as ->. reflexivity.
Qed.


Lemma year_string (dt : datetime) :
  1 <= dt_year dt <= 9999 ->
  some_digits_of (if py_strftime_pads_year then pad4 (dt_year dt)
                  else str_of_Z (dt_year dt)) (dt_year dt) = true.
Proof.
  intros Hy. destruct py_strftime_pads_year.
  - apply digits_of_some, pad4_digits. lia.
  - apply str_of_Z_digits. lia.
Qed.





(** C9.  The two components of the resolver's answer are null together or
    present together, and when they are present the year is the year
    component of the date string. *)
Theorem parse_date_year_agrees (date_str : pyval) :
  ((parse_date date_str).1 = None <-> (parse_date date_str).2 = None) /\
  (forall (date : string) (year : Z),
      (parse_date date_str).1 = Some date ->
      (parse_date date_str).2 = Some year ->
      year_component date = Some year).
Proof.
  unfold parse_date. cbv zeta.
  destruct (negb (Py.truthy date_str) || pd_isna date_str).
  { split; [tauto | discriminate]. }
  set (text := strip (Py.str date_str)).
  destruct (try_formats text formats) as [[date' year']|] eqn:Ht;
    cbn [fst snd].
  - split; [split; discriminate|]. intros date year [= <-] [= <-].
    apply try_formats_some in Ht as (b & f & a & dt & _ & _ & Hp & -> & ->).
    apply strptime_valid in Hp as (Hy & _).
    rewrite strftime_ymd.
    apply year_component_prefix, year_string, Hy.
  - pose proof (search_spec text) as Hs.
    destruct (YearRegex.search text) as [tok|]; cbn [fst snd].
    + split; [split; discriminate|]. intros date year [= <-] [= <-].
      destruct Hs as (pre & post & _ & [Hshape%year_shape_range _] & _).
      apply (year_component_prefix _ "01-01").
      apply str_of_Z_digits. lia.
    + split; [tauto | discriminate].
Qed.

End DateShape.

(** ** Row mapper and upsert statement *)

Section Statement.
Context `{PyRuntime} `{Schema}.

Lemma mapM_id_cons (r : result sqlval) (rs : list (result sqlval))
      (vs : list sqlval) :
  mapM id (r :: rs) = Ret vs ->
  exists v vs', r = Ret v /\ mapM id rs = Ret vs' /\ vs = v :: vs'.
Proof.
  simpl. destruct r as [v|e]; simpl; [|discriminate].
  destruct (mapM id rs) as [vs'|e]; simpl; [|discriminate].
  intros [= <-]. eauto.
Qed.

Lemma mapM_id_length (rs : list (result sqlval)) (vs : list sqlval) :
  mapM id rs = Ret vs -> length vs = length rs.
Proof.
  revert vs. induction rs as [|r rs IH]; intros vs.
  - intros [= <-]. reflexivity.
  - intros (v & vs' & _ & Hrs & ->)%mapM_id_cons. simpl. f_equal. eauto.
Qed.

(** The mapper yields one value per column, the first being the key. *)
Lemma map_row_shape (row : gmap string pyval) (values : list sqlval) :
  map_row row = Ret values ->
  length values = length insert_columns /\
  exists app_id tail,
    values = SInt app_id :: tail /\
    safe_int (row_get row "AppID" VNone) 0 = Ret app_id.
Proof.
  unfold map_row. destruct (parse_date _) as [d y]. intros Hm. split.
  - apply mapM_id_length in Hm. exact Hm.
  - apply mapM_id_cons in Hm as (v & vs' & Hr & _ & ->).
    destruct (safe_int (row_get row "AppID" VNone) 0) as [k|e];
      simpl in Hr; [|discriminate].
    injection Hr as <-. eauto.
Qed.

Lemma values_row_full (values : list sqlval) :
  length values = length insert_columns ->
  has_update_columns (values_row values).
Proof.
  intros Hlen c Hc. unfold values_row.
  destruct (list_to_map (zip insert_columns values) !! c) eqn:Hl; [eauto|].
  exfalso. apply not_elem_of_list_to_map in Hl.
  rewrite fst_zip in Hl by lia. apply Hl.
  unfold update_columns in Hc. rewrite !elem_of_cons in Hc.
  destruct Hc as [-> | [-> | [-> | [-> | []%elem_of_nil]]]];
    apply (bool_decide_unpack _); vm_compute; exact I.
Qed.

Lemma row_outcome_ret (row : gmap string pyval) (app_id : Z)
      (new : gmap string sqlval) :
  row_outcome row = Ret (app_id, new) ->
  exists values tail,
    map_row row = Ret values /\ values = SInt app_id :: tail /\
    new = values_row values /\ has_update_columns new /\
    storage_rejects values = false /\
    forall db, execute_insert values db
               = Ret (with_games (upsert (games db) app_id new) db).
Proof.
  unfold row_outcome.
  destruct (map_row row) as [values|e] eqn:Hm; simpl; [|discriminate].
  destruct (map_row_shape _ _ Hm) as (Hlen & k & tail & -> & _).
  unfold execute_insert. rewrite Hlen, Nat.eqb_refl. simpl.
  destruct (storage_rejects (SInt k :: tail)) eqn:Hrej; simpl; [discriminate|].
  intros [= <- <-]. exists (SInt k :: tail), tail.
  split; [reflexivity|]. split; [reflexivity|]. split; [reflexivity|].
  split; [by apply values_row_full|]. split; [exact Hrej|].
  intros db. rewrite Hlen, Nat.eqb_refl, Hrej. reflexivity.
Qed.

Lemma row_outcome_raise (row : gmap string pyval) (e : exn) :
  row_outcome row = Raise e ->
  map_row row = Raise e \/
  exists values, map_row row = Ret values /\ storage_rejects values = true /\
                 e = DatabaseError /\
                 forall db, execute_insert values db = Raise DatabaseError.
Proof.
  unfold row_outcome.
  destruct (map_row row) as [values|e'] eqn:Hm; simpl;
    [|intros [= <-]; by left].
  destruct (map_row_shape _ _ Hm) as (Hlen & k & tail & -> & _).
  unfold execute_insert. rewrite Hlen, Nat.eqb_refl. simpl.
  destruct (storage_rejects (SInt k :: tail)) eqn:Hrej; simpl; [|discriminate].
  intros [= <-]. right. exists (SInt k :: tail).
  repeat split; try done.
  intros db. by rewrite Hlen, Nat.eqb_refl, Hrej.
Qed.

Lemma row_outcome_rejected (row : gmap string pyval) (values : list sqlval) :
  map_row row = Ret values -> storage_rejects values = true ->
  row_outcome row = Raise DatabaseError.
Proof.
  intros Hm Hrej. unfold row_outcome. rewrite Hm. simpl.
  destruct (map_row_shape _ _ Hm) as (Hlen & _).
  unfold execute_insert. rewrite Hlen, Nat.eqb_refl, Hrej. reflexivity.
Qed.

(** The [try] block in terms of the record's outcome. *)
Lemma try_row_outcome (batch_size : Z) (st : loader)
      (row : gmap string pyval) :
  try_row batch_size st row =
  match row_outcome row with
  | Raise e => (st, Some e)
  | Ret (app_id, new) =>
      let db := session (conn st) in
      let st :=
        {| conn := with_session
                     (with_games (upsert (games db) app_id new) db) (conn st);
           inserted := inserted st + 1;
           errors := errors st; stdout := stdout st |} in
      if batch_size =? 0 then (st, Some ZeroDivisionError)
      else if inserted st mod batch_size =? 0 then
        (print (PrintInsertedRows (inserted st))
           {| conn := commit (conn st); inserted := inserted st;
              errors := errors st; stdout := stdout st |}, None)
      else (st, None)
  end.
Proof.
  unfold try_row.
  destruct (row_outcome row) as [[k new]|e] eqn:Ho.
  - apply row_outcome_ret in Ho as (values & tail & -> & _ & -> & _ & _ & Hex).
    rewrite Hex. reflexivity.
  - apply row_outcome_raise in Ho as [-> | (values & -> & _ & -> & Hex)];
      [reflexivity|].
    rewrite Hex. reflexivity.
Qed.

End Statement.

(** ** Upsert semantics *)

Section Upsert.

Lemma with_games_games (db : database) : with_games (games db) db = db.
Proof. by destruct db. Qed.

Lemma with_games_twice (g g' : gmap Z (gmap string sqlval)) (db : database) :
  with_games g (with_games g' db) = with_games g db.
Proof. reflexivity. Qed.

Lemma update_lookup_in (cs : list string) (old new : gmap string sqlval)
      (c : string) :
  c ∈ cs ->
  foldr (fun c row => <[c := column c new]> row) old cs !! c
  = Some (column c new).
Proof.
  induction cs as [|c' cs IH]; [intros []%elem_of_nil|].
  intros Hc. simpl. destruct (decide (c' = c)) as [->|Hne].
  - apply lookup_insert_eq.
  - rewrite lookup_insert_ne by done. apply IH.
    apply elem_of_cons in Hc as [->|Hc]; [done | exact Hc].
Qed.

Lemma update_lookup_out (cs : list string) (old new : gmap string sqlval)
      (c : string) :
  c ∉ cs ->
  foldr (fun c row => <[c := column c new]> row) old cs !! c = old !! c.
Proof.
  induction cs as [|c' cs IH]; [reflexivity|].
  intros Hc. apply not_elem_of_cons in Hc as [Hne Hc]. simpl.
  rewrite lookup_insert_ne by done. by apply IH.
Qed.

Lemma odku_lookup (old new : gmap string sqlval) (c : string) :
  on_duplicate_key_update old new !! c
  = if decide (c ∈ update_columns) then Some (column c new) else old !! c.
Proof.
  unfold on_duplicate_key_update. case_decide.
  - by apply update_lookup_in.
  - by apply update_lookup_out.
Qed.

(** A later update overrides an earlier one. *)
Lemma odku_override (old n1 n2 : gmap string sqlval) :
  on_duplicate_key_update (on_duplicate_key_update old n1) n2
  = on_duplicate_key_update old n2.
Proof.
  apply map_eq. intros c. rewrite !odku_lookup. by case_decide.
Qed.

(** Updating a freshly inserted row with its own values changes nothing. *)
Lemma odku_self (new : gmap string sqlval) :
  has_update_columns new -> on_duplicate_key_update new new = new.
Proof.
  intros Hfull. apply map_eq. intros c. rewrite odku_lookup.
  case_decide as Hc; [|reflexivity].
  destruct (Hfull c Hc) as [v Hv]. unfold column. by rewrite Hv.
Qed.

Lemma upsert_lookup (g : gmap Z (gmap string sqlval)) (k k' : Z)
      (new : gmap string sqlval) :
  upsert g k new !! k'
  = if decide (k = k') then
      Some (match g !! k with
            | Some old => on_duplicate_key_update old new
            | None => new
            end)
    else g !! k'.
Proof.
  unfold upsert. destruct (g !! k) eqn:Hg; rewrite lookup_insert;
    by case_decide.
Qed.

(** The table after a list of statements, key by key: a key no statement
    names keeps its row; otherwise the row is the base row, which is the
    row stored before if there was one, updated with the last statement
    for the key. *)
Lemma upsert_all_lookup (stmts : list (Z * gmap string sqlval))
      (g : gmap Z (gmap string sqlval)) (k : Z) :
  Forall (fun kv => has_update_columns kv.2) stmts ->
  match last_write k stmts with
  | None => upsert_all g stmts !! k = g !! k
  | Some n =>
      exists base,
        upsert_all g stmts !! k = Some (on_duplicate_key_update base n) /\
        (forall old, g !! k = Some old -> base = old)
  end.
Proof.
  intros Hfull. revert g.
  induction Hfull as [|[k' n'] stmts Hn' _ IH]; intros g; simpl;
    [reflexivity|].
  specialize (IH (upsert g k' n')). simpl in Hn'.
  destruct (last_write k stmts) as [n|].
  - destruct IH as (base & Hl & Hbase). rewrite upsert_lookup in Hbase.
    destruct (decide (k' = k)) as [->|Hne].
    + destruct (g !! k) as [old|] eqn:Hg.
      * exists old. split; [|congruence].
        rewrite Hl, (Hbase _ eq_refl). by rewrite odku_override.
      * exists base. split; [exact Hl | discriminate].
    + exists base. split; [exact Hl | exact Hbase].
  - rewrite IH, upsert_lookup.
    destruct (decide (k' = k)) as [->|Hne]; [|reflexivity].
    destruct (g !! k) as [old|] eqn:Hg.
    + exists old. split; [reflexivity | congruence].
    + exists n'. split; [by rewrite odku_self | discriminate].
Qed.

(** No statement removes a row. *)
Lemma upsert_all_keeps (stmts : list (Z * gmap string sqlval))
      (g : gmap Z (gmap string sqlval)) (k : Z) :
  is_Some (g !! k) -> is_Some (upsert_all g stmts !! k).
Proof.
  revert g. induction stmts as [|[k' n'] stmts IH]; intros g Hk; simpl;
    [exact Hk|].
  apply IH. rewrite upsert_lookup. case_decide; [eauto | exact Hk].
Qed.

(** Replaying the statements on their own result changes nothing. *)
Lemma upsert_all_idempotent (stmts : list (Z * gmap string sqlval))
      (g : gmap Z (gmap string sqlval)) :
  Forall (fun kv => has_update_columns kv.2) stmts ->
  upsert_all (upsert_all g stmts) stmts = upsert_all g stmts.
Proof.
  intros Hfull. apply map_eq. intros k.
  pose proof (upsert_all_lookup stmts g k Hfull) as H1.
  pose proof (upsert_all_lookup stmts (upsert_all g stmts) k Hfull) as H2.
  destruct (last_write k stmts) as [n|]; [|exact H2].
  destruct H1 as (base & Hl & _). destruct H2 as (base' & Hl' & Hbase').
  rewrite Hl', Hl, (Hbase' _ Hl). by rewrite odku_override.
Qed.

End Upsert.

(** ** Bulk upsert loader *)

Section Loader.
Context `{PyRuntime} `{Schema}.

Lemma accepted_cons (row : gmap string pyval)
      (df : list (gmap string pyval)) :
  accepted (row :: df)
  = match row_outcome row with
    | Ret kv => kv :: accepted df
    | Raise _ => accepted df
    end.
Proof. unfold accepted. simpl. by destruct (row_outcome row). Qed.

Lemma accepted_full (df : list (gmap string pyval)) :
  Forall (fun kv => has_update_columns kv.2) (accepted df).
Proof.
  induction df as [|row df IH]; [constructor|].
  rewrite accepted_cons.
  destruct (row_outcome row) as [[k new]|e] eqn:Ho; [|exact IH].
  constructor; [|exact IH].
  by apply row_outcome_ret in Ho as (? & ? & _ & _ & _ & Hfull & _).
Qed.

Lemma accepted_app (df1 df2 : list (gmap string pyval)) :
  accepted (df1 ++ df2) = accepted df1 ++ accepted df2.
Proof. unfold accepted. apply omap_app. Qed.

Lemma accepted_all_ok (df : list (gmap string pyval)) :
  Forall (fun row => row_ok row = true) df ->
  length (accepted df) = length df.
Proof.
  induction 1 as [|row df Hok _ IH]; [reflexivity|].
  rewrite accepted_cons. unfold row_ok in Hok.
  destruct (row_outcome row); [|discriminate]. simpl. by rewrite IH.
Qed.

(** What one iteration does to the stored state, for any batch size. *)
Lemma load_row_session (batch_size : Z) (st : loader) (idx : nat)
      (row : gmap string pyval) :
  session (conn (load_row batch_size st idx row))
  = match row_outcome row with
    | Ret (k, new) =>
        with_games (upsert (games (session (conn st))) k new)
          (session (conn st))
    | Raise _ => session (conn st)
    end.
Proof.
  unfold load_row. rewrite try_row_outcome.
  destruct (row_outcome row) as [[k new]|e]; cbv zeta.
  - repeat case_match; simplify_eq; reflexivity.
  - simpl. case_match; reflexivity.
Qed.

Lemma load_rows_session (batch_size : Z) (df : list (gmap string pyval))
      (st : loader) (idx : nat) :
  session (conn (load_rows batch_size st idx df))
  = with_games (upsert_all (games (session (conn st))) (accepted df))
      (session (conn st)).
Proof.
  revert st idx. induction df as [|row df IH]; intros st idx;
    cbn [load_rows].
  - unfold accepted, upsert_all. simpl. by rewrite with_games_games.
  - rewrite IH, load_row_session, accepted_cons.
    destruct (row_outcome row) as [[k new]|e]; reflexivity.
Qed.

Lemma load_games_session (c : connection) (df : list (gmap string pyval))
      (batch_size : Z) :
  session (conn (load_games c df batch_size))
  = with_games (upsert_all (games (session c)) (accepted df)) (session c)
  /\ committed (conn (load_games c df batch_size))
     = session (conn (load_games c df batch_size)).
Proof.
  unfold load_games. cbv zeta. simpl. split; [|reflexivity].
  by rewrite load_rows_session.
Qed.

(** One iteration with a batch size other than zero. *)
Lemma load_row_step (batch_size : Z) (st : loader) (idx : nat)
      (row : gmap string pyval) :
  batch_size <> 0 ->
  load_row batch_size st idx row =
  match row_outcome row with
  | Raise e =>
      let st' := {| conn := conn st; inserted := inserted st;
                    errors := errors st + 1; stdout := stdout st |} in
      if errors st + 1 <=? 5 then print (PrintErrorRow idx e) st' else st'
  | Ret (k, new) =>
      let db := session (conn st) in
      let c := with_session (with_games (upsert (games db) k new) db)
                 (conn st) in
      if (inserted st + 1) mod batch_size =? 0 then
        {| conn := commit c; inserted := inserted st + 1;
           errors := errors st;
           stdout := stdout st ++ [PrintInsertedRows (inserted st + 1)] |}
      else
        {| conn := c; inserted := inserted st + 1;
           errors := errors st; stdout := stdout st |}
  end.
Proof.
  intros Hb. unfold load_row. rewrite try_row_outcome.
  destruct (row_outcome row) as [[k new]|e]; cbv zeta; [|reflexivity].
  apply Z.eqb_neq in Hb. rewrite Hb. simpl.
  destruct ((inserted st + 1) mod batch_size =? 0); reflexivity.
Qed.

Lemma error_lines_app (a b : list line) :
  error_lines (a ++ b) = error_lines a ++ error_lines b.
Proof. apply List.filter_app. Qed.

(** The counters and the error lines after the loop. *)
Lemma load_rows_counters (batch_size : Z) (df : list (gmap string pyval))
      (st : loader) (idx : nat) :
  batch_size <> 0 -> 0 <= errors st ->
  let st' := load_rows batch_size st idx df in
  inserted st' = inserted st + Z.of_nat (length (accepted df)) /\
  errors st' = errors st + Z.of_nat (length (failure_lines idx df)) /\
  error_lines (stdout st')
  = error_lines (stdout st)
    ++ take (Z.to_nat (5 - errors st)) (failure_lines idx df).
Proof.
  intros Hb. revert st idx.
  induction df as [|row df IH]; intros st idx He;
    cbn [load_rows failure_lines].
  - unfold accepted. simpl. rewrite take_nil, app_nil_r.
    split; [lia | split; [lia | reflexivity]].
  - specialize (IH (load_row batch_size st idx row) (S idx)).
    rewrite load_row_step in * by exact Hb.
    rewrite accepted_cons.
    destruct (row_outcome row) as [[k new]|e]; cbv zeta in *.
    + destruct ((inserted st + 1) mod batch_size =? 0); simpl in *;
        destruct (IH He) as (Hi & Hr & Hl); rewrite ?error_lines_app in Hl;
        simpl in Hl; rewrite ?app_nil_r in Hl;
        (split; [lia | split; [lia | exact Hl]]).
    + destruct (errors st + 1 <=? 5) eqn:H5; simpl in *.
      * destruct IH as (Hi & Hr & Hl); [lia|]. rewrite error_lines_app in Hl.
        simpl in Hl. split; [lia | split; [lia|]].
        rewrite Hl, <- app_assoc. f_equal. simpl.
        replace (Z.to_nat (5 - errors st))
          with (S (Z.to_nat (5 - (errors st + 1)))) by lia.
        reflexivity.
      * destruct IH as (Hi & Hr & Hl); [lia|].
        split; [lia | split; [lia|]].
        rewrite Hl. replace (Z.to_nat (5 - errors st)) with 0%nat by lia.
        replace (Z.to_nat (5 - (errors st + 1))) with 0%nat by lia.
        reflexivity.
Qed.

(** The connection and the success counter depend on the accepted records
    only: the failing ones leave both alone. *)
Lemma load_rows_skips_failures (batch_size : Z)
      (df : list (gmap string pyval)) (st st' : loader) (idx idx' : nat) :
  batch_size <> 0 ->
  conn st = conn st' -> inserted st = inserted st' ->
  conn (load_rows batch_size st idx df)
  = conn (load_rows batch_size st' idx' (List.filter row_ok df))
  /\ inserted (load_rows batch_size st idx df)
     = inserted (load_rows batch_size st' idx' (List.filter row_ok df)).
Proof.
  intros Hb. revert st st' idx idx'.
  induction df as [|row df IH]; intros st st' idx idx' Hc Hi;
    cbn [load_rows List.filter]; [done|].
  destruct (row_ok row) eqn:Hok; unfold row_ok in Hok;
    destruct (row_outcome row) as [[k new]|e] eqn:Ho; try discriminate;
    cbn [load_rows].
  - apply IH; rewrite !load_row_step by exact Hb; rewrite Ho; cbv zeta;
      rewrite Hc, Hi; case_match; reflexivity.
  - apply IH; rewrite load_row_step by exact Hb; rewrite Ho; cbv zeta;
      [rewrite <- Hc | rewrite <- Hi]; case_match; reflexivity.
Qed.

Lemma filter_row_ok_all (df : list (gmap string pyval)) :
  Forall (fun row => row_ok row = true) df -> List.filter row_ok df = df.
Proof.
  induction 1 as [|row df Hok _ IH]; simpl; [reflexivity|].
  by rewrite Hok, IH.
Qed.

Lemma failure_lines_all_ok (df : list (gmap string pyval)) (idx : nat) :
  Forall (fun row => row_ok row = true) df -> failure_lines idx df = [].
Proof.
  intros Hok. revert idx. induction Hok as [|row df Hrow _ IH]; intros idx;
    simpl; [reflexivity|].
  unfold row_ok in Hrow. destruct (row_outcome row); [apply IH | discriminate].
Qed.

Lemma failure_lines_app (df1 df2 : list (gmap string pyval)) (idx : nat) :
  failure_lines idx (df1 ++ df2)
  = failure_lines idx df1 ++ failure_lines (idx + length df1) df2.
Proof.
  revert idx. induction df1 as [|row df1 IH]; intros idx; simpl.
  - by rewrite Nat.add_0_r.
  - rewrite IH. replace (S idx + length df1)%nat
      with (idx + S (length df1))%nat by lia.
    by destruct (row_outcome row).
Qed.

Lemma load_games_conn_filter (c : connection) (df : list (gmap string pyval))
      (batch_size : Z) :
  batch_size <> 0 ->
  conn (load_games c df batch_size)
  = conn (load_games c (List.filter row_ok df) batch_size).
Proof.
  intros Hb. unfold load_games. cbv zeta. cbn [conn print].
  match goal with
  | |- commit (conn (load_rows _ ?s _ _))
       = commit (conn (load_rows _ ?s' _ _)) =>
      destruct (load_rows_skips_failures batch_size df s s' 0 0 Hb
                  eq_refl eq_refl) as [-> _]
  end.
  reflexivity.
Qed.

End Loader.

Section LoaderProperties.
Context `{PyRuntime} `{Schema}.

Lemma insert_columns_NoDup : NoDup insert_columns.
Proof. apply (bool_decide_unpack _). vm_compute. exact I. Qed.

(** The stored row holds each value of the tuple under its column. *)
Lemma values_row_lookup (values : list sqlval) (i : nat) (c : string) :
  length values = length insert_columns ->
  insert_columns !! i = Some c ->
  values_row values !! c = values !! i.
Proof.
  intros Hlen Hc. unfold values_row.
  destruct (values !! i) as [x|] eqn:Hx.
  - apply elem_of_list_to_map_1.
    + rewrite fst_zip by lia. apply insert_columns_NoDup.
    + apply list_elem_of_lookup_2 with i. by apply lookup_zip_Some.
  - apply lookup_ge_None in Hx. apply lookup_lt_Some in Hc. lia.
Qed.

Lemma row_outcome_accepts (row : gmap string pyval) (values : list sqlval)
      (app_id : Z) :
  map_row row = Ret values -> storage_rejects values = false ->
  values !! 0%nat = Some (SInt app_id) ->
  row_outcome row = Ret (app_id, values_row values).
Proof.
  intros Hm Hrej Hk. unfold row_outcome. rewrite Hm. simpl.
  destruct (map_row_shape _ _ Hm) as (Hlen & k & tail & -> & _).
  injection Hk as ->.
  unfold execute_insert. rewrite Hlen, Nat.eqb_refl, Hrej. reflexivity.
Qed.

(** C4.  A record whose key [app_id] already has a row in [games] is
    ingested again: the stored row takes the values of the record for
    [name], [price], [positive_reviews] and [negative_reviews], keeps the
    value it had for every other column, the release date among them, and
    no other row of the table changes. *)
Theorem reingest_updates_mutable_fields_only (batch_size : Z) (st : loader)
      (idx : nat) (row : gmap string pyval) (values : list sqlval)
      (app_id : Z) (old : gmap string sqlval) :
  map_row row = Ret values ->
  storage_rejects values = false ->
  values !! 0%nat = Some (SInt app_id) ->
  games (session (conn st)) !! app_id = Some old ->
  let after := games (session (conn (load_row batch_size st idx row))) in
  exists stored,
    after !! app_id = Some stored /\
    stored !! "name" = values !! 1%nat /\
    stored !! "price" = values !! 7%nat /\
    stored !! "positive_reviews" = values !! 24%nat /\
    stored !! "negative_reviews" = values !! 25%nat /\
    (forall c, c ∉ update_columns -> stored !! c = old !! c) /\
    stored !! "release_date" = old !! "release_date" /\
    (forall k, k <> app_id -> after !! k = games (session (conn st)) !! k).
Proof.
  intros Hm Hrej Hk Hold after.
  pose proof (row_outcome_accepts _ _ _ Hm Hrej Hk) as Ho.
  destruct (map_row_shape _ _ Hm) as (Hlen & _).
  pose proof (values_row_full _ Hlen) as Hfull.
  assert (Hnew : forall c i, c ∈ update_columns ->
             insert_columns !! i = Some c ->
             on_duplicate_key_update old (values_row values) !! c
             = values !! i).
  { intros c i Hc Hi. rewrite odku_lookup, decide_True by exact Hc.
    destruct (Hfull c Hc) as [v Hv]. unfold column. rewrite Hv.
    by rewrite <- (values_row_lookup values i c Hlen Hi). }
  assert (Hout : forall c, c ∉ update_columns ->
             on_duplicate_key_update old (values_row values) !! c = old !! c).
  { intros c Hc. by rewrite odku_lookup, decide_False. }
  subst after. rewrite load_row_session, Ho. simpl.
  exists (on_duplicate_key_update old (values_row values)).
  split; [by rewrite upsert_lookup, decide_True, Hold|].
  repeat split.
  - apply Hnew; [|reflexivity]. by apply (bool_decide_unpack _).
  - apply Hnew; [|reflexivity]. by apply (bool_decide_unpack _).
  - apply Hnew; [|reflexivity]. by apply (bool_decide_unpack _).
  - apply Hnew; [|reflexivity]. by apply (bool_decide_unpack _).
  - exact Hout.
  - apply Hout. by apply (bool_decide_unpack _).
  - intros k Hne. by rewrite upsert_lookup, decide_False.
Qed.

(** C5.  A second run of the loader over the same frame leaves the stored
    state exactly as the first run left it, in particular the number of
    rows of [games] and the values of the four updated columns; and a run
    deletes no row. *)
Theorem load_games_twice_same_state (c : connection)
      (df : list (gmap string pyval)) (batch_size batch_size' : Z) :
  let once := conn (load_games c df batch_size) in
  let twice := conn (load_games once df batch_size') in
  session twice = session once /\
  committed twice = committed once /\
  size (games (session twice)) = size (games (session once)) /\
  (forall k c', c' ∈ update_columns ->
     (games (session twice) !! k) ≫= (fun r => r !! c')
     = (games (session once) !! k) ≫= (fun r => r !! c')) /\
  (forall k, is_Some (games (session c) !! k) ->
             is_Some (games (session once) !! k)) /\
  (forall k, is_Some (games (session once) !! k) ->
             is_Some (games (session twice) !! k)).
Proof.
  intros once twice.
  destruct (load_games_session c df batch_size) as [Hs1 Hc1].
  destruct (load_games_session once df batch_size') as [Hs2 Hc2].
  fold once in Hs1, Hc1. fold twice in Hs2, Hc2.
  assert (Heq : session twice = session once).
  { rewrite Hs2, Hs1. simpl.
    by rewrite upsert_all_idempotent by apply accepted_full. }
  split; [exact Heq|]. split; [congruence|].
  rewrite Heq. split; [reflexivity|]. split; [reflexivity|].
  split; [|tauto].
  intros k Hk. rewrite Hs1. simpl. by apply upsert_all_keeps.
Qed.

(** Last writer wins: after a run, a key named by an accepted record holds
    the values of the last such record in the updated columns. *)
Lemma load_games_last_writer_wins (c : connection)
      (df : list (gmap string pyval)) (batch_size k : Z)
      (new : gmap string sqlval) :
  last_write k (accepted df) = Some new ->
  exists stored : gmap string sqlval,
    games (session (conn (load_games c df batch_size))) !! k = Some stored /\
    forall col, col ∈ update_columns -> stored !! col = new !! col.
Proof.
  intros Hlast.
  destruct (load_games_session c df batch_size) as [-> _]. simpl.
  pose proof (upsert_all_lookup (accepted df) (games (session c)) k
                (accepted_full df)) as Hl.
  rewrite Hlast in Hl. destruct Hl as (base & Hl & _).
  exists (on_duplicate_key_update base new). split; [exact Hl|].
  intros col Hcol. rewrite odku_lookup, decide_True by exact Hcol.
  assert (Hfull : has_update_columns new).
  { pose proof (accepted_full df) as Hall. clear Hl.
    induction (accepted df) as [|[k' n'] l IH]; [discriminate|].
    apply Forall_cons in Hall as [Hn' Hall]. simpl in Hlast.
    destruct (last_write k l) as [n|] eqn:Hk.
    - injection Hlast as ->. by apply IH.
    - case_decide; [|discriminate]. by injection Hlast as <-. }
  destruct (Hfull col Hcol) as [v Hv]. unfold column. by rewrite Hv.
Qed.

Lemma div_step (i b : Z) :
  0 < b -> 0 <= i ->
  (i + 1) / b = i / b + (if (i + 1) mod b =? 0 then 1 else 0).
Proof.
  intros Hb Hi.
  pose proof (Z.div_mod (i + 1) b ltac:(lia)) as E1.
  pose proof (Z.div_mod i b ltac:(lia)) as E2.
  pose proof (Z.mod_pos_bound (i + 1) b Hb).
  pose proof (Z.mod_pos_bound i b Hb).
  destruct ((i + 1) mod b =? 0) eqn:Hm.
  - apply Z.eqb_eq in Hm. nia.
  - apply Z.eqb_neq in Hm. nia.
Qed.



Lemma accepted_failures_length (df : list (gmap string pyval)) (idx : nat) :
  (length (accepted df) + length (failure_lines idx df) = length df)%nat.
Proof.
  revert idx. induction df as [|row df IH]; intros idx; [reflexivity|].
  rewrite accepted_cons. cbn [failure_lines].
  destruct (row_outcome row); simpl; rewrite <- (IH (S idx)); lia.
Qed.

End LoaderProperties.

(** ** Relationship normalizer *)

Section Normalizer.

Lemma tokens_empty : tokens EmptyString = [].
Proof. reflexivity. Qed.

Lemma insert_ignore_label_names (table : list (Z * string)) (label l : string) :
  l ∈ (insert_ignore_label table label).*2 <-> l ∈ table.*2 \/ l = label.
Proof.
  unfold insert_ignore_label. case_decide as Hin.
  - split; [auto | intros [?| ->]; assumption].
  - rewrite fmap_app, elem_of_app. simpl. rewrite list_elem_of_singleton.
    reflexivity.
Qed.

Lemma insert_ignore_label_present (table : list (Z * string)) (label : string) :
  label ∈ table.*2 -> insert_ignore_label table label = table.
Proof. intros Hin. unfold insert_ignore_label. by rewrite decide_True. Qed.

Lemma insert_ignore_label_NoDup (table : list (Z * string)) (label : string) :
  NoDup table.*2 -> NoDup (insert_ignore_label table label).*2.
Proof.
  intros Hnd. unfold insert_ignore_label. case_decide as Hin; [exact Hnd|].
  rewrite fmap_app. simpl. apply NoDup_app. split; [exact Hnd|].
  split; [|apply NoDup_singleton].
  intros x Hx ->%list_elem_of_singleton. contradiction.
Qed.

Lemma insert_labels_names (labels : list string) (table : list (Z * string))
      (l : string) :
  l ∈ (foldl insert_ignore_label table labels).*2
  <-> l ∈ table.*2 \/ l ∈ labels.
Proof.
  revert table. induction labels as [|x labels IH]; intros table; simpl.
  - rewrite elem_of_nil. tauto.
  - rewrite IH, insert_ignore_label_names, elem_of_cons. tauto.
Qed.

Lemma insert_labels_present (labels : list string) (table : list (Z * string)) :
  (forall l, l ∈ labels -> l ∈ table.*2) ->
  foldl insert_ignore_label table labels = table.
Proof.
  induction labels as [|x labels IH]; intros Hall; simpl; [reflexivity|].
  rewrite insert_ignore_label_present by (apply Hall; left).
  apply IH. intros l Hl. apply Hall. by right.
Qed.

Lemma insert_labels_NoDup (labels : list string) (table : list (Z * string)) :
  NoDup table.*2 -> NoDup (foldl insert_ignore_label table labels).*2.
Proof.
  revert table. induction labels as [|x labels IH]; intros table Hnd; simpl;
    [exact Hnd|].
  by apply IH, insert_ignore_label_NoDup.
Qed.

Lemma insert_ignore_pair_elem (junction : list (Z * Z)) (pair q : Z * Z) :
  q ∈ insert_ignore_pair junction pair <-> q ∈ junction \/ q = pair.
Proof.
  unfold insert_ignore_pair. case_decide as Hin.
  - split; [auto | intros [?| ->]; assumption].
  - rewrite elem_of_app, list_elem_of_singleton. reflexivity.
Qed.

Lemma insert_ignore_pair_NoDup (junction : list (Z * Z)) (pair : Z * Z) :
  NoDup junction -> NoDup (insert_ignore_pair junction pair).
Proof.
  intros Hnd. unfold insert_ignore_pair. case_decide as Hin; [exact Hnd|].
  apply NoDup_app. split; [exact Hnd|]. split; [|apply NoDup_singleton].
  intros x Hx ->%list_elem_of_singleton. contradiction.
Qed.

Lemma insert_links_elem (table : list (Z * string)) (app_id : Z)
      (junction : list (Z * Z)) (label : string) (q : Z * Z) :
  q ∈ insert_links table app_id junction label
  <-> q ∈ junction \/ (q.1 = app_id /\ (q.2, label) ∈ table).
Proof.
  unfold insert_links. revert junction.
  induction table as [|[id name] table IH]; intros junction; simpl.
  - rewrite elem_of_nil. tauto.
  - rewrite IH, elem_of_cons. case_decide as Hn.
    + rewrite insert_ignore_pair_elem. subst name. destruct q as [a b].
      simpl. split.
      * intros [[?|[= -> ->]]|[? ?]]; auto.
      * intros [?|[-> [[= ->]|?]]]; auto.
    + destruct q as [a b]. simpl. split; [tauto|].
      intros [?|[-> [[= -> ->]|?]]]; tauto.
Qed.

Lemma insert_links_NoDup (table : list (Z * string)) (app_id : Z)
      (junction : list (Z * Z)) (label : string) :
  NoDup junction -> NoDup (insert_links table app_id junction label).
Proof.
  unfold insert_links. revert junction.
  induction table as [|[id name] table IH]; intros junction Hnd; simpl;
    [exact Hnd|].
  apply IH. case_decide; [by apply insert_ignore_pair_NoDup | exact Hnd].
Qed.

Lemma insert_links_present (table : list (Z * string)) (app_id : Z)
      (junction : list (Z * Z)) (label : string) :
  (forall id, (id, label) ∈ table -> (app_id, id) ∈ junction) ->
  insert_links table app_id junction label = junction.
Proof.
  unfold insert_links.
  induction table as [|[id name] table IH]; intros Hall; simpl; [reflexivity|].
  case_decide as Hn.
  - subst name. unfold insert_ignore_pair.
    rewrite decide_True by (apply Hall; left).
    apply IH. intros id' Hid'. apply Hall. by right.
  - apply IH. intros id' Hid'. apply Hall. by right.
Qed.

Lemma link_tokens_elem (table : list (Z * string)) (app_id : Z)
      (labels : list string) (junction : list (Z * Z)) (q : Z * Z) :
  q ∈ foldl (insert_links table app_id) junction labels
  <-> q ∈ junction
      \/ (q.1 = app_id
          /\ exists label, label ∈ labels /\ (q.2, label) ∈ table).
Proof.
  revert junction. induction labels as [|l labels IH]; intros junction; simpl.
  - split; [auto|]. intros [?|(_ & l & []%elem_of_nil & _)]. assumption.
  - rewrite IH, insert_links_elem. split.
    + intros [[?|[? ?]]|(? & l' & ? & ?)]; auto.
      * right. split; [done|]. exists l. split; [left|done].
      * right. split; [done|]. exists l'. split; [by right|done].
    + intros [?|(? & l' & [->|?]%elem_of_cons & ?)]; auto.
      right. split; [done|]. by exists l'.
Qed.

Lemma link_tokens_NoDup (table : list (Z * string)) (app_id : Z)
      (labels : list string) (junction : list (Z * Z)) :
  NoDup junction -> NoDup (foldl (insert_links table app_id) junction labels).
Proof.
  revert junction. induction labels as [|l labels IH]; intros junction Hnd;
    simpl; [exact Hnd|].
  by apply IH, insert_links_NoDup.
Qed.

Lemma link_tokens_present (table : list (Z * string)) (app_id : Z)
      (labels : list string) (junction : list (Z * Z)) :
  (forall label id, label ∈ labels -> (id, label) ∈ table ->
                    (app_id, id) ∈ junction) ->
  foldl (insert_links table app_id) junction labels = junction.
Proof.
  induction labels as [|l labels IH]; intros Hall; simpl; [reflexivity|].
  rewrite insert_links_present.
  - apply IH. intros label id Hl. apply Hall. by right.
  - intros id. apply Hall. left.
Qed.

Lemma link_rows_elem (table : list (Z * string)) (rows : list (Z * string))
      (junction : list (Z * Z)) (q : Z * Z) :
  q ∈ link_rows table rows junction
  <-> q ∈ junction
      \/ exists s label, (q.1, s) ∈ rows /\ label ∈ tokens s
                         /\ (q.2, label) ∈ table.
Proof.
  unfold link_rows. revert junction.
  induction rows as [|[a s] rows IH]; intros junction; simpl.
  - split; [auto|]. intros [?|(s & l & []%elem_of_nil & _)]. assumption.
  - rewrite IH. case_decide as Hs; simpl in Hs.
    + subst s. split.
      * intros [?|(s & l & ? & ? & ?)]; auto.
        right. exists s, l. split; [by right|done].
      * intros [?|(s & l & [Heq|?]%elem_of_cons & Hl & ?)]; auto.
        -- injection Heq as _ ->. rewrite tokens_empty in Hl.
           by apply elem_of_nil in Hl.
        -- right. by exists s, l.
    + rewrite link_tokens_elem. split.
      * intros [[?|(<- & l & ? & ?)]|(s' & l & ? & ? & ?)]; auto.
        -- right. exists s, l. split; [left|done].
        -- right. exists s', l. split; [by right|done].
      * intros [?|(s' & l & [Heq|?]%elem_of_cons & Hl & ?)]; auto.
        -- injection Heq as Ha ->. left. right. split; [done|]. by exists l.
        -- right. by exists s', l.
Qed.

Lemma link_rows_NoDup (table : list (Z * string)) (rows : list (Z * string))
      (junction : list (Z * Z)) :
  NoDup junction -> NoDup (link_rows table rows junction).
Proof.
  unfold link_rows. revert junction.
  induction rows as [|[a s] rows IH]; intros junction Hnd; simpl;
    [exact Hnd|].
  apply IH. case_decide; [exact Hnd | by apply link_tokens_NoDup].
Qed.

Lemma link_rows_linked (table : list (Z * string)) (rows : list (Z * string))
      (junction : list (Z * Z)) :
  linked table rows (link_rows table rows junction).
Proof.
  intros a s l id Hrow Hl Hid. apply link_rows_elem. right.
  by exists s, l.
Qed.

(** Linking again what is linked changes nothing. *)
Lemma link_rows_present (table : list (Z * string)) (rows : list (Z * string))
      (junction : list (Z * Z)) :
  linked table rows junction -> link_rows table rows junction = junction.
Proof.
  unfold link_rows.
  induction rows as [|[a s] rows IH]; intros Hall; simpl; [reflexivity|].
  case_decide as Hs; simpl in Hs.
  - apply IH. intros a' s' l id Hrow. apply Hall. by right.
  - rewrite link_tokens_present.
    + apply IH. intros a' s' l id Hrow. apply Hall. by right.
    + intros l id Hl Hid. apply (Hall a s l id); [left|done..].
Qed.

End Normalizer.

Section NormalizerRun.

Lemma collect_labels_from (rows : list string) (acc : gset string)
      (label : string) :
  label ∈ foldl (fun all s =>
                   if decide (s = EmptyString) then all
                   else foldl (fun all l => all ∪ {[l]}) all (tokens s))
                acc rows
  <-> label ∈ acc \/ exists s, s ∈ rows /\ label ∈ tokens s.
Proof.
  assert (Hin : forall (ls : list string) (a : gset string),
             label ∈ foldl (fun all l => all ∪ {[l]}) a ls
             <-> label ∈ a \/ label ∈ ls).
  { induction ls as [|l ls IH]; intros a; simpl.
    - rewrite elem_of_nil. tauto.
    - rewrite IH, elem_of_union, elem_of_singleton, elem_of_cons. tauto. }
  revert acc. induction rows as [|s rows IH]; intros acc; simpl.
  - split; [auto|]. intros [?|(s & []%elem_of_nil & _)]. assumption.
  - rewrite IH. case_decide as Hs.
    + subst s. split.
      * intros [?|(s & ? & ?)]; auto. right. exists s. split; [by right|done].
      * intros [?|(s & [->|?]%elem_of_cons & Hl)]; auto.
        -- rewrite tokens_empty in Hl. by apply elem_of_nil in Hl.
        -- right. by exists s.
    + rewrite Hin. split.
      * intros [[?|?]|(s' & ? & ?)]; auto.
        -- right. exists s. split; [left|done].
        -- right. exists s'. split; [by right|done].
      * intros [?|(s' & [->|?]%elem_of_cons & Hl)]; auto.
        right. by exists s'.
Qed.

Lemma elem_of_collect_labels (rows : list string) (label : string) :
  label ∈ collect_labels rows <-> exists s, s ∈ rows /\ label ∈ tokens s.
Proof.
  unfold collect_labels. rewrite collect_labels_from, elem_of_empty. tauto.
Qed.

Lemma elem_of_select_distinct (c : string) (db : database) (s : string) :
  s ∈ select_distinct c db
  <-> s <> EmptyString
      /\ exists k row, games db !! k = Some row /\ column c row = SStr s.
Proof.
  unfold select_distinct. rewrite elem_of_remove_dups, list_elem_of_omap.
  split.
  - intros ([k row] & Hin%elem_of_map_to_list & Hc). simpl in Hc.
    destruct (column c row) eqn:Hcol; try discriminate.
    case_decide; [discriminate|]. injection Hc as ->. eauto.
  - intros (Hne & k & row & Hk & Hcol). exists (k, row).
    split; [by apply elem_of_map_to_list|]. simpl. rewrite Hcol.
    by rewrite decide_False.
Qed.

Lemma elem_of_select_keyed (c : string) (db : database) (k : Z) (s : string) :
  (k, s) ∈ select_keyed c db
  <-> exists row, games db !! k = Some row /\ column c row = SStr s.
Proof.
  unfold select_keyed. rewrite list_elem_of_omap. split.
  - intros ([k' row] & Hin%elem_of_map_to_list & Hc). simpl in Hc.
    destruct (column c row) eqn:Hcol; try discriminate.
    injection Hc as -> ->. eauto.
  - intros (row & Hk & Hcol). exists (k, row).
    split; [by apply elem_of_map_to_list|]. simpl. by rewrite Hcol.
Qed.

(** The labels of a stored list are all in the vocabulary collected. *)
Lemma tokens_collected (c : string) (db : database) (k : Z)
      (row : gmap string sqlval) (s label : string) :
  games db !! k = Some row -> column c row = SStr s -> label ∈ tokens s ->
  label ∈ elements (collect_labels (select_distinct c db)).
Proof.
  intros Hk Hcol Hl. apply elem_of_elements, elem_of_collect_labels.
  exists s. split; [|exact Hl]. apply elem_of_select_distinct.
  split; [|eauto]. intros ->. rewrite tokens_empty in Hl.
  by apply elem_of_nil in Hl.
Qed.

Lemma filter_none {A} (P : A -> Prop) `{forall x, Decision (P x)}
      (l : list A) :
  (forall y, y ∈ l -> ~ P y) -> filter P l = [].
Proof.
  induction l as [|y l IH]; intros Hn; [reflexivity|].
  rewrite filter_cons_False by (apply Hn; left).
  apply IH. intros z Hz. apply Hn. by right.
Qed.

Lemma filter_unique {A} (P : A -> Prop) `{forall x, Decision (P x)}
      (l : list A) (x : A) :
  NoDup l -> x ∈ l -> (forall y, y ∈ l -> P y <-> y = x) ->
  length (filter P l) = 1%nat.
Proof.
  induction l as [|y l IH]; intros Hnd Hx HP; [by apply elem_of_nil in Hx|].
  apply NoDup_cons in Hnd as [Hy Hnd].
  destruct (decide (P y)) as [Py|nPy].
  - assert (y = x) as -> by (apply HP; [left | exact Py]).
    rewrite filter_cons_True by exact Py. simpl. f_equal.
    rewrite filter_none; [reflexivity|].
    intros z Hz Pz. apply HP in Pz; [|by right]. by subst z.
  - rewrite filter_cons_False by exact nPy.
    apply IH; [exact Hnd | |].
    + apply elem_of_cons in Hx as [->|Hx]; [|exact Hx].
      exfalso. apply nPy. apply HP; [left | reflexivity].
    + intros z Hz. apply HP. by right.
Qed.

Lemma NoDup_snd_inj (l : list (Z * string)) (r r' : Z * string) :
  NoDup l.*2 -> r ∈ l -> r' ∈ l -> r.2 = r'.2 -> r = r'.
Proof.
  induction l as [|x l IH]; intros Hnd Hr Hr' Heq;
    [by apply elem_of_nil in Hr|].
  simpl in Hnd. apply NoDup_cons in Hnd as [Hx Hnd].
  apply elem_of_cons in Hr as [->|Hr]; apply elem_of_cons in Hr' as [->|Hr'].
  - reflexivity.
  - exfalso. apply Hx. rewrite Heq. by apply list_elem_of_fmap_2.
  - exfalso. apply Hx. rewrite <- Heq. by apply list_elem_of_fmap_2.
  - by apply IH.
Qed.

Lemma NoDup_snd (l : list (Z * string)) : NoDup l.*2 -> NoDup l.
Proof. apply NoDup_fmap_1. Qed.

(** With unique labels a label that occurs has exactly one row. *)
Lemma lookup_rows_one (table : list (Z * string)) (label : string) :
  NoDup table.*2 -> label ∈ table.*2 ->
  length (lookup_rows label table) = 1%nat.
Proof.
  intros Hnd Hl. apply list_elem_of_fmap in Hl as ([id name] & -> & Hin).
  simpl. unfold lookup_rows.
  apply (filter_unique _ _ (id, name)); [by apply NoDup_snd | exact Hin |].
  intros r Hr. split; [|by intros ->].
  intros Hname. by apply (NoDup_snd_inj table).
Qed.

(** With unique labels and unique pairs a product linked to a label has
    exactly one junction row for it. *)
Lemma junction_rows_one (table : list (Z * string)) (junction : list (Z * Z))
      (app_id id : Z) (label : string) :
  NoDup table.*2 -> NoDup junction ->
  (id, label) ∈ table -> (app_id, id) ∈ junction ->
  length (junction_rows app_id label table junction) = 1%nat.
Proof.
  intros Hnd Hj Hid Hpair. unfold junction_rows.
  apply (filter_unique _ _ (app_id, id)); [exact Hj | exact Hpair |].
  intros [a b] _. simpl. split.
  - intros [-> Hb]. f_equal.
    by injection
         (NoDup_snd_inj table (b, label) (id, label) Hnd Hb Hid eq_refl).
  - by intros [= -> ->].
Qed.

(** The state the normalizer leaves in the session. *)
Lemma populate_session (c : connection) :
  let db := session c in
  let table :=
    foldl insert_ignore_label (genres db)
      (elements (collect_labels (select_distinct "genres" db))) in
  session (populate_normalized_tables c).1
  = {| games := games db;
       genres := table;
       game_genres :=
         link_rows table (select_keyed "genres" db) (game_genres db);
       tags :=
         foldl insert_ignore_label (tags db)
           (elements (collect_labels (select_distinct "tags" db)));
       game_tags := game_tags db |}
  /\ committed (populate_normalized_tables c).1
     = session (populate_normalized_tables c).1.
Proof. split; reflexivity. Qed.

(** C7.  A second run of the normalizer over the same product table adds
    no row to a lookup table and no row to a junction table: each of its
    inserts meets a row that is there already and is ignored, and the
    stored state is the one the first run left. *)
Theorem populate_twice_adds_nothing (c : connection) :
  let once := (populate_normalized_tables c).1 in
  let twice := (populate_normalized_tables once).1 in
  genres (session twice) = genres (session once) /\
  game_genres (session twice) = game_genres (session once) /\
  tags (session twice) = tags (session once) /\
  game_tags (session twice) = game_tags (session once) /\
  session twice = session once.
Proof.
  cbv zeta.
  destruct (populate_session c) as [H1 _].
  destruct (populate_session (populate_normalized_tables c).1) as [H2 _].
  cbv zeta in H1, H2.
  revert H2.
  generalize (session (populate_normalized_tables
                         (populate_normalized_tables c).1).1).
  revert H1. generalize (session (populate_normalized_tables c).1).
  intros s1 -> s2 ->. unfold select_distinct, select_keyed. simpl.
  fold (select_distinct "genres" (session c)).
  fold (select_distinct "tags" (session c)).
  fold (select_keyed "genres" (session c)).
  rewrite (insert_labels_present _ (foldl insert_ignore_label _ _))
    by (intros l Hl; apply insert_labels_names; by right).
  rewrite (insert_labels_present _ (foldl insert_ignore_label _ _))
    by (intros l Hl; apply insert_labels_names; by right).
  rewrite link_rows_present by apply link_rows_linked.
  done.
Qed.

(** What the normalizer does establish: for the genre list, under the
    uniqueness constraints of the tables, each label of each product has
    exactly one row in [genres] and the product exactly one row in
    [game_genres] for it; each label of a tag list has exactly one row in
    [tags]. *)
Lemma populate_links_genres (c : connection) (k : Z)
      (row : gmap string sqlval) (s label : string) :
  constraints_hold (session c) ->
  games (session c) !! k = Some row ->
  label ∈ tokens s ->
  let db := session (populate_normalized_tables c).1 in
  (column "genres" row = SStr s ->
   length (lookup_rows label (genres db)) = 1%nat /\
   length (junction_rows k label (genres db) (game_genres db)) = 1%nat) /\
  (column "tags" row = SStr s ->
   length (lookup_rows label (tags db)) = 1%nat).
Proof.
  intros (Hg & Hgg & Ht & Htt) Hk Hl db.
  destruct (populate_session c) as [Hs _]. fold db in Hs. cbv zeta in Hs.
  rewrite Hs. simpl. split.
  - intros Hcol.
    pose proof (tokens_collected "genres" _ _ _ _ _ Hk Hcol Hl) as Hin.
    assert (Hname : label ∈ (foldl insert_ignore_label (genres (session c))
              (elements (collect_labels
                 (select_distinct "genres" (session c))))).*2)
      by (apply insert_labels_names; by right).
    pose proof (insert_labels_NoDup
                  (elements (collect_labels
                     (select_distinct "genres" (session c))))
                  _ Hg) as Hnd.
    split; [by apply lookup_rows_one|].
    apply list_elem_of_fmap in Hname as ([id name] & Hn & Hid).
    simpl in Hn. subst name.
    apply (junction_rows_one _ _ k id); [exact Hnd | | exact Hid |].
    + by apply link_rows_NoDup.
    + apply (link_rows_linked _ _ _ k s label id); [|exact Hl | exact Hid].
      apply elem_of_select_keyed. eauto.
  - intros Hcol.
    pose proof (tokens_collected "tags" _ _ _ _ _ Hk Hcol Hl) as Hin.
    apply lookup_rows_one; [by apply insert_labels_NoDup|].
    apply insert_labels_names. by right.
Qed.

End NormalizerRun.

(** ** The tag list is never linked *)

(** C1, at the failing input.  One product is loaded whose genre list and
    tag list are both "Action, RPG, Action".  After the normalizer the
    genre side is as the specification says: one row for each of the two
    labels in [genres], two rows for the product in [game_genres], one per
    label.  On the tag side the labels are in [tags], one row each, but
    [game_tags] is empty: the normalizer has no link pass for tags and
    never writes to that table, whatever the state it starts from. *)
Theorem populate_never_links_tags :
  (forall c : connection,
      game_tags (session (populate_normalized_tables c).1)
      = game_tags (session c)) /\
  let loaded :=
    conn (@load_games sample_runtime sample_schema
            (connect empty_database) action_rpg_frame 500) in
  let db := session (populate_normalized_tables loaded).1 in
  length (lookup_rows "Action" (genres db)) = 1%nat /\
  length (lookup_rows "RPG" (genres db)) = 1%nat /\
  length (junction_rows 1 "Action" (genres db) (game_genres db)) = 1%nat /\
  length (junction_rows 1 "RPG" (genres db) (game_genres db)) = 1%nat /\
  length (filter (fun p => p.1 = 1) (game_genres db)) = 2%nat /\
  length (lookup_rows "Action" (tags db)) = 1%nat /\
  length (lookup_rows "RPG" (tags db)) = 1%nat /\
  length (junction_rows 1 "Action" (tags db) (game_tags db)) = 0%nat /\
  length (junction_rows 1 "RPG" (tags db) (game_tags db)) = 0%nat /\
  game_tags db = [].
Proof.
  split; [reflexivity|]. vm_compute. repeat split; reflexivity.
Qed.

(** ** Instances of the properties on sample data *)

Lemma reingest_witness :
  @map_row sample_runtime portal_renamed = Ret portal_renamed_values /\
  @storage_rejects sample_schema portal_renamed_values = false /\
  portal_renamed_values !! 0%nat = Some (SInt 10) /\
  games (session (conn portal_loaded)) !! 10 = Some portal_stored /\
  exists stored,
    games (session (conn (@load_row sample_runtime sample_schema 500
                            portal_loaded 1 portal_renamed))) !! 10
    = Some stored /\
    stored !! "name" = Some (SStr "Portal 2") /\
    stored !! "price" = Some (SFloat (FFin 19 0)) /\
    stored !! "release_date" = Some (SStr "2007-10-10").
Proof.
  assert (H1 : @map_row sample_runtime portal_renamed
               = Ret portal_renamed_values) by (vm_compute; reflexivity).
  assert (H2 : @storage_rejects sample_schema portal_renamed_values = false)
    by reflexivity.
  assert (H3 : portal_renamed_values !! 0%nat = Some (SInt 10))
    by reflexivity.
  assert (H4 : games (session (conn portal_loaded)) !! 10
               = Some portal_stored) by reflexivity.
  repeat (split; [assumption|]).
  destruct (@reingest_updates_mutable_fields_only sample_runtime
              sample_schema 500 portal_loaded 1 portal_renamed
              portal_renamed_values 10 portal_stored H1 H2 H3 H4)
    as (stored & Hs & Hname & Hprice & _ & _ & _ & Hdate & _).
  exists stored. split; [exact Hs|].
  split; [rewrite Hname; reflexivity|].
  split; [rewrite Hprice; reflexivity|].
  rewrite Hdate. vm_compute. reflexivity.
Defined.


Lemma get_game_details_witness :
  let b := {| Server.reachable := true;
              Server.stored := committed (conn portal_loaded) |} in
  Server.reachable b = true /\
  Server.get_game_details b 11
  = Ret {[ "error" := SStr "Game not found" ]} /\
  Server.get_game_details b 10 = Ret portal_stored.
Proof.
  cbv zeta.
  set (b := {| Server.reachable := true;
               Server.stored := committed (conn portal_loaded) |}).
  assert (Hup : Server.reachable b = true) by reflexivity.
  destruct (get_game_details_found_or_error b 11 Hup) as [Hnone _].
  destruct (get_game_details_found_or_error b 10 Hup) as [_ Hsome].
  split; [exact Hup|]. split.
  - apply Hnone. vm_compute. reflexivity.
  - apply Hsome. reflexivity.
Defined.

(** * Further properties of the code *)

(** ** Stripping *)

Section Stripping.
Import Text TextSpec.

Lemma lstrip_spaces (ws l : list ascii) :
  spaces ws -> lstrip (ws ++ l) = lstrip l.
Proof.
  unfold spaces, not_space in *.
  induction 1 as [|c ws Hc _ IH]; simpl; [reflexivity | by rewrite Hc].
Qed.

Lemma lstrip_head (l : list ascii) : not_space (head (lstrip l)).
Proof.
  unfold spaces, not_space in *.
  induction l as [|c l IH]; simpl; [reflexivity|].
  destruct (is_space c) eqn:Hc; [exact IH | simpl; exact Hc].
Qed.

Lemma lstrip_fixed (l : list ascii) : not_space (head l) -> lstrip l = l.
Proof.
  unfold spaces, not_space in *. destruct l as [|c l]; simpl; [reflexivity | by intros ->]. Qed.

Lemma lstrip_split (l : list ascii) :
  exists ws, l = ws ++ lstrip l /\ spaces ws.
Proof.
  unfold spaces, not_space in *.
  induction l as [|c l (ws & IH & Hws)]; simpl; [by exists []|].
  destruct (is_space c) eqn:Hc.
  - exists (c :: ws). split; [simpl; congruence | by constructor].
  - by exists [].
Qed.

Lemma lstrip_app (l ws : list ascii) :
  spaces ws ->
  lstrip (l ++ ws) = lstrip l ++ ws
  \/ (lstrip l = [] /\ lstrip (l ++ ws) = []).
Proof.
  unfold spaces, not_space in *.
  intros Hws. induction l as [|c l IH]; simpl.
  - right. split; [reflexivity|].
    rewrite <- (app_nil_r ws) at 1. by rewrite lstrip_spaces.
  - destruct (is_space c); [exact IH | by left].
Qed.

Lemma last_rev (l : list ascii) : last (rev l) = head l.
Proof.
  unfold spaces, not_space in *. destruct l as [|c l]; simpl; [reflexivity | apply last_snoc]. Qed.

Lemma head_rev (l : list ascii) : head (rev l) = last l.
Proof.
  unfold spaces, not_space in *. by rewrite <- last_rev, rev_involutive. Qed.

Lemma spaces_rev (ws : list ascii) : spaces ws -> spaces (rev ws).
Proof.
  unfold spaces. rewrite !Forall_forall.
  intros Hws c Hc%list_elem_of_In%in_rev%list_elem_of_In. by apply Hws.
Qed.

Lemma rstrip_spaces (l ws : list ascii) :
  spaces ws -> rstrip (l ++ ws) = rstrip l.
Proof.
  unfold spaces, not_space in *.
  intros Hws. unfold rstrip.
  by rewrite rev_app_distr, lstrip_spaces by apply spaces_rev, Hws.
Qed.

Lemma rstrip_last (l : list ascii) : not_space (last (rstrip l)).
Proof.
  unfold spaces, not_space in *. unfold rstrip. rewrite last_rev. apply lstrip_head. Qed.

Lemma rstrip_fixed (l : list ascii) : not_space (last l) -> rstrip l = l.
Proof.
  unfold spaces, not_space in *.
  intros Hl. unfold rstrip. rewrite lstrip_fixed, rev_involutive;
    [reflexivity | by rewrite head_rev].
Qed.

Lemma rstrip_split (l : list ascii) :
  exists ws, l = rstrip l ++ ws /\ spaces ws.
Proof.
  unfold spaces, not_space in *.
  unfold rstrip. destruct (lstrip_split (rev l)) as (ws & Heq & Hws).
  exists (rev ws). split.
  - rewrite <- rev_app_distr, <- Heq. by rewrite rev_involutive.
  - apply spaces_rev, Hws.
Qed.

Lemma rstrip_head (l : list ascii) :
  not_space (head l) -> not_space (head (rstrip l)).
Proof.
  unfold spaces, not_space in *.
  intros Hl. destruct (rstrip_split l) as (ws & Heq & _).
  destruct (rstrip l) as [|c r]; [reflexivity|].
  rewrite Heq in Hl. exact Hl.
Qed.

(** The stripped text has no whitespace at either end. *)
Lemma strip_ends (l : list ascii) :
  not_space (head (rstrip (lstrip l)))
  /\ not_space (last (rstrip (lstrip l))).
Proof.
  unfold spaces, not_space in *. split; [apply rstrip_head, lstrip_head | apply rstrip_last]. Qed.

Lemma strip_fixed (l : list ascii) :
  not_space (head l) -> not_space (last l) -> rstrip (lstrip l) = l.
Proof.
  unfold spaces, not_space in *. intros Hh Hl. by rewrite lstrip_fixed, rstrip_fixed. Qed.

Lemma strip_surrounded (ws1 l ws2 : list ascii) :
  spaces ws1 -> spaces ws2 ->
  rstrip (lstrip (ws1 ++ l ++ ws2)) = rstrip (lstrip l).
Proof.
  unfold spaces, not_space in *.
  intros H1 H2. rewrite lstrip_spaces by exact H1.
  destruct (lstrip_app l ws2 H2) as [-> | [-> ->]];
    [by apply rstrip_spaces | reflexivity].
Qed.

Lemma strip_list (s : string) :
  list_ascii_of_string (strip s)
  = rstrip (lstrip (list_ascii_of_string s)).
Proof.
  unfold spaces, not_space in *. unfold strip. apply list_ascii_of_string_of_list_ascii. Qed.

Lemma strip_idempotent (s : string) : strip (strip s) = strip s.
Proof.
  unfold spaces, not_space in *.
  unfold strip at 1. rewrite strip_list.
  destruct (strip_ends (list_ascii_of_string s)) as [Hh Hl].
  by rewrite strip_fixed.
Qed.

Lemma strip_surrounded_string (ws1 s ws2 : string) :
  spaces (list_ascii_of_string ws1) -> spaces (list_ascii_of_string ws2) ->
  strip (ws1 +:+ s +:+ ws2) = strip s.
Proof.
  unfold spaces, not_space in *.
  intros H1 H2. unfold strip.
  by rewrite !list_ascii_of_string_app, strip_surrounded.
Qed.

End Stripping.

(** ** More on the field coercers *)

Section MoreCoercers.
Context `{PyRuntime}.
Import Text TextSpec.

Lemma substring_length (n : nat) (s : string) :
  (n <= String.length s)%nat -> String.length (substring 0 n s) = n.
Proof.
  revert s. induction n as [|n IH]; intros s Hn.
  - by destruct s.
  - destruct s as [|c s]; simpl in *; [lia|]. rewrite IH; lia.
Qed.

Lemma safe_str_unfold (value : pyval) (max_length : option nat) (s : string) :
  safe_str value max_length = Some s ->
  s <> EmptyString /\
  let stripped := strip (Py.str value) in
  ((s = stripped
    /\ forall n, max_length = Some n -> (0 < n)%nat ->
                 (String.length stripped <= n)%nat)
   \/ exists n, max_length = Some (S n)
                /\ (S n < String.length stripped)%nat
                /\ s = substring 0 (S n) stripped).
Proof.
  unfold safe_str. destruct (pd_isna value); [discriminate|]. cbv zeta.
  set (stripped := strip (Py.str value)).
  match goal with
  | |- (if String.eqb ?t _ then _ else _) = _ -> _ => set (result := t)
  end.
  destruct (String.eqb result EmptyString) eqn:He; [discriminate|].
  intros [= <-]. split; [by apply String.eqb_neq|].
  subst result. destruct max_length as [[|n]|].
  - left. split; [reflexivity|]. intros n [= <-]. lia.
  - destruct (S n <? String.length stripped)%nat eqn:Hlt.
    + right. exists n. apply Nat.ltb_lt in Hlt. auto.
    + left. split; [reflexivity|]. intros m [= <-] _.
      apply Nat.ltb_ge in Hlt. exact Hlt.
  - left. split; [reflexivity|]. discriminate.
Qed.

(** X1.  What the string coercer returns is never the empty text and never
    begins with whitespace; with a maximal length it is no longer than
    that, and without one it does not end with whitespace either. *)
Theorem safe_str_result_shape (value : pyval) (max_length : option nat)
      (s : string) :
  safe_str value max_length = Some s ->
  s <> EmptyString /\
  not_space (head (list_ascii_of_string s)) /\
  (forall n, max_length = Some n -> (0 < n)%nat ->
             (String.length s <= n)%nat) /\
  (max_length = None -> not_space (last (list_ascii_of_string s))).
Proof.
  intros (Hne & Hs)%safe_str_unfold. cbv zeta in Hs.
  destruct (strip_ends (list_ascii_of_string (Py.str value))) as [Hh Hl].
  rewrite <- strip_list in Hh, Hl.
  split; [exact Hne|].
  destruct Hs as [[-> Hfit] | (n & -> & Hlen & ->)].
  - split; [exact Hh|]. split; [exact Hfit | by intros _].
  - split; [|split; [|discriminate]].
    + destruct (strip (Py.str value)) as [|c t]; [simpl in Hlen; lia|].
      exact Hh.
    + intros m [= <-] _. rewrite substring_length; lia.
Qed.

(** X2.  Without a maximal length the string coercer is idempotent: given
    its own result as a str, it returns it unchanged. *)
Theorem safe_str_idempotent (value : pyval) (s : string) :
  safe_str value None = Some s -> safe_str (VStr s) None = Some s.
Proof.
  intros (Hne & Hs)%safe_str_unfold. cbv zeta in Hs.
  destruct Hs as [[-> _] | (n & Hn & _)]; [|discriminate].
  unfold safe_str. simpl. rewrite strip_idempotent.
  by apply String.eqb_neq in Hne as ->.
Qed.

Lemma lower_digits (s : string) :
  Forall (fun c => is_digit c = true) (list_ascii_of_string s) ->
  lower s = s.
Proof.
  unfold lower. intros Hd.
  rewrite <- (string_of_list_ascii_of_string s) at 2. f_equal.
  induction Hd as [|c l Hc _ IH]; simpl; [reflexivity|]. rewrite IH. f_equal.
  unfold lower_char, is_digit, between in *.
  apply andb_prop in Hc as [H1%Z.leb_le H2%Z.leb_le].
  repeat (rewrite (proj2 (Z.leb_gt _ _)) by lia; simpl).
  rewrite ?andb_false_r. reflexivity.
Qed.

(** The decimal text of an int is ["1"] for the int 1 only. *)
Lemma str_of_Z_one (n : Z) : lower (str_of_Z n) = "1" <-> n = 1.
Proof.
  split; [|by intros ->].
  destruct (Z.ltb_spec n 0) as [Hneg|Hpos].
  - unfold str_of_Z. rewrite (proj2 (Z.ltb_lt n 0)) by lia.
    unfold lower. simpl. discriminate.
  - pose proof (str_of_Z_digits n Hpos) as Hd.
    unfold DateSpec.some_digits_of in Hd.
    apply andb_prop in Hd as [Hd Hv]. apply andb_prop in Hd as [Hd _].
    rewrite lower_digits.
    + intros Heq. rewrite Heq in Hv. apply Z.eqb_eq in Hv. by rewrite <- Hv.
    + apply Forall_forall. intros c Hc. rewrite forallb_forall in Hd.
      apply Hd, list_elem_of_In, Hc.
Qed.

(** X3.  On an int the boolean coercer is true for 1 and false for every
    other int, positive or not; on a bool it is the bool. *)
Theorem parse_bool_int (n : Z) (b : bool) :
  parse_bool (VInt n) = bool_decide (n = 1) /\ parse_bool (VBool b) = b.
Proof.
  split; [|reflexivity]. unfold parse_bool. simpl.
  destruct (decide (n = 1)) as [->|Hne].
  - reflexivity.
  - rewrite (bool_decide_eq_false_2 (n = 1)) by exact Hne.
    apply bool_decide_eq_false_2.
    rewrite !elem_of_cons. intros [Ht | [H1 | [Hy | []%elem_of_nil]]].
    + destruct (Z.ltb_spec n 0) as [Hneg|Hpos].
      * unfold str_of_Z in Ht. rewrite (proj2 (Z.ltb_lt n 0)) in Ht by lia.
        unfold lower in Ht. simpl in Ht. discriminate.
      * pose proof (str_of_Z_digits n Hpos) as Hd.
        unfold DateSpec.some_digits_of in Hd.
        apply andb_prop in Hd as [Hd _]. apply andb_prop in Hd as [Hd _].
        rewrite lower_digits in Ht.
        -- rewrite Ht in Hd. discriminate.
        -- apply Forall_forall. intros c Hc. rewrite forallb_forall in Hd.
           apply Hd, list_elem_of_In, Hc.
    + by apply str_of_Z_one in H1.
    + destruct (Z.ltb_spec n 0) as [Hneg|Hpos].
      * unfold str_of_Z in Hy. rewrite (proj2 (Z.ltb_lt n 0)) in Hy by lia.
        unfold lower in Hy. simpl in Hy. discriminate.
      * pose proof (str_of_Z_digits n Hpos) as Hd.
        unfold DateSpec.some_digits_of in Hd.
        apply andb_prop in Hd as [Hd _]. apply andb_prop in Hd as [Hd _].
        rewrite lower_digits in Hy.
        -- rewrite Hy in Hd. discriminate.
        -- apply Forall_forall. intros c Hc. rewrite forallb_forall in Hd.
           apply Hd, list_elem_of_In, Hc.
Qed.

Lemma float_of_int_exact (n : Z) :
  Z.abs n < 2 ^ 53 -> Py.float_of_int n = Ret (FFin n 0).
Proof.
  intros Hn. unfold Py.float_of_int. cbv zeta.
  destruct (Z.abs n =? 0) eqn:H0; [reflexivity|].
  apply Z.eqb_neq in H0.
  assert (Z.log2 (Z.abs n) < 53) by (apply Z.log2_lt_pow2; lia).
  by rewrite (proj2 (Z.leb_le _ _)) by lia.
Qed.

(** X4.  An int of magnitude below 2^53 goes through both numeric coercers
    unchanged: the detour through a float loses nothing. *)
Theorem safe_int_exact_below_2_53 (n default : Z) (fdefault : pyfloat) :
  Z.abs n < 2 ^ 53 ->
  safe_int (VInt n) default = Ret n /\
  safe_float (VInt n) fdefault = Ret (FFin n 0).
Proof.
  intros Hn. unfold safe_int, safe_float. simpl.
  rewrite float_of_int_exact by exact Hn. simpl.
  split; [|reflexivity]. f_equal. lia.
Qed.

(** X5.  On a finite float the integer coercer truncates toward zero: the
    result has the sign of the float and is the largest integer, in
    magnitude, that is not beyond it. *)
Theorem safe_int_truncates_toward_zero (m e default : Z) :
  exists r,
    safe_int (VFloat (FFin m e)) default = Ret r /\
    (0 <= e -> r = m * 2 ^ e) /\
    (e < 0 ->
     Z.abs r * 2 ^ (- e) <= Z.abs m < (Z.abs r + 1) * 2 ^ (- e)
     /\ (0 <= m -> 0 <= r) /\ (m <= 0 -> r <= 0)).
Proof.
  unfold safe_int. simpl.
  destruct (Z.leb_spec 0 e) as [He|He].
  - eexists. split; [reflexivity|]. split; [by intros _ | lia].
  - eexists. split; [reflexivity|]. split; [lia|]. intros _.
    assert (Hp : 0 < 2 ^ (- e)) by (apply Z.pow_pos_nonneg; lia).
    set (d := 2 ^ (- e)) in *.
    pose proof (Z.quot_abs m d ltac:(lia)) as Habs.
    rewrite (Z.abs_eq d) in Habs by lia.
    rewrite <- Habs, Z.quot_div_nonneg by lia.
    pose proof (Z.div_mod (Z.abs m) d ltac:(lia)).
    pose proof (Z.mod_pos_bound (Z.abs m) d Hp).
    split; [nia|]. split.
    + intros Hm. apply Z.quot_pos; lia.
    + intros Hm. rewrite <- (Z.opp_involutive m), Z.quot_opp_l by lia.
      pose proof (Z.quot_pos (- m) d ltac:(lia) ltac:(lia)). lia.
Qed.

End MoreCoercers.

(** ** More on the date resolver *)

Section MoreDates.
Context `{PyRuntime}.
Import Text TextSpec DateSpec Strptime.

(** X6.  Whitespace around a date text never changes what the resolver
    makes of it. *)
Theorem parse_date_ignores_outer_whitespace (ws1 s ws2 : string) :
  spaces (list_ascii_of_string ws1) ->
  spaces (list_ascii_of_string ws2) ->
  parse_date (VStr (ws1 +:+ s +:+ ws2)) = parse_date (VStr s).
Proof.
  intros H1 H2. rewrite !parse_date_text.
  by rewrite strip_surrounded_string.
Qed.

(** X7.  A year returned by the resolver lies between 1 and 9999, and
    between 1900 and 2099 when it comes from the year-only fallback. *)
Theorem parse_date_year_range (date_str : pyval) (year : Z) :
  (parse_date date_str).2 = Some year ->
  1 <= year <= 9999 /\
  (try_formats (strip (Py.str date_str)) formats = None ->
   1900 <= year <= 2099).
Proof.
  unfold parse_date. cbv zeta.
  destruct (negb (Py.truthy date_str) || pd_isna date_str);
    [discriminate|].
  set (text := strip (Py.str date_str)).
  destruct (try_formats text formats) as [[date' year']|] eqn:Ht;
    cbn [fst snd].
  - intros [= <-]. split; [|discriminate].
    apply try_formats_some in Ht as (b & f & a & dt & _ & _ & Hp & _ & ->).
    by apply strptime_valid in Hp as (Hy & _).
  - pose proof (search_spec text) as Hs.
    destruct (YearRegex.search text) as [tok|]; cbn [fst snd];
      [|discriminate].
    intros [= <-].
    destruct Hs as (pre & post & _ & [Hshape%year_shape_range _] & _).
    split; [lia | by intros _].
Qed.

Lemma digit_not_space (c : ascii) : is_digit c = true -> is_space c = false.
Proof.
  unfold is_digit, is_space, between. cbv zeta. intros Hd. lia.
Qed.

Lemma names_reject_digit (c : ascii) (s : list ascii) :
  is_digit c = true ->
  re_names (sorted_by_length (numbered a_month)) (c :: s) = []
  /\ re_names (sorted_by_length (numbered f_month)) (c :: s) = [].
Proof.
  intros Hd.
  destruct c as [[] [] [] [] [] [] [] []]; cbv in Hd; try discriminate Hd;
    split; reflexivity.
Qed.

Lemma compiled_formats :
  pattern false (list_ascii_of_string "%b %d, %Y")
  = Some [Dir_b; Spaces; Dir_d; Lit ","; Spaces; Dir_Y]
  /\ pattern false (list_ascii_of_string "%B %d, %Y")
     = Some [Dir_B; Spaces; Dir_d; Lit ","; Spaces; Dir_Y]
  /\ pattern false (list_ascii_of_string "%Y-%m-%d")
     = Some [Dir_Y; Lit "-"; Dir_m; Lit "-"; Dir_d].
Proof. repeat split; reflexivity. Qed.

Lemma strptime_name_first_rejects_digit (c : ascii) (s : string) :
  is_digit c = true ->
  strptime (String c s) "%b %d, %Y" = Raise ValueError
  /\ strptime (String c s) "%B %d, %Y" = Raise ValueError.
Proof.
  intros Hd.
  destruct (names_reject_digit c (list_ascii_of_string s) Hd) as [Ha Hf].
  destruct compiled_formats as (Hb & HB & _).
  unfold strptime. rewrite Hb, HB.
  cbn [list_ascii_of_string re_match re_directive].
  rewrite Ha, Hf. split; reflexivity.
Qed.

Lemma re_Y_pad4 (y : Z) (rest : list ascii) :
  0 <= y <= 9999 ->
  re_Y (list_ascii_of_string (pad4 y) ++ rest) = [(y, rest)].
Proof.
  intros Hy. pose proof (pad4_digits y Hy) as Hp.
  unfold digits_of, pad4, pad2 in *. cbn [list_ascii_of_string] in *.
  cbv zeta in Hp.
  apply andb_prop in Hp as [Hp Hv%Z.eqb_eq].
  apply andb_prop in Hp as [Hp _].
  cbn [forallb] in Hp.
  repeat (apply andb_prop in Hp as [? Hp]).
  unfold re_Y, item. cbn [app].
  repeat (match goal with E : is_digit _ = true |- _ => rewrite E; clear E end;
          cbn -[int_of_digits Z.div Z.modulo]).
  by rewrite Hv.
Qed.

Lemma re_m_pad2 (m : Z) (rest : list ascii) :
  1 <= m <= 12 ->
  exists others,
    re_m (list_ascii_of_string (pad2 m) ++ rest) = (m, rest) :: others.
Proof.
  intros Hm.
  assert (Hcases : m = 1 \/ m = 2 \/ m = 3 \/ m = 4 \/ m = 5 \/ m = 6
                   \/ m = 7 \/ m = 8 \/ m = 9 \/ m = 10 \/ m = 11 \/ m = 12)
    by lia.
  repeat destruct Hcases as [-> | Hcases]; try subst m;
    eexists; reflexivity.
Qed.

Lemma re_d_pad2 (d : Z) (rest : list ascii) :
  1 <= d <= 31 ->
  exists others,
    re_d (list_ascii_of_string (pad2 d) ++ rest) = (d, rest) :: others.
Proof.
  intros Hd.
  assert (Hcases : exists k : nat, (k < 31)%nat /\ d = Z.of_nat k + 1)
    by (exists (Z.to_nat (d - 1)); lia).
  destruct Hcases as (k & Hk & ->).
  do 31 (destruct k as [|k]; [eexists; reflexivity|]). lia.
Qed.

Lemma strptime_iso (y m d : Z) :
  0 <= y <= 9999 -> 1 <= m <= 12 -> 1 <= d <= 31 ->
  strptime (pad4 y +:+ "-" +:+ pad2 m +:+ "-" +:+ pad2 d) "%Y-%m-%d"
  = make_datetime y m d.
Proof.
  intros Hy Hm Hd.
  destruct compiled_formats as (_ & _ & Hiso).
  unfold strptime. rewrite Hiso.
  rewrite !list_ascii_of_string_app.
  cbn [re_match re_directive].
  rewrite re_Y_pad4 by exact Hy.
  destruct (re_m_pad2 m
              (list_ascii_of_string "-" ++ list_ascii_of_string (pad2 d)) Hm)
    as [ms Hms].
  destruct (re_d_pad2 d [] Hd) as [ds Hds]. rewrite app_nil_r in Hds.
  cbn [app list_ascii_of_string] in Hms.
  cbn [mbind list_bind app list_ascii_of_string re_word].
  change (lower_char "-" =? lower_char "-")%char with true.
  cbn [mbind list_bind app]. rewrite Hms.
  cbn [mbind list_bind app].
  change (lower_char "-" =? lower_char "-")%char with true.
  cbn [mbind list_bind app]. rewrite Hds. reflexivity.
Qed.

Lemma make_datetime_ret (y m d : Z) (dt : datetime) :
  make_datetime y m d = Ret dt ->
  0 <= y <= 9999 /\ 1 <= m <= 12 /\ 1 <= d <= 31
  /\ dt_year dt = y /\ dt_month dt = m /\ dt_day dt = d.
Proof.
  intros (-> & Hb)%make_datetime_valid. cbn. lia.
Qed.

Lemma strptime_constructed (text fmt : string) (dt : datetime) :
  strptime text fmt = Ret dt ->
  make_datetime (dt_year dt) (dt_month dt) (dt_day dt) = Ret dt.
Proof.
  unfold strptime.
  repeat (case_match; try discriminate); intros Hmk;
    pose proof Hmk as (-> & _)%make_datetime_valid; exact Hmk.
Qed.

Lemma iso_text_stripped (y m d : Z) :
  let text := pad4 y +:+ "-" +:+ pad2 m +:+ "-" +:+ pad2 d in
  strip text = text /\ exists c s, text = String c s /\ is_digit c = true.
Proof.
  cbv zeta. split.
  - destruct (mod10_digit (y / 1000)) as [Hy%digit_not_space _].
    destruct (mod10_digit d) as [Hd%digit_not_space _].
    unfold strip.
    rewrite strip_fixed; [apply string_of_list_ascii_of_string | |];
      unfold not_space, pad4, pad2; simpl; assumption.
  - eexists _, _. split; [reflexivity|].
    apply (mod10_digit (y / 1000)).
Qed.

Lemma parse_date_iso (y m d : Z) (dt : datetime) :
  make_datetime y m d = Ret dt ->
  parse_date (VStr (pad4 y +:+ "-" +:+ pad2 m +:+ "-" +:+ pad2 d))
  = (Some (strftime dt "%Y-%m-%d"), Some y).
Proof.
  intros Hmk.
  pose proof Hmk as (Hy & Hm & Hd & Hyy & _)%make_datetime_ret.
  rewrite parse_date_text.
  destruct (iso_text_stripped y m d) as (-> & c & s & Htext & Hc).
  destruct (strptime_name_first_rejects_digit c s Hc) as [Hb HB].
  unfold formats. cbn [try_formats].
  rewrite Htext, Hb, HB, <- Htext.
  rewrite strptime_iso, Hmk by assumption.
  by rewrite Hyy.
Qed.

(** X8.  A date the resolver produced is read back by the resolver as the
    same date and year, when the year is written with four digits. *)
Theorem parse_date_reads_its_own_output
      (date_str : pyval) (date : string) (year : Z) :
  parse_date date_str = (Some date, Some year) ->
  py_strftime_pads_year = true \/ 1000 <= year ->
  parse_date (VStr date) = (Some date, Some year).
Proof.
  unfold parse_date at 1. cbv zeta.
  destruct (negb (Py.truthy date_str) || pd_isna date_str);
    [discriminate|].
  set (text := strip (Py.str date_str)).
  intros Hres Hfour.
  assert (Hwritten : forall dt, dt_year dt = year -> 1 <= year <= 9999 ->
            strftime dt "%Y-%m-%d"
            = pad4 year +:+ "-" +:+ pad2 (dt_month dt)
              +:+ "-" +:+ pad2 (dt_day dt)).
  { intros dt Hy Hr. rewrite strftime_ymd, Hy.
    destruct py_strftime_pads_year; [reflexivity|].
    rewrite str_of_Z_pad4; [reflexivity|].
    destruct Hfour; [discriminate | lia]. }
  destruct (try_formats text formats) as [[date' year']|] eqn:Ht.
  - injection Hres as <- <-.
    apply try_formats_some in Ht as (b & f & a & dt & _ & _ & Hp & -> & ->).
    pose proof (strptime_valid _ _ _ Hp) as (Hy & _).
    apply strptime_constructed in Hp.
    rewrite (Hwritten dt) at 1 by (reflexivity || exact Hy).
    exact (parse_date_iso _ _ _ _ Hp).
  - pose proof (search_spec text) as Hs.
    destruct (YearRegex.search text) as [tok|]; [|discriminate].
    destruct Hs as (pre & post & _ & [Hshape%year_shape_range _] & _).
    injection Hres as <- <-.
    set (y := int_of_digits tok) in *.
    assert (Hmk : make_datetime y 1 1
                  = Ret {| dt_year := y; dt_month := 1; dt_day := 1 |}).
    { unfold make_datetime, between.
      rewrite (proj2 (Z.leb_le 1 y)), (proj2 (Z.leb_le y 9999)) by lia.
      reflexivity. }
    rewrite str_of_Z_pad4 by lia.
    change (pad4 y +:+ "-01-01")
      with (pad4 y +:+ "-" +:+ pad2 1 +:+ "-" +:+ pad2 1) at 1.
    rewrite (parse_date_iso _ _ _ _ Hmk), Hwritten by (reflexivity || lia).
    reflexivity.
Qed.

End MoreDates.

(** ** More on the loader *)

Section MoreLoader.
Context `{PyRuntime} `{Schema}.

Lemma first_last_write (k : Z) (stmts : list (Z * gmap string sqlval)) :
  is_Some (first_write k stmts) <-> is_Some (last_write k stmts).
Proof.
  induction stmts as [|[k' n] stmts IH]; cbn [first_write last_write].
  - reflexivity.
  - destruct (decide (k' = k)) as [->|Hne].
    + split; intros _; [|by eexists].
      destruct (last_write k stmts); by eexists.
    + rewrite IH. by destruct (last_write k stmts).
Qed.

Lemma last_write_full (k : Z) (stmts : list (Z * gmap string sqlval))
      (final : gmap string sqlval) :
  Forall (fun kv => has_update_columns kv.2) stmts ->
  last_write k stmts = Some final -> has_update_columns final.
Proof.
  intros Hfull Hl. induction Hfull as [|[k' n] stmts Hn _ IH];
    [discriminate|].
  cbn [last_write] in Hl. destruct (last_write k stmts);
    [apply IH; congruence|].
  destruct (decide (k' = k)); [|discriminate].
  by injection Hl as <-.
Qed.

Lemma upsert_all_cons (g : gmap Z (gmap string sqlval)) (k : Z)
      (n : gmap string sqlval) (stmts : list (Z * gmap string sqlval)) :
  upsert_all g ((k, n) :: stmts) = upsert_all (upsert g k n) stmts.
Proof. reflexivity. Qed.

Lemma upsert_all_writes (stmts : list (Z * gmap string sqlval))
      (g : gmap Z (gmap string sqlval)) (k : Z) :
  Forall (fun kv => has_update_columns kv.2) stmts ->
  upsert_all g stmts !! k
  = match last_write k stmts, first_write k stmts with
    | Some final, Some first =>
        Some (on_duplicate_key_update (default first (g !! k)) final)
    | _, _ => g !! k
    end.
Proof.
  intros Hall. revert g.
  induction Hall as [|[k' n] stmts Hn Hall IH]; intros g; [reflexivity|].
  rewrite upsert_all_cons, IH. cbn [first_write last_write].
  rewrite upsert_lookup.
  pose proof (first_last_write k stmts) as Hfl.
  destruct (decide (k' = k)) as [->|Hne].
  - destruct (last_write k stmts) as [final|].
    + destruct (first_write k stmts) as [first|];
        [|by destruct (proj2 Hfl ltac:(by eexists))].
      cbn [from_option id]. destruct (g !! k) as [old|]; cbn [from_option id];
        [by rewrite odku_override | reflexivity].
    + destruct (first_write k stmts) as [first|];
        [by destruct (proj1 Hfl ltac:(by eexists))|].
      destruct (g !! k) as [old|]; cbn [from_option id]; [reflexivity|].
      by rewrite odku_self.
  - destruct (last_write k stmts) as [final|]; [|reflexivity].
    destruct (first_write k stmts) as [first|]; reflexivity.
Qed.

Lemma upsert_dom (g : gmap Z (gmap string sqlval)) (k : Z)
      (n : gmap string sqlval) :
  dom (upsert g k n) = {[k]} ∪ dom g.
Proof. unfold upsert. destruct (g !! k); apply dom_insert_L. Qed.

Lemma upsert_all_dom (stmts : list (Z * gmap string sqlval))
      (g : gmap Z (gmap string sqlval)) :
  dom (upsert_all g stmts) = dom g ∪ list_to_set stmts.*1.
Proof.
  revert g. induction stmts as [|[k n] stmts IH]; intros g.
  - cbn. by rewrite (right_id_L ∅ (∪)).
  - rewrite upsert_all_cons, IH, upsert_dom.
    cbn [fmap list_fmap fst list_to_set].
    by rewrite (comm_L (∪) {[k]} (dom g)), (assoc_L (∪)).
Qed.

Lemma size_list_to_set_le (l : list Z) (X : gset Z) :
  (size (list_to_set l ∖ X : gset Z) <= length l)%nat.
Proof.
  etrans; [apply subseteq_size, subseteq_difference_l; reflexivity|].
  induction l as [|x l IH]; cbn [list_to_set length].
  - by rewrite size_empty.
  - rewrite size_union_alt, size_singleton.
    assert (size (list_to_set l ∖ {[x]} : gset Z)
            <= size (list_to_set l : gset Z))%nat
      by (apply subseteq_size, subseteq_difference_l; reflexivity).
    lia.
Qed.

(** X9.  After a load, a product that some accepted record names holds the
    update-clause columns of the last such record, and every other column
    of the row stored before the load, or of the first such record when the
    product is new.  A product that no accepted record names is as it
    was. *)
Theorem load_games_first_and_last_writer (c : connection)
      (df : list (gmap string pyval)) (batch_size k : Z) :
  let before := games (session c) in
  let after := games (session (conn (load_games c df batch_size))) in
  match last_write k (accepted df), first_write k (accepted df) with
  | Some final, Some first =>
      exists stored,
        after !! k = Some stored /\
        (forall col, col ∈ update_columns -> stored !! col = final !! col) /\
        (forall col, col ∉ update_columns ->
           stored !! col = default first (before !! k) !! col)
  | _, _ => after !! k = before !! k
  end.
Proof.
  cbv zeta.
  destruct (load_games_session c df batch_size) as [-> _].
  cbn [games with_games].
  rewrite (upsert_all_writes _ _ k (accepted_full df)).
  pose proof (accepted_full df) as Hfull.
  destruct (last_write k (accepted df)) as [final|] eqn:Hl; [|reflexivity].
  destruct (first_write k (accepted df)) as [first|]; [|reflexivity].
  eexists. split; [reflexivity|]. split; intros col Hcol.
  - rewrite odku_lookup, decide_True by exact Hcol.
    pose proof (last_write_full _ _ _ Hfull Hl) as Hin.
    destruct (Hin col Hcol) as [v Hv]. unfold column. by rewrite Hv.
  - by rewrite odku_lookup, decide_False by exact Hcol.
Qed.

(** X10.  A load never removes a product: the keys afterwards are the keys
    before and the keys of the accepted records, so the table grows by at
    most one row per accepted record, and a product stored before keeps
    every column outside the update clause. *)
Theorem load_games_keeps_stored_products (c : connection)
      (df : list (gmap string pyval)) (batch_size : Z) :
  let before := games (session c) in
  let after := games (session (conn (load_games c df batch_size))) in
  dom after = dom before ∪ list_to_set (accepted df).*1 /\
  (size before <= size after <= size before + length (accepted df))%nat /\
  forall k old, before !! k = Some old ->
    exists stored,
      after !! k = Some stored /\
      forall col, col ∉ update_columns -> stored !! col = old !! col.
Proof.
  cbv zeta.
  destruct (load_games_session c df batch_size) as [-> _].
  cbn [games with_games].
  pose proof (upsert_all_dom (accepted df) (games (session c))) as Hdom.
  split; [exact Hdom|]. split.
  - rewrite <- !size_dom, Hdom. split.
    + apply subseteq_size, union_subseteq_l.
    + rewrite size_union_alt.
      pose proof (size_list_to_set_le (accepted df).*1
                    (dom (games (session c)))) as Hle.
      rewrite length_fmap in Hle. lia.
  - intros k old Hold.
    rewrite (upsert_all_writes _ _ k (accepted_full df)), Hold.
    destruct (last_write k (accepted df)) as [final|]; [|by eauto].
    destruct (first_write k (accepted df)) as [first|]; [|by eauto].
    eexists. split; [reflexivity|]. intros col Hcol. cbn [from_option id].
    by rewrite odku_lookup, decide_False by exact Hcol.
Qed.

Lemma load_row_zero (st : loader) (idx : nat) (row : gmap string pyval) :
  load_row 0 st idx row =
  let st1 :=
    match row_outcome row with
    | Ret (k, new) =>
        let db := session (conn st) in
        {| conn := with_session (with_games (upsert (games db) k new) db)
                     (conn st);
           inserted := inserted st + 1;
           errors := errors st; stdout := stdout st |}
    | Raise _ => st
    end in
  let st2 := {| conn := conn st1; inserted := inserted st1;
                errors := errors st1 + 1; stdout := stdout st1 |} in
  if errors st1 + 1 <=? 5
  then print (PrintErrorRow idx (zero_batch_error row)) st2 else st2.
Proof.
  unfold load_row, zero_batch_error. rewrite try_row_outcome.
  destruct (row_outcome row) as [[k new]|e]; reflexivity.
Qed.

Lemma load_rows_zero (df : list (gmap string pyval)) (st : loader)
      (idx : nat) :
  0 <= errors st ->
  let st' := load_rows 0 st idx df in
  inserted st' = inserted st + Z.of_nat (length (accepted df)) /\
  errors st' = errors st + Z.of_nat (length df) /\
  commits (conn st') = commits (conn st) /\
  committed (conn st') = committed (conn st) /\
  error_lines (stdout st')
  = error_lines (stdout st)
    ++ take (Z.to_nat (5 - errors st))
         (imap (fun i row => PrintErrorRow (idx + i) (zero_batch_error row))
               df).
Proof.
  revert st idx.
  induction df as [|row df IH]; intros st idx He; cbn [load_rows].
  - unfold accepted. cbn. rewrite take_nil, app_nil_r.
    repeat split; lia.
  - specialize (IH (load_row 0 st idx row) (S idx)).
    rewrite load_row_zero in *. rewrite accepted_cons, imap_cons.
    rewrite (imap_ext _ (fun i row => PrintErrorRow (S idx + i)
                                        (zero_batch_error row)))
      by (intros i x _; cbn; f_equal; lia).
    rewrite Nat.add_0_r. cbn [length].
    set (ls := imap _ df) in *. clearbody ls.
    destruct (row_outcome row) as [[k new]|e]; cbv zeta in *;
      cbn [errors inserted conn stdout] in *.
    all: destruct (errors st + 1 <=? 5) eqn:H5;
      cbn [print errors inserted conn stdout commits committed
           with_session] in *;
      (destruct IH as (Hi & Hr & Hc & Hd & Hl); [lia|]);
      rewrite Hc, Hd; cbn [length];
      rewrite ?Nat2Z.inj_succ;
      (split; [lia | split; [lia | split; [reflexivity
                                         | split; [reflexivity|]]]]);
      rewrite Hl, ?error_lines_app; cbn [error_lines List.filter
                                         is_error_line];
      rewrite <- ?app_assoc; f_equal.
    all: try (replace (Z.to_nat (5 - errors st))
                with (S (Z.to_nat (5 - (errors st + 1)))) by lia;
              reflexivity).
    all: replace (Z.to_nat (5 - errors st)) with 0%nat by lia;
      replace (Z.to_nat (5 - (errors st + 1))) with 0%nat by lia;
      reflexivity.
Qed.

(** X11.  With a batch size of zero every record counts as an error, the
    accepted ones through the remainder taken after their statement ran;
    the accepted records are stored all the same, and the only commit is
    the final one. *)
Theorem load_games_zero_batch_size (c : connection)
      (df : list (gmap string pyval)) :
  let st := load_games c df 0 in
  inserted st = Z.of_nat (length (accepted df)) /\
  errors st = Z.of_nat (length df) /\
  error_lines (stdout st)
  = take 5 (imap (fun i row => PrintErrorRow i (zero_batch_error row)) df) /\
  session (conn st)
  = with_games (upsert_all (games (session c)) (accepted df)) (session c) /\
  committed (conn st) = session (conn st) /\
  commits (conn st) = S (commits c).
Proof.
  cbv zeta.
  destruct (load_games_session c df 0) as [Hs Hc].
  unfold load_games in *. cbv zeta in *.
  set (st0 := {| conn := c; inserted := 0; errors := 0;
                 stdout := [PrintLoading; PrintTotalRows (length df)] |})
    in *.
  destruct (load_rows_zero df st0 0) as (Hi & He & Hn & _ & Hl);
    [cbn; lia|].
  cbn [print inserted errors stdout conn commit commits session committed]
    in *.
  rewrite !error_lines_app, Hl, Hi, He, Hn. cbn.
  rewrite !app_nil_r.
  repeat split; try reflexivity; try lia. exact Hs.
Qed.

Lemma mod_opp_zero (i b : Z) : (i mod - b =? 0) = (i mod b =? 0).
Proof.
  destruct (Z.eq_dec b 0) as [->|Hb]; [reflexivity|].
  destruct (Z.eq_dec (i mod b) 0) as [Hz|Hnz].
  - rewrite Hz, Z.mod_opp_r_z by assumption. reflexivity.
  - rewrite (proj2 (Z.eqb_neq (i mod b) 0)) by exact Hnz.
    apply Z.eqb_neq. intros Hz. apply Hnz.
    rewrite <- (Z.opp_involutive b). by apply Z.mod_opp_r_z; [lia|].
Qed.

Lemma try_row_opp (batch_size : Z) (st : loader) (row : gmap string pyval) :
  try_row (- batch_size) st row = try_row batch_size st row.
Proof.
  rewrite !try_row_outcome.
  destruct (row_outcome row) as [[k new]|e]; [|reflexivity].
  cbv zeta. cbn [inserted].
  rewrite mod_opp_zero.
  replace (- batch_size =? 0) with (batch_size =? 0); [reflexivity|].
  destruct (Z.eqb_spec batch_size 0) as [->|Hb]; [reflexivity|].
  symmetry. apply Z.eqb_neq. lia.
Qed.

(** X12.  A negative batch size behaves as its absolute value. *)
Theorem load_games_negative_batch_size (c : connection)
      (df : list (gmap string pyval)) (batch_size : Z) :
  load_games c df (- batch_size) = load_games c df batch_size.
Proof.
  assert (Hrows : forall df' st idx,
             load_rows (- batch_size) st idx df'
             = load_rows batch_size st idx df').
  { induction df' as [|row df' IH]; intros st idx; cbn [load_rows];
      [reflexivity|].
    unfold load_row. by rewrite try_row_opp, IH. }
  unfold load_games. cbv zeta. by rewrite Hrows.
Qed.

Lemma load_rows_app (batch_size : Z) (df1 df2 : list (gmap string pyval))
      (st : loader) (idx : nat) :
  load_rows batch_size st idx (df1 ++ df2)
  = load_rows batch_size (load_rows batch_size st idx df1)
      (idx + length df1) df2.
Proof.
  revert st idx. induction df1 as [|row df1 IH]; intros st idx;
    cbn [load_rows app length].
  - by rewrite Nat.add_0_r.
  - rewrite IH. f_equal. lia.
Qed.

Lemma upsert_all_snoc (g : gmap Z (gmap string sqlval))
      (stmts : list (Z * gmap string sqlval)) (k : Z)
      (n : gmap string sqlval) :
  upsert_all g (stmts ++ [(k, n)]) = upsert (upsert_all g stmts) k n.
Proof. unfold upsert_all. by rewrite foldl_app. Qed.

Lemma load_rows_inserted (batch_size : Z) (df : list (gmap string pyval))
      (st : loader) (idx : nat) :
  batch_size <> 0 ->
  inserted (load_rows batch_size st idx df)
  = inserted st + Z.of_nat (length (accepted df)).
Proof.
  intros Hb. revert st idx.
  induction df as [|row df IH]; intros st idx; cbn [load_rows].
  - unfold accepted. cbn. lia.
  - rewrite IH, load_row_step, accepted_cons by exact Hb.
    destruct (row_outcome row) as [[k new]|e]; cbv zeta.
    + destruct ((inserted st + 1) mod batch_size =? 0);
        cbn [inserted length]; lia.
    + destruct (errors st + 1 <=? 5); cbn [inserted print]; lia.
Qed.

(** X13.  At any point of the loop the committed state holds the
    statements of the full batches of accepted records and nothing of the
    batch in progress: fewer than [batch_size] accepted records are
    uncommitted. *)
Theorem load_rows_committed_batches (batch_size : Z) (st : loader)
      (done : list (gmap string pyval)) :
  0 < batch_size -> inserted st = 0 ->
  let n := Z.of_nat (length (accepted done)) in
  let durable := n / batch_size * batch_size in
  0 <= n - durable < batch_size /\
  committed (conn (load_rows batch_size st 0 done))
  = if n <? batch_size then committed (conn st)
    else with_games
           (upsert_all (games (session (conn st)))
              (take (Z.to_nat durable) (accepted done)))
           (session (conn st)).
Proof.
  intros Hb Hi. cbv zeta. split.
  { pose proof (Z.div_mod (Z.of_nat (length (accepted done))) batch_size
                  ltac:(lia)).
    pose proof (Z.mod_pos_bound (Z.of_nat (length (accepted done)))
                  batch_size Hb).
    lia. }
  induction done as [|row done IH] using rev_ind.
  - change (accepted []) with (@nil (Z * gmap string sqlval)).
    cbn [length load_rows]. change (Z.of_nat 0) with 0.
    by rewrite (proj2 (Z.ltb_lt 0 batch_size)) by exact Hb.
  - rewrite load_rows_app. cbn [load_rows].
    rewrite load_row_step by lia.
    pose proof (load_rows_inserted batch_size done st 0 ltac:(lia)) as Hn.
    pose proof (load_rows_session batch_size done st 0) as Hs.
    rewrite Hi, Z.add_0_l in Hn.
    rewrite accepted_app, accepted_cons.
    set (st1 := load_rows batch_size st 0 done) in *.
    set (acc := accepted done) in *.
    change (accepted []) with (@nil (Z * gmap string sqlval)).
    destruct (row_outcome row) as [[k new]|e]; cbv zeta.
    + rewrite Hn, length_app, Nat2Z.inj_add. cbn [length].
      change (Z.of_nat 1) with 1.
      set (n := Z.of_nat (length acc)) in *.
      pose proof (div_step n batch_size Hb ltac:(lia)) as Hstep.
      pose proof (Z.div_mod (n + 1) batch_size ltac:(lia)) as Hdm.
      pose proof (Z.div_mod n batch_size ltac:(lia)) as Hdn.
      pose proof (Z.mod_pos_bound n batch_size Hb) as Hmn.
      pose proof (Z.mod_pos_bound (n + 1) batch_size Hb) as Hm1.
      destruct (Z.eqb_spec ((n + 1) mod batch_size) 0) as [Hz|Hnz].
      * cbn [conn commit committed with_session session].
        assert (Hq : 1 <= (n + 1) / batch_size) by nia.
        rewrite (proj2 (Z.ltb_ge (n + 1) batch_size)) by nia.
        rewrite take_ge by (rewrite length_app; cbn [length]; nia).
        rewrite upsert_all_snoc, Hs. cbn [games with_games].
        by rewrite with_games_twice.
      * cbn [conn committed with_session]. rewrite IH.
        rewrite Hstep, Z.add_0_r.
        assert (Hle : n / batch_size * batch_size <= n) by nia.
        rewrite take_app_le by lia.
        destruct (Z.ltb_spec n batch_size) as [Hlt|Hge];
          destruct (Z.ltb_spec (n + 1) batch_size) as [Hlt'|Hge'];
          try reflexivity; try lia.
        exfalso. assert (n + 1 = batch_size) by lia.
        apply Hnz. replace (n + 1) with batch_size by lia.
        apply Z_mod_same_full.
    + rewrite app_nil_r.
      destruct (errors st1 + 1 <=? 5); cbn [conn print]; exact IH.
Qed.

End MoreLoader.

(** ** Failure isolation *)

Section FailureIsolation.
Context `{PyRuntime} `{Schema}.

Lemma accepted_elem (df : list (gmap string pyval)) (row : gmap string pyval)
      (kv : Z * gmap string sqlval) :
  row ∈ df -> row_outcome row = Ret kv -> kv ∈ accepted df.
Proof.
  intros Hin Ho. unfold accepted. apply list_elem_of_omap.
  exists row. split; [exact Hin|]. by rewrite Ho.
Qed.

Lemma first_write_elem (k : Z) (stmts : list (Z * gmap string sqlval)) :
  k ∈ stmts.*1 -> is_Some (first_write k stmts).
Proof.
  induction stmts as [|[k' n] stmts IH]; cbn [fmap list_fmap fst first_write].
  - by intros ?%elem_of_nil.
  - intros Hin. destruct (decide (k' = k)) as [->|Hne]; [by eexists|].
    apply IH. apply elem_of_cons in Hin as [Heq|Hin]; [congruence | done].
Qed.

Lemma last_write_key (k : Z) (stmts : list (Z * gmap string sqlval))
      (m : gmap string sqlval) :
  last_write k stmts = Some m -> k ∈ stmts.*1.
Proof.
  induction stmts as [|[k' n] stmts IH];
    cbn [fmap list_fmap fst last_write]; [discriminate|].
  destruct (last_write k stmts) as [m'|].
  - intros Hm. apply elem_of_cons. right. by apply IH.
  - destruct (decide (k' = k)) as [->|]; [intros _; by left | discriminate].
Qed.

Lemma write_unique (k : Z) (new : gmap string sqlval)
      (stmts : list (Z * gmap string sqlval)) :
  NoDup stmts.*1 -> (k, new) ∈ stmts ->
  last_write k stmts = Some new /\ first_write k stmts = Some new.
Proof.
  induction stmts as [|[k' n] stmts IH];
    cbn [fmap list_fmap fst first_write last_write].
  - by intros _ ?%elem_of_nil.
  - intros [Hk Hnd]%NoDup_cons Hin.
    apply elem_of_cons in Hin as [Heq|Hin].
    + injection Heq as <- <-. rewrite !decide_True by done.
      split; [|reflexivity].
      destruct (last_write k stmts) as [m|] eqn:Hl; [|reflexivity].
      destruct Hk. by apply (last_write_key k stmts m).
    + assert (Hne : k' <> k).
      { intros ->. apply Hk. apply list_elem_of_fmap. by exists (k, new). }
      destruct (IH Hnd Hin) as [-> ->].
      by rewrite decide_False by done.
Qed.

(** C6.  With a batch size other than zero the loop visits every record:
    each failing record adds one to the error counter and nothing to the
    stored state, each other record adds one to the success counter, and
    the error lines printed are those of the first five failing records.
    The table committed at the end holds the keys it had and the key of
    every accepted record, whose row carries the update-clause columns of
    the last accepted record for its key and, for a new key, the other
    columns of the first.  When exactly one record fails, refused by the
    storage, one error is reported, for that record; the state reached and
    committed is the one the other records alone produce; the key of each
    of the other records is in the committed table; and when their keys
    are distinct and new, the table has grown by one row for each of them,
    which is the row of that record. *)
Theorem load_games_isolates_failures (c : connection)
      (df : list (gmap string pyval)) (batch_size : Z) :
  batch_size <> 0 ->
  let st := load_games c df batch_size in
  let stored := games (committed (conn st)) in
  errors st = Z.of_nat (length (failure_lines 0 df)) /\
  inserted st = Z.of_nat (length (accepted df)) /\
  inserted st + errors st = Z.of_nat (length df) /\
  error_lines (stdout st) = take 5 (failure_lines 0 df) /\
  conn st = conn (load_games c (List.filter row_ok df) batch_size) /\
  dom stored = dom (games (session c)) ∪ list_to_set (accepted df).*1 /\
  (forall row k new,
      row ∈ df -> row_outcome row = Ret (k, new) ->
      exists kept,
        stored !! k = Some kept /\
        (last_write k (accepted df) = Some new ->
         forall col, col ∈ update_columns -> kept !! col = new !! col) /\
        (games (session c) !! k = None ->
         first_write k (accepted df) = Some new ->
         forall col, col ∉ update_columns -> kept !! col = new !! col)) /\
  (forall before row after values,
      df = before ++ row :: after ->
      Forall (fun r => row_ok r = true) before ->
      Forall (fun r => row_ok r = true) after ->
      map_row row = Ret values -> storage_rejects values = true ->
      errors st = 1 /\
      inserted st = Z.of_nat (length df) - 1 /\
      error_lines (stdout st)
      = [PrintErrorRow (length before) DatabaseError] /\
      conn st = conn (load_games c (before ++ after) batch_size) /\
      committed (conn st)
      = with_games (upsert_all (games (session c))
                      (accepted (before ++ after))) (session c) /\
      dom stored
      = dom (games (session c))
        ∪ list_to_set (accepted (before ++ after)).*1 /\
      (forall r, r ∈ before ++ after ->
         exists k new kept,
           row_outcome r = Ret (k, new) /\ stored !! k = Some kept) /\
      (NoDup (accepted (before ++ after)).*1 ->
       (forall k, k ∈ (accepted (before ++ after)).*1 ->
                  games (session c) !! k = None) ->
       Z.of_nat (size stored)
       = Z.of_nat (size (games (session c))) + (Z.of_nat (length df) - 1) /\
       forall r k new,
         r ∈ before ++ after -> row_outcome r = Ret (k, new) ->
         stored !! k = Some new)).
Proof.
  intros Hb st stored.
  assert (Hcount : errors st = Z.of_nat (length (failure_lines 0 df)) /\
                   inserted st = Z.of_nat (length (accepted df)) /\
                   error_lines (stdout st) = take 5 (failure_lines 0 df)).
  { subst st. unfold load_games. cbv zeta. cbn [errors inserted print stdout].
    match goal with
    | |- context [load_rows batch_size ?s 0 df] =>
        pose proof (load_rows_counters batch_size df s 0 Hb
                      ltac:(simpl; lia)) as (Hi & He & Hl);
        cbv zeta in Hi, He, Hl; simpl in Hi, He, Hl
    end.
    split; [exact He|]. split; [exact Hi|].
    rewrite !error_lines_app, Hl. simpl. by rewrite !app_nil_r. }
  destruct Hcount as (He & Hi & Hl).
  pose proof (accepted_failures_length df 0) as Hlen.
  pose proof (load_games_conn_filter c df batch_size Hb) as Hconn.
  fold st in Hconn.
  assert (Hstored : stored = upsert_all (games (session c)) (accepted df)).
  { subst stored st.
    destruct (load_games_session c df batch_size) as [Hs ->].
    by rewrite Hs. }
  pose proof (accepted_full df) as Hfull.
  assert (Hlook : forall k, stored !! k
            = match last_write k (accepted df),
                    first_write k (accepted df) with
              | Some final, Some first =>
                  Some (on_duplicate_key_update
                          (default first (games (session c) !! k)) final)
              | _, _ => games (session c) !! k
              end).
  { intros k. rewrite Hstored. by apply upsert_all_writes. }
  assert (Hdom : dom stored
                 = dom (games (session c))
                   ∪ list_to_set (accepted df).*1).
  { rewrite Hstored. apply upsert_all_dom. }
  split; [exact He|]. split; [exact Hi|]. split; [lia|].
  split; [exact Hl|]. split; [exact Hconn|]. split; [exact Hdom|].
  split.
  { intros row k new Hrow Ho.
    pose proof (accepted_elem df row (k, new) Hrow Ho) as Hin.
    assert (Hk : k ∈ (accepted df).*1)
      by (apply list_elem_of_fmap; by exists (k, new)).
    destruct (first_write_elem k _ Hk) as [first Hf].
    destruct (proj1 (first_last_write k (accepted df))) as [final Hlast];
      [by eexists|].
    specialize (Hlook k). rewrite Hlast, Hf in Hlook.
    eexists. split; [exact Hlook|]. split.
    - intros Hn col Hcol. rewrite Hlast in Hn. injection Hn as ->.
      rewrite odku_lookup, decide_True by exact Hcol.
      destruct (last_write_full _ _ _ Hfull Hlast col Hcol) as [v Hv].
      unfold column. by rewrite Hv.
    - intros Hnone Hn col Hcol. rewrite Hf in Hn. injection Hn as ->.
      rewrite Hnone. cbn [from_option id].
      by rewrite odku_lookup, decide_False by exact Hcol. }
  intros before row after values -> Hbefore Hafter Hm Hrej.
  pose proof (row_outcome_rejected _ _ Hm Hrej) as Ho.
  assert (Hfail : failure_lines 0 (before ++ row :: after)
                  = [PrintErrorRow (length before) DatabaseError]).
  { rewrite failure_lines_app, (failure_lines_all_ok before) by done.
    cbn [failure_lines]. rewrite Ho.
    by rewrite (failure_lines_all_ok after). }
  assert (Hfilter : List.filter row_ok (before ++ row :: after)
                    = before ++ after).
  { rewrite List.filter_app. cbn [List.filter]. unfold row_ok at 2.
    rewrite Ho. by rewrite !filter_row_ok_all. }
  assert (Hacc : accepted (before ++ row :: after)
                 = accepted (before ++ after)).
  { rewrite !accepted_app, accepted_cons. by rewrite Ho. }
  rewrite Hacc in *.
  rewrite Hfail in *. rewrite Hfilter in Hconn. simpl in He, Hlen.
  assert (Hothers : length (accepted (before ++ after))
                    = length (before ++ after)).
  { apply accepted_all_ok. apply Forall_app. by split. }
  split; [exact He|]. split; [lia|]. split; [exact Hl|].
  split; [exact Hconn|].
  split.
  { rewrite Hconn.
    destruct (load_games_session c (before ++ after) batch_size) as [Hs Hc].
    by rewrite Hc, Hs. }
  split; [exact Hdom|].
  assert (Hok : forall r, r ∈ before ++ after ->
            exists kv, row_outcome r = Ret kv
                       /\ kv ∈ accepted (before ++ after)).
  { intros r Hr.
    assert (Hrok : row_ok r = true).
    { apply elem_of_app in Hr as [Hr|Hr];
        [rewrite Forall_forall in Hbefore; by apply Hbefore
        |rewrite Forall_forall in Hafter; by apply Hafter]. }
    unfold row_ok in Hrok.
    destruct (row_outcome r) as [kv|e] eqn:Hkv; [|discriminate].
    exists kv. split; [reflexivity|]. by apply (accepted_elem _ r). }
  split.
  { intros r Hr. destruct (Hok r Hr) as ([k new] & Hkv & Hin).
    assert (Hk : k ∈ dom stored).
    { rewrite Hdom. apply elem_of_union_r, elem_of_list_to_set.
      apply list_elem_of_fmap. by exists (k, new). }
    apply elem_of_dom in Hk as [kept Hkept]. by exists k, new, kept. }
  intros Hnd Hfresh. split.
  - rewrite <- !size_dom, Hdom, size_union, size_list_to_set by
      (exact Hnd
       || (intros k Hk1 Hk2%elem_of_list_to_set;
           apply elem_of_dom in Hk1 as [? Hk1];
           rewrite (Hfresh k Hk2) in Hk1; discriminate)).
    rewrite length_fmap, Hothers.
    rewrite !length_app. cbn [length]. lia.
  - intros r k new Hr Hkv.
    destruct (Hok r Hr) as (kv & Hkv' & Hin). rewrite Hkv in Hkv'.
    injection Hkv' as <-.
    destruct (write_unique k new _ Hnd Hin) as [Hlast Hfirst].
    rewrite Hlook, Hlast, Hfirst, (Hfresh k).
    + cbn [from_option id]. rewrite odku_self; [reflexivity|].
      apply (last_write_full _ _ _ Hfull Hlast).
    + apply list_elem_of_fmap. by exists (k, new).
Qed.

End FailureIsolation.

(** ** More on delimited lists and the normalizer *)

Section Splitting.
Import Text TextSpec.

Lemma split_on_acc (sep : ascii) (cur s : list ascii) :
  exists p ps, split_on sep [] s = p :: ps
               /\ split_on sep cur s = (rev cur ++ p) :: ps.
Proof.
  revert cur. induction s as [|c s IH]; intros cur; cbn [split_on].
  - exists [], []. by rewrite app_nil_r.
  - destruct (Ascii.eqb c sep).
    + exists [], (split_on sep [] s). by rewrite app_nil_r.
    + destruct (IH [c]) as (p & ps & Hnil & Hc).
      destruct (IH (c :: cur)) as (p' & ps' & Hnil' & Hcur).
      assert (p' = p /\ ps' = ps) as [-> ->]
        by (rewrite Hnil in Hnil'; by injection Hnil').
      exists (c :: p), ps. rewrite Hc, Hcur. cbn [rev].
      split; [reflexivity | by rewrite <- app_assoc].
Qed.

Lemma split_on_cons (sep c : ascii) (s : list ascii) :
  split_on sep [] (c :: s)
  = if Ascii.eqb c sep then [] :: split_on sep [] s
    else match split_on sep [] s with
         | p :: ps => (c :: p) :: ps
         | [] => []
         end.
Proof.
  cbn [split_on]. destruct (Ascii.eqb c sep); [reflexivity|].
  destruct (split_on_acc sep [c] s) as (p & ps & -> & ->). reflexivity.
Qed.

Lemma split_on_sep (sep : ascii) (a b : list ascii) :
  split_on sep [] (a ++ sep :: b) = split_on sep [] a ++ split_on sep [] b.
Proof.
  induction a as [|c a IH]; cbn [app].
  - rewrite split_on_cons, Ascii.eqb_refl. reflexivity.
  - rewrite !split_on_cons, IH.
    destruct (Ascii.eqb c sep); [reflexivity|].
    destruct (split_on_acc sep [] a) as (p & ps & -> & _). reflexivity.
Qed.

Lemma split_on_whole (sep : ascii) (l : list ascii) :
  sep ∉ l -> split_on sep [] l = [l].
Proof.
  induction l as [|c l IH]; [reflexivity|].
  intros Hn. rewrite split_on_cons.
  destruct (Ascii.eqb_spec c sep) as [->|Hne].
  - destruct Hn. by left.
  - rewrite IH; [reflexivity|]. intros Hin. apply Hn. by right.
Qed.

Lemma split_on_pieces (sep : ascii) (l p : list ascii) :
  p ∈ split_on sep [] l -> sep ∉ p.
Proof.
  revert p. induction l as [|c l IH]; intros p.
  - cbn. intros ->%list_elem_of_singleton. apply not_elem_of_nil.
  - rewrite split_on_cons.
    destruct (Ascii.eqb_spec c sep) as [->|Hne].
    + intros [->|Hin]%elem_of_cons; [apply not_elem_of_nil | by apply IH].
    + destruct (split_on sep [] l) as [|q qs]; [by intros ?%elem_of_nil|].
      intros [->|Hin]%elem_of_cons.
      * intros [?|Hq]%elem_of_cons; [congruence|].
        revert Hq. apply IH. by left.
      * apply IH. by right.
Qed.

Lemma strip_sublist (l : list ascii) (c : ascii) :
  c ∈ rstrip (lstrip l) -> c ∈ l.
Proof.
  intros Hc.
  destruct (lstrip_split l) as (ws1 & H1 & _).
  destruct (rstrip_split (lstrip l)) as (ws2 & H2 & _).
  rewrite H1, H2, !elem_of_app. auto.
Qed.

Lemma strip_pieces (sep : ascii) (s : string) :
  Text.strip <$> (string_of_list_ascii <$>
                    split_on sep [] (list_ascii_of_string s))
  = string_of_list_ascii <$>
      ((fun l => rstrip (lstrip l)) <$>
         split_on sep [] (list_ascii_of_string s)).
Proof.
  rewrite <- !list_fmap_compose. apply list_fmap_ext. intros _ l _. cbn.
  unfold strip. by rewrite list_ascii_of_string_of_list_ascii.
Qed.

Lemma strip_pieces_clean (sep : ascii) (s piece : string) :
  piece ∈ Text.strip <$> (string_of_list_ascii <$>
                            split_on sep [] (list_ascii_of_string s)) ->
  Text.strip piece = piece /\ sep ∉ list_ascii_of_string piece.
Proof.
  intros (p & -> & (q & -> & Hq)%list_elem_of_fmap)%list_elem_of_fmap.
  split; [apply strip_idempotent|].
  rewrite strip_list, list_ascii_of_string_of_list_ascii.
  intros Hin%strip_sublist. by apply (split_on_pieces sep _ q Hq).
Qed.

Lemma space_not_comma (sep : ascii) (ws : list ascii) :
  is_space sep = false -> spaces ws -> sep ∉ ws.
Proof.
  unfold spaces. intros Hsep Hws Hin.
  rewrite Forall_forall in Hws. specialize (Hws sep Hin). congruence.
Qed.

Lemma clean_piece_list (sep : ascii) (piece : string) :
  clean_piece sep piece ->
  rstrip (lstrip (list_ascii_of_string piece)) = list_ascii_of_string piece
  /\ sep ∉ list_ascii_of_string piece.
Proof.
  intros (_ & Hs & Hc). split; [|exact Hc].
  by rewrite <- strip_list, Hs.
Qed.

Lemma string_of_list_fmap (labels : list string) :
  string_of_list_ascii <$> (list_ascii_of_string <$> labels) = labels.
Proof.
  rewrite <- list_fmap_compose. rewrite <- (list_fmap_id labels) at 2.
  apply list_fmap_ext. intros _ s _. cbn.
  apply string_of_list_ascii_of_string.
Qed.

Lemma filter_all {A} (P : A -> Prop) `{forall x, Decision (P x)}
      (l : list A) :
  Forall P l -> filter P l = l.
Proof.
  induction 1 as [|x l Hx _ IH]; [reflexivity|].
  by rewrite filter_cons_True, IH.
Qed.

Lemma split_joined (sep : ascii) (gap : string) (labels : list string)
      (ws : list ascii) :
  is_space sep = false ->
  labels <> [] -> spaces (list_ascii_of_string gap) -> spaces ws ->
  Forall (clean_piece sep) labels ->
  (fun l => rstrip (lstrip l)) <$>
    split_on sep []
      (ws ++ list_ascii_of_string (String.concat (String sep gap) labels))
  = list_ascii_of_string <$> labels.
Proof.
  intros Hsep Hne Hgap Hws Hall. revert ws Hws Hne.
  induction Hall as [|x labels Hx Hall IH]; intros ws Hws Hne; [done|].
  destruct (clean_piece_list _ _ Hx) as [Hsx Hcx].
  assert (Hhead : rstrip (lstrip (ws ++ list_ascii_of_string x))
                  = list_ascii_of_string x).
  { rewrite <- (app_nil_r (list_ascii_of_string x)) at 1.
    rewrite strip_surrounded; [exact Hsx | exact Hws | constructor]. }
  assert (Hno : sep ∉ ws ++ list_ascii_of_string x).
  { rewrite elem_of_app. intros [Hin|Hin]; [|by apply Hcx].
    by apply (space_not_comma sep ws). }
  destruct labels as [|y labels].
  - cbn [String.concat fmap list_fmap].
    rewrite split_on_whole by exact Hno. cbn [fmap list_fmap].
    by rewrite Hhead.
  - change (String.concat (String sep gap) (x :: y :: labels))
      with (x +:+ String sep gap
            +:+ String.concat (String sep gap) (y :: labels)).
    rewrite !list_ascii_of_string_app. cbn [list_ascii_of_string app].
    rewrite (app_assoc ws), split_on_sep, fmap_app.
    rewrite split_on_whole by exact Hno. cbn [fmap list_fmap app].
    rewrite Hhead. f_equal.
    by apply (IH (list_ascii_of_string gap)).
Qed.

(** The pieces of a text joined from clean pieces are those pieces. *)
Lemma pieces_of_joined (sep : ascii) (gap : string) (labels : list string) :
  is_space sep = false ->
  spaces (list_ascii_of_string gap) ->
  Forall (clean_piece sep) labels ->
  filter (fun t => t ≠ EmptyString)
    (Text.strip <$> (string_of_list_ascii <$>
       split_on sep []
         (list_ascii_of_string (String.concat (String sep gap) labels))))
  = labels.
Proof.
  intros Hsep Hgap Hall.
  destruct (decide (labels = [])) as [->|Hne]; [reflexivity|].
  pose proof (split_joined sep gap labels [] Hsep Hne Hgap
                ltac:(constructor) Hall) as Hsplit.
  cbn [app] in Hsplit.
  rewrite strip_pieces, Hsplit, string_of_list_fmap.
  apply filter_all. eapply Forall_impl; [exact Hall|].
  by intros label (Hl & _).
Qed.

(** The pieces of any text are clean. *)
Lemma pieces_clean (sep : ascii) (s : string) :
  Forall (clean_piece sep)
    (filter (fun t => t ≠ EmptyString)
       (Text.strip <$> (string_of_list_ascii <$>
          split_on sep [] (list_ascii_of_string s)))).
Proof.
  apply Forall_forall. intros label.
  rewrite list_elem_of_filter. intros [Hne Hin].
  destruct (strip_pieces_clean sep s label Hin) as [Hs Hc].
  by repeat split.
Qed.

(** X14.  Every label read from a delimited list is not empty, has no
    whitespace at either end and holds no comma. *)
Theorem tokens_are_clean (s : string) :
  Forall (clean_piece ",") (tokens s).
Proof.
  pose proof (pieces_clean "," s) as Hall.
  unfold tokens, split_comma.
  apply Forall_forall. intros label Hin.
  rewrite Forall_forall in Hall. apply Hall.
  by rewrite <- list_fmap_compose in *.
Qed.

(** X15.  Labels that are not empty, stripped and free of commas, joined
    by a comma and any run of whitespace, are read back as the same list
    in the same order. *)
Theorem tokens_of_joined_labels (gap : string) (labels : list string) :
  spaces (list_ascii_of_string gap) ->
  Forall (clean_piece ",") labels ->
  tokens (String.concat (String "," gap) labels) = labels.
Proof.
  intros Hgap Hall.
  pose proof (pieces_of_joined "," gap labels eq_refl Hgap Hall) as Hp.
  unfold tokens, split_comma. exact Hp.
Qed.

End Splitting.

Section MoreNormalizer.
Import Text TextSpec.

Lemma foldr_max_ge (ids : list Z) (id : Z) :
  id ∈ ids -> id <= foldr Z.max 0 ids.
Proof.
  induction ids as [|x ids IH]; [by intros ?%elem_of_nil|].
  cbn [foldr]. intros [->|Hin]%elem_of_cons; [lia|].
  specialize (IH Hin). lia.
Qed.

Lemma next_id_fresh (table : list (Z * string)) : next_id table ∉ table.*1.
Proof.
  intros Hin%foldr_max_ge. unfold next_id in Hin. lia.
Qed.

Lemma insert_labels_extends (labels : list string)
      (table : list (Z * string)) :
  exists added,
    foldl insert_ignore_label table labels = table ++ added /\
    NoDup added.*2 /\
    (NoDup table.*1 -> NoDup ((table ++ added).*1)) /\
    forall r, r ∈ added ->
      r.2 ∈ labels /\ (r.2 ∉ table.*2) /\ (r.1 ∉ table.*1).
Proof.
  revert table. induction labels as [|l labels IH]; intros table.
  - exists []. rewrite app_nil_r. split; [done|]. split; [constructor|].
    split; [done|]. by intros r ?%elem_of_nil.
  - cbn [foldl]. unfold insert_ignore_label at 2.
    destruct (decide (l ∈ table.*2)) as [Hin|Hout].
    + destruct (IH table) as (added & -> & Hnd & Hids & Hrows).
      exists added. repeat split; try done;
        destruct (Hrows r) as (? & ? & ?); try done. by right.
    + destruct (IH (table ++ [(next_id table, l)]))
        as (added & -> & Hnd & Hids & Hrows).
      exists ((next_id table, l) :: added).
      rewrite <- app_assoc. cbn [app]. split; [reflexivity|].
      assert (Hold : forall r, r ∈ added ->
                r.2 ∈ labels /\ (r.2 ∉ table.*2) /\ r.2 <> l
                /\ (r.1 ∉ table.*1)).
      { intros r Hr. destruct (Hrows r Hr) as (Hl & Hn & Hi).
        rewrite fmap_app, elem_of_app in Hn. rewrite fmap_app, elem_of_app in Hi.
        cbn in Hn, Hi. rewrite list_elem_of_singleton in Hn.
        repeat split; auto. }
      split; [|split].
      * cbn [fmap list_fmap snd]. constructor; [|exact Hnd].
        intros (r & Hr2 & Hr)%list_elem_of_fmap.
        destruct (Hold r Hr) as (_ & _ & Hne & _). cbn in Hr2. congruence.
      * intros Ht. rewrite <- app_assoc in Hids.
        apply Hids. rewrite fmap_app. apply NoDup_app. split; [exact Ht|].
        split; [|cbn; apply NoDup_singleton].
        intros id Hid ->%list_elem_of_singleton.
        by apply (next_id_fresh table).
      * intros r [->|Hr]%elem_of_cons; cbn [fst snd].
        -- split; [by left|]. split; [exact Hout | apply next_id_fresh].
        -- destruct (Hold r Hr) as (? & ? & ? & ?).
           split; [by right | by split].
Qed.

Lemma insert_labels_length (labels : list string)
      (table : list (Z * string)) :
  NoDup labels -> (forall l, l ∈ labels -> l ∉ table.*2) ->
  length (foldl insert_ignore_label table labels)
  = (length table + length labels)%nat.
Proof.
  intros Hnd. revert table.
  induction Hnd as [|l labels Hl Hnd IH]; intros table Hout; cbn [foldl].
  - cbn. lia.
  - unfold insert_ignore_label at 2.
    rewrite decide_False by (apply Hout; by left).
    rewrite IH.
    + rewrite length_app. cbn. lia.
    + intros l' Hl'. rewrite fmap_app, elem_of_app. cbn.
      rewrite list_elem_of_singleton.
      intros [Hin| ->]; [|done]. apply (Hout l'); [by right | exact Hin].
Qed.

Lemma insert_labels_bound (labels : list string)
      (table : list (Z * string)) :
  (length (foldl insert_ignore_label table labels)
   <= length table + length labels)%nat.
Proof.
  revert table. induction labels as [|l labels IH]; intros table;
    cbn [foldl length]; [lia|].
  etrans; [apply IH|]. unfold insert_ignore_label.
  case_decide; rewrite ?length_app; cbn [length]; lia.
Qed.

Lemma collected_labelled (c : string) (db : database) (label : string) :
  label ∈ elements (collect_labels (select_distinct c db))
  <-> labelled c db label.
Proof.
  rewrite elem_of_elements, elem_of_collect_labels. unfold labelled. split.
  - intros (s & (_ & k & row & Hk & Hc)%elem_of_select_distinct & Hl).
    by exists k, row, s.
  - intros (k & row & s & Hk & Hc & Hl).
    rewrite <- elem_of_collect_labels, <- elem_of_elements.
    by apply (tokens_collected c db k row s).
Qed.

Lemma populate_lookup_table (c : string) (db : database)
      (table : list (Z * string)) :
  let table' :=
    foldl insert_ignore_label table
      (elements (collect_labels (select_distinct c db))) in
  (exists added,
      table' = table ++ added /\ fresh_rows table added /\
      forall r, r ∈ added -> labelled c db r.2) /\
  (forall label,
      label ∈ table'.*2 <-> label ∈ table.*2 \/ labelled c db label) /\
  (NoDup table.*1 -> NoDup table'.*1).
Proof.
  cbv zeta.
  destruct (insert_labels_extends
              (elements (collect_labels (select_distinct c db))) table)
    as (added & Heq & Hnd & Hids & Hrows).
  split; [|split].
  - exists added. split; [exact Heq|]. split; [split; [exact Hnd|]|].
    + intros r Hr. by destruct (Hrows r Hr) as (_ & ? & ?).
    + intros r Hr. apply collected_labelled. by destruct (Hrows r Hr).
  - intros label. by rewrite insert_labels_names, collected_labelled.
  - rewrite Heq. exact Hids.
Qed.

(** X16.  The normalizer leaves the products alone and only appends to the
    lookup tables: the rows added carry labels the table did not have,
    each once, under identifiers it did not use, and each is a label of
    some stored product; afterwards a table holds the labels it had and
    the labels of the stored products, and unique identifiers stay
    unique. *)
Theorem populate_extends_lookup_tables (c : connection) :
  let db := session c in
  let db' := session (populate_normalized_tables c).1 in
  games db' = games db /\
  (exists added,
      genres db' = genres db ++ added /\ fresh_rows (genres db) added /\
      forall r, r ∈ added -> labelled "genres" db r.2) /\
  (exists added,
      tags db' = tags db ++ added /\ fresh_rows (tags db) added /\
      forall r, r ∈ added -> labelled "tags" db r.2) /\
  (forall label,
      label ∈ (genres db').*2
      <-> label ∈ (genres db).*2 \/ labelled "genres" db label) /\
  (forall label,
      label ∈ (tags db').*2
      <-> label ∈ (tags db).*2 \/ labelled "tags" db label) /\
  (NoDup (genres db).*1 -> NoDup (genres db').*1) /\
  (NoDup (tags db).*1 -> NoDup (tags db').*1).
Proof.
  cbv zeta. destruct (populate_session c) as [-> _].
  cbn [games genres tags].
  destruct (populate_lookup_table "genres" (session c) (genres (session c)))
    as (Hg1 & Hg2 & Hg3).
  destruct (populate_lookup_table "tags" (session c) (tags (session c)))
    as (Ht1 & Ht2 & Ht3).
  repeat split; assumption || apply Hg2 || apply Ht2.
Qed.

(** X17.  The counts the normalizer prints bound the growth of the lookup
    tables, and on empty lookup tables they are the numbers of rows
    afterwards. *)
Theorem populate_reports_label_counts (c : connection) :
  let db := session c in
  let db' := session (populate_normalized_tables c).1 in
  exists n m,
    (populate_normalized_tables c).2
    = [PrintPopulating; PrintFoundGenres n; PrintFoundTags m;
       PrintPopulated] /\
    (length (genres db') <= length (genres db) + n)%nat /\
    (length (tags db') <= length (tags db) + m)%nat /\
    (genres db = [] -> length (genres db') = n) /\
    (tags db = [] -> length (tags db') = m).
Proof.
  cbv zeta. destruct (populate_session c) as [-> _].
  cbn [genres tags].
  exists (size (collect_labels (select_distinct "genres" (session c)))),
         (size (collect_labels (select_distinct "tags" (session c)))).
  split; [reflexivity|].
  split; [apply insert_labels_bound|]. split; [apply insert_labels_bound|].
  split; intros ->;
    (rewrite insert_labels_length;
     [reflexivity | apply NoDup_elements
      | intros l _; apply not_elem_of_nil]).
Qed.

Lemma insert_ignore_pair_extends (junction : list (Z * Z)) (pair : Z * Z) :
  exists added, insert_ignore_pair junction pair = junction ++ added.
Proof.
  unfold insert_ignore_pair. case_decide; [exists [] | by eexists].
  by rewrite app_nil_r.
Qed.

Lemma foldl_extends {A B} (f : list A -> B -> list A) (l : list B)
      (start : list A) :
  (forall j x, exists added, f j x = j ++ added) ->
  exists added, foldl f start l = start ++ added.
Proof.
  intros Hf. revert start. induction l as [|x l IH]; intros start;
    cbn [foldl].
  - exists []. by rewrite app_nil_r.
  - destruct (Hf start x) as (a1 & ->). destruct (IH (start ++ a1))
      as (a2 & ->). exists (a1 ++ a2). by rewrite app_assoc.
Qed.

Lemma link_rows_extends (table : list (Z * string))
      (rows : list (Z * string)) (junction : list (Z * Z)) :
  exists added, link_rows table rows junction = junction ++ added.
Proof.
  unfold link_rows. apply foldl_extends. intros j r.
  case_decide; [exists []; by rewrite app_nil_r|].
  apply foldl_extends. intros j' label.
  unfold insert_links. apply foldl_extends. intros j'' r'.
  case_decide; [apply insert_ignore_pair_extends|].
  exists []. by rewrite app_nil_r.
Qed.

(** X18.  The normalizer only appends to the genre junction table, and a
    link is there afterwards exactly when it was there before or joins a
    stored product to a row of the genre table that carries one of the
    product's own labels. *)
Theorem populate_links_exactly (c : connection) (k id : Z) :
  let db := session c in
  let db' := session (populate_normalized_tables c).1 in
  (exists added, game_genres db' = game_genres db ++ added) /\
  ((k, id) ∈ game_genres db'
   <-> (k, id) ∈ game_genres db
       \/ exists label,
            (id, label) ∈ genres db' /\ carries "genres" db k label).
Proof.
  cbv zeta. destruct (populate_session c) as [-> _].
  cbn [game_genres genres]. split; [apply link_rows_extends|].
  rewrite link_rows_elem. cbn [fst snd]. unfold carries.
  split; (intros [Hold|Hnew]; [by left | right]).
  - destruct Hnew as (s & label & (row & Hk & Hc)%elem_of_select_keyed
                      & Hl & Hid).
    exists label. split; [exact Hid|]. by exists row, s.
  - destruct Hnew as (label & Hid & row & s & Hk & Hc & Hl).
    exists s, label. split; [|by split].
    apply elem_of_select_keyed. by exists row.
Qed.

(** X19.  The uniqueness constraints of the lookup and junction tables
    survive a run of the normalizer. *)
Theorem populate_preserves_constraints (c : connection) :
  constraints_hold (session c) ->
  constraints_hold (session (populate_normalized_tables c).1).
Proof.
  intros (Hg & Hgg & Ht & Hgt).
  destruct (populate_session c) as [-> _].
  unfold constraints_hold. cbn [genres game_genres tags game_tags].
  split; [by apply insert_labels_NoDup|].
  split; [by apply link_rows_NoDup|].
  split; [by apply insert_labels_NoDup | exact Hgt].
Qed.

End MoreNormalizer.

(** ** The schema installer, the entry point and the server's statements *)

Section SchemaInstaller.
Context `{SchemaServer}.
Import Text TextSpec.

Lemma run_statements_from (db : database) (out : list schema_line)
      (statements : list string) :
  foldl (fun st statement =>
           match execute_statement statement st.1 with
           | inl db => (db, st.2)
           | inr e => (st.1, st.2 ++ [PrintWarning e])
           end)
        (db, out) statements
  = ((run_statements db statements).1,
     out ++ (run_statements db statements).2).
Proof.
  unfold run_statements.
  induction statements as [|s statements IH] using rev_ind.
  - cbn. by rewrite app_nil_r.
  - rewrite !foldl_app. cbn [foldl]. rewrite IH. cbn [fst snd].
    destruct (execute_statement s _); cbn [fst snd];
      [reflexivity | by rewrite app_assoc].
Qed.

Lemma run_statements_app (db : database) (s1 s2 : list string) :
  run_statements db (s1 ++ s2)
  = let r1 := run_statements db s1 in
    let r2 := run_statements r1.1 s2 in
    (r2.1, r1.2 ++ r2.2).
Proof.
  cbv zeta. unfold run_statements at 1. rewrite foldl_app.
  fold (run_statements db s1).
  destruct (run_statements db s1) as [db1 out1]. cbn [fst snd].
  apply run_statements_from.
Qed.

Lemma run_pieces (pieces : list string) (st : database * list schema_line) :
  foldl run_piece st pieces
  = foldl (fun st statement =>
             match execute_statement statement st.1 with
             | inl db => (db, st.2)
             | inr e => (st.1, st.2 ++ [PrintWarning e])
             end)
          st (filter (fun t => t ≠ EmptyString) (Text.strip <$> pieces)).
Proof.
  revert st. induction pieces as [|p pieces IH]; intros st; [reflexivity|].
  cbn [foldl fmap list_fmap]. rewrite IH. unfold run_piece.
  cbv zeta. destruct (decide (strip p = EmptyString)) as [He|Hne].
  - by rewrite filter_cons_False by (intros Hn; by apply Hn).
  - by rewrite filter_cons_True by exact Hne.
Qed.

Lemma schema_statements_sep (a b : string) :
  schema_statements (a +:+ ";" +:+ b)
  = schema_statements a ++ schema_statements b.
Proof.
  unfold schema_statements, split_semicolon.
  rewrite !list_ascii_of_string_app. cbn [list_ascii_of_string app].
  rewrite split_on_sep, map_app, fmap_app. apply filter_app.
Qed.

Lemma schema_statements_spaces (ws : string) :
  spaces (list_ascii_of_string ws) -> schema_statements ws = [].
Proof.
  intros Hws. unfold schema_statements, split_semicolon.
  rewrite split_on_whole by (by apply space_not_comma).
  cbn [map fmap list_fmap].
  rewrite string_of_list_ascii_of_string.
  assert (Hs : strip ws = EmptyString).
  { unfold strip.
    rewrite <- (app_nil_r (list_ascii_of_string ws)).
    change (list_ascii_of_string ws ++ [])
      with (list_ascii_of_string ws ++ [] ++ []).
    rewrite strip_surrounded by (exact Hws || constructor). reflexivity. }
  rewrite Hs. reflexivity.
Qed.

(** X20.  The schema installer sends the server the pieces of the text
    between semicolons, stripped and without the empty ones, in order;
    none of them holds a semicolon.  A statement that fails adds a
    warning and nothing else, and the run ends with one commit of the
    state the statements left. *)
Theorem execute_schema_runs_statements (c : connection)
      (schema_sql : string) :
  let ran := run_statements (session c) (schema_statements schema_sql) in
  Forall (clean_piece ";") (schema_statements schema_sql) /\
  execute_schema c schema_sql
  = (commit (with_session ran.1 c),
     [PrintCreating] ++ ran.2 ++ [PrintCreated]) /\
  committed (execute_schema c schema_sql).1
  = session (execute_schema c schema_sql).1.
Proof.
  cbv zeta. split; [|split; [|reflexivity]].
  - pose proof (pieces_clean ";" schema_sql) as Hall.
    unfold schema_statements, split_semicolon.
    apply Forall_forall. intros s Hin.
    rewrite Forall_forall in Hall. apply Hall.
    by rewrite <- list_fmap_compose in *.
  - unfold execute_schema. cbv zeta.
    rewrite run_pieces.
    fold (schema_statements schema_sql).
    rewrite run_statements_from. cbn [fst snd].
    by rewrite <- app_assoc.
Qed.

(** X21.  A schema text written from statements that are not empty,
    stripped and free of semicolons, each followed by a semicolon and any
    whitespace, makes the installer run exactly those statements in
    order. *)
Theorem execute_schema_joined (c : connection) (gap : string)
      (statements : list string) :
  spaces (list_ascii_of_string gap) ->
  Forall (clean_piece ";") statements ->
  let ran := run_statements (session c) statements in
  let written := String.concat (String ";" gap) statements in
  schema_statements written = statements /\
  schema_statements (written +:+ ";" +:+ gap) = statements /\
  execute_schema c (written +:+ ";" +:+ gap)
  = (commit (with_session ran.1 c),
     [PrintCreating] ++ ran.2 ++ [PrintCreated]).
Proof.
  intros Hgap Hall. cbv zeta.
  assert (Hw : schema_statements (String.concat (String ";" gap) statements)
               = statements).
  { pose proof (pieces_of_joined ";" gap statements eq_refl Hgap Hall)
      as Hp.
    unfold schema_statements, split_semicolon. exact Hp. }
  assert (Ht : schema_statements
                 (String.concat (String ";" gap) statements
                  +:+ ";" +:+ gap) = statements).
  { by rewrite schema_statements_sep, Hw, schema_statements_spaces,
      app_nil_r. }
  split; [exact Hw|]. split; [exact Ht|].
  unfold execute_schema. cbv zeta. rewrite run_pieces.
  match goal with
  | |- context [filter _ (strip <$> split_semicolon ?s)] =>
      change (filter _ (strip <$> split_semicolon s))
        with (schema_statements s)
  end.
  rewrite Ht, run_statements_from. cbn [fst snd].
  by rewrite <- app_assoc.
Qed.

(** X22.  Every semicolon of the schema text ends a statement: the
    installer on a text cut at a semicolon leaves the state that the
    installer leaves on the first part followed by the installer on the
    second, with one commit for the whole text. *)
Theorem execute_schema_sequential (c : connection) (a b : string) :
  let first := execute_schema c a in
  let second := execute_schema first.1 b in
  let whole := execute_schema c (a +:+ ";" +:+ b) in
  schema_statements (a +:+ ";" +:+ b)
  = schema_statements a ++ schema_statements b /\
  session whole.1 = session second.1 /\
  committed whole.1 = committed second.1 /\
  commits whole.1 = S (commits c).
Proof.
  cbv zeta. split; [apply schema_statements_sep|].
  unfold execute_schema. cbv zeta. rewrite !run_pieces.
  repeat match goal with
  | |- context [filter _ (strip <$> split_semicolon ?s)] =>
      change (filter _ (strip <$> split_semicolon s))
        with (schema_statements s)
  end.
  rewrite schema_statements_sep, !run_statements_from.
  cbn [fst snd session committed commits commit with_session].
  rewrite run_statements_app. cbn [fst snd].
  repeat split; reflexivity.
Qed.

End SchemaInstaller.

Section EntryPoint.
Context `{PyRuntime} `{Schema} `{SchemaServer}.

Lemma main_unfold (b : Server.backend) (schema_sql : string)
      (df : list (gmap string pyval)) :
  Server.reachable b = true ->
  let installed := (execute_schema (connect (Server.stored b)) schema_sql).1 in
  let loaded := conn (load_games installed df 500) in
  let final := (populate_normalized_tables loaded).1 in
  exists out,
    main b schema_sql df
    = (Ret (session final),
       out ++ [PrintVerification (size (games (session final))); PrintDone])
    /\ games (session final)
       = upsert_all (games (session installed)) (accepted df).
Proof.
  intros Hr. cbv zeta. unfold main, create_connection. rewrite Hr.
  cbv zeta.
  destruct (execute_schema (connect (Server.stored b)) schema_sql)
    as [conn1 printed1] eqn:He. cbn [fst].
  destruct (populate_session (conn (load_games conn1 df 500)))
    as [Hs Hc].
  destruct (populate_normalized_tables (conn (load_games conn1 df 500)))
    as [conn2 printed2] eqn:Hp. cbn [fst] in *.
  eexists. split.
  - rewrite Hc, <- (app_assoc _ [PrintVerification _] [PrintDone]).
    reflexivity.
  - rewrite Hs. cbn [games].
    destruct (load_games_session conn1 df 500) as [-> _]. reflexivity.
Qed.

Lemma carries_linked (c : connection) (k : Z) (label : string) :
  let db' := session (populate_normalized_tables c).1 in
  carries "genres" db' k label ->
  exists id, (id, label) ∈ genres db' /\ (k, id) ∈ game_genres db'.
Proof.
  cbv zeta. destruct (populate_session c) as [-> _].
  unfold carries. cbn [games genres game_genres].
  intros (row & s & Hk & Hc & Hl).
  assert (Hin : label ∈ (foldl insert_ignore_label (genres (session c))
                   (elements (collect_labels
                      (select_distinct "genres" (session c))))).*2).
  { apply insert_labels_names. right.
    by apply (tokens_collected "genres" (session c) k row s). }
  apply list_elem_of_fmap in Hin as ([id l] & Hl2 & Hin). cbn in Hl2.
  subst l. exists id. split; [exact Hin|].
  apply (link_rows_linked _ _ (game_genres (session c)) k s label id);
    [|exact Hl | exact Hin].
  apply elem_of_select_keyed. by exists row.
Qed.

(** X23.  When the server is reached, the entry point prints as its
    verification count the number of products of the database it leaves,
    whose products are those the schema statements left, updated by the
    accepted records, and in which every genre label of a product is
    linked to it; nothing is lost when the connection closes.  When the
    server is not reached, it prints the heading and the error and stops
    with the connector's error. *)
Theorem main_verifies_what_it_stored (b : Server.backend)
      (schema_sql : string) (df : list (gmap string pyval)) :
  let installed :=
    session (execute_schema (connect (Server.stored b)) schema_sql).1 in
  if Server.reachable b then
    exists db out,
      main b schema_sql df
      = (Ret db, out ++ [PrintVerification (size (games db)); PrintDone]) /\
      games db = upsert_all (games installed) (accepted df) /\
      dom (games db) = dom (games installed) ∪ list_to_set (accepted df).*1 /\
      forall k label,
        carries "genres" db k label ->
        exists id, (id, label) ∈ genres db /\ (k, id) ∈ game_genres db
  else
    main b schema_sql df
    = (Raise DatabaseError,
       [PrintRule; PrintTitle; PrintRule; PrintConnectError]).
Proof.
  cbv zeta. destruct (Server.reachable b) eqn:Hr.
  - destruct (main_unfold b schema_sql df Hr) as (out & Hm & Hg).
    cbv zeta in Hm, Hg. eexists _, out. split; [exact Hm|].
    split; [exact Hg|]. split.
    + rewrite Hg. apply upsert_all_dom.
    + intros k label. apply carries_linked.
  - unfold main, create_connection. by rewrite Hr.
Qed.

(** X24.  After a run of the entry point the detail query of the server
    finds every product named by an accepted record, with the
    update-clause columns of the last such record; for any other key it
    gives the row the schema statements left, or the error object. *)
Theorem main_then_get_game_details (b : Server.backend)
      (schema_sql : string) (df : list (gmap string pyval))
      (db : database) (out : list main_line) :
  main b schema_sql df = (Ret db, out) ->
  let installed :=
    session (execute_schema (connect (Server.stored b)) schema_sql).1 in
  let served := {| Server.reachable := true; Server.stored := db |} in
  (forall k final,
      last_write k (accepted df) = Some final ->
      exists row,
        Server.get_game_details served k = Ret row /\
        forall col, col ∈ update_columns -> row !! col = final !! col) /\
  (forall k,
      last_write k (accepted df) = None ->
      Server.get_game_details served k
      = Ret (default {[ "error" := SStr "Game not found" ]}
               (games installed !! k))).
Proof.
  intros Hm. cbv zeta.
  assert (Hr : Server.reachable b = true).
  { unfold main, create_connection in Hm.
    destruct (Server.reachable b); [reflexivity | discriminate]. }
  pose proof (main_unfold b schema_sql df Hr) as Hu. cbv zeta in Hu.
  set (left := session (populate_normalized_tables _).1) in Hu.
  destruct Hu as (out' & Hm' & Hg). rewrite Hm in Hm'.
  assert (db = left) as -> by congruence. clearbody left. clear Hm Hm'.
  set (g0 := games (session (execute_schema (connect (Server.stored b))
                               schema_sql).1)) in *.
  clearbody g0.
  unfold Server.get_game_details, Server.execute_query,
    Server.get_db_connection. cbn [Server.reachable Server.stored].
  pose proof (accepted_full df) as Hfull.
  split.
  - intros k final Hl.
    pose proof (upsert_all_writes (accepted df) g0 k Hfull) as Hw.
    rewrite <- Hg, Hl in Hw.
    destruct (first_write k (accepted df)) as [first|] eqn:Hf.
    + cbn. rewrite Hw. eexists. split; [reflexivity|].
      intros col Hcol. rewrite odku_lookup, decide_True by exact Hcol.
      pose proof (last_write_full _ _ _ Hfull Hl) as Hin.
      destruct (Hin col Hcol) as [v Hv]. unfold column. by rewrite Hv.
    + destruct (proj2 (first_last_write k (accepted df)))
        as [? ?]; [by eexists | congruence].
  - intros k Hl.
    pose proof (upsert_all_writes (accepted df) g0 k Hfull) as Hw.
    rewrite <- Hg, Hl in Hw. cbn. rewrite Hw.
    by destruct (g0 !! k).
Qed.

End EntryPoint.

Section Queries.
Import Query.

Lemma placeholders_app_len (len : nat) (a b : list ascii) (n m : nat) :
  (length a <= len)%nat ->
  placeholders a = Some n -> placeholders b = Some m ->
  placeholders (a ++ b) = Some (n + m)%nat.
Proof.
  revert a n. induction len as [|len IH]; intros a n Hlen Ha Hb.
  - destruct a; [|cbn in Hlen; lia]. cbn in Ha. injection Ha as <-.
    exact Hb.
  - destruct a as [|c a]; [cbn in Ha; injection Ha as <-; exact Hb|].
    cbn [app placeholders] in *.
    destruct (Ascii.eqb c "%").
    + destruct a as [|x a]; [discriminate|]. cbn [app].
      cbn [length] in Hlen.
      destruct (Ascii.eqb x "s").
      * destruct (placeholders a) as [k|] eqn:Hk; [|discriminate].
        cbn in Ha. injection Ha as <-.
        rewrite (IH a k) by (lia || assumption). reflexivity.
      * destruct (Ascii.eqb x "%"); [|discriminate].
        apply IH; [lia | assumption..].
    + cbn [length] in Hlen. apply IH; [lia | assumption..].
Qed.

Lemma placeholders_append (a b : string) (n m : nat) :
  placeholders (list_ascii_of_string a) = Some n ->
  placeholders (list_ascii_of_string b) = Some m ->
  placeholders (list_ascii_of_string (a +:+ b)) = Some (n + m)%nat.
Proof.
  rewrite list_ascii_of_string_app. by apply placeholders_app_len with
    (len := length (list_ascii_of_string a)).
Qed.

Lemma append_assoc (a b c : string) : (a +:+ b) +:+ c = a +:+ (b +:+ c).
Proof.
  rewrite <- (string_of_list_ascii_of_string ((a +:+ b) +:+ c)),
    <- (string_of_list_ascii_of_string (a +:+ (b +:+ c))).
  by rewrite !list_ascii_of_string_app, app_assoc.
Qed.

Lemma join_and_snoc (conditions : list string) (c : string) :
  join_and (conditions ++ [c])
  = match conditions with
    | [] => c
    | _ :: _ => join_and conditions +:+ " AND " +:+ c
    end.
Proof.
  unfold join_and.
  induction conditions as [|x conditions IH]; [reflexivity|].
  destruct conditions as [|y conditions]; [reflexivity|].
  change (String.concat " AND " ((x :: y :: conditions) ++ [c]))
    with (x +:+ " AND " +:+ String.concat " AND " ((y :: conditions) ++ [c])).
  rewrite IH.
  change (String.concat " AND " (x :: y :: conditions))
    with (x +:+ " AND " +:+ String.concat " AND " (y :: conditions)).
  by rewrite !append_assoc.
Qed.

Lemma balanced_add (q : list string * list param) (c : string)
      (ps : list param) :
  balanced q ->
  placeholders (list_ascii_of_string c) = Some (length ps) ->
  balanced (q.1 ++ [c], q.2 ++ ps).
Proof.
  unfold balanced. cbn [fst snd]. intros Hq Hc.
  rewrite join_and_snoc, length_app.
  destruct q.1 as [|x l] eqn:Hl.
  - cbn in Hq. injection Hq as <-. exact Hc.
  - apply placeholders_append; [exact Hq|].
    by apply (placeholders_append " AND " c 0).
Qed.

Lemma balanced_add_plain (q : list string * list param) (c : string) :
  balanced q ->
  placeholders (list_ascii_of_string c) = Some 0%nat ->
  balanced (q.1 ++ [c], q.2).
Proof.
  intros Hq Hc. rewrite <- (app_nil_r q.2). by apply balanced_add.
Qed.

(** The conditions that the filters of [search_games] contribute, in the
    order of the code. *)
Lemma search_games_cases (name genre : option string)
      (min_price max_price : option pyfloat)
      (min_positive_reviews : option Z) (platform : option string)
      (limit : Z) (P : string * list param -> Prop) :
  (forall q : list string * list param,
      balanced q -> (length q.2 <= 5)%nat ->
      q.1 = ((((([]
             ++ match given name with Some _ => ["name LIKE %s"] | None => [] end)
             ++ match given genre with
                | Some _ => ["genres LIKE %s"] | None => [] end)
             ++ match min_price with
                | Some _ => ["price >= %s"] | None => [] end)
             ++ match max_price with
                | Some _ => ["price <= %s"] | None => [] end)
             ++ match min_positive_reviews with
                | Some _ => ["positive_reviews >= %s"] | None => [] end)
             ++ match Text.lower <$> given platform with
                | Some p =>
                    if String.eqb p "windows" then ["windows = TRUE"]
                    else if String.eqb p "mac" then ["mac = TRUE"]
                    else if String.eqb p "linux" then ["linux = TRUE"]
                    else []
                | None => []
                end ->
      P (search_games_select
         +:+ match q.1 with [] => "1=1" | _ :: _ => join_and q.1 end
         +:+ search_games_order,
         q.2 ++ [PInteger (Z.min limit 100)])) ->
  P (search_games name genre min_price max_price min_positive_reviews
       platform limit).
Proof.
  intros HP. cbv delta [search_games]. cbv beta.
  lazymatch goal with
  | |- P (let q := ?e in @?b q) =>
      change (let q := e in P (b q)); cbv beta; intros q0
  end.
  assert (Hb0 : balanced q0) by reflexivity.
  assert (Hl0 : (length q0.2 <= 0)%nat) by (cbn; lia).
  assert (Hc0 : q0.1 = []) by reflexivity.
  clearbody q0.
  lazymatch goal with
  | |- P (let q := ?e in @?b q) =>
      change (let q := e in P (b q)); cbv beta; intros q1
  end.
  assert (Hb1 : balanced q1)
    by (subst q1; destruct (given name);
        [by apply (balanced_add _ _ [_]) | exact Hb0]).
  assert (Hl1 : (length q1.2 <= 1)%nat)
    by (subst q1; destruct (given name); cbn [snd];
        rewrite ?length_app; cbn [length]; lia).
  assert (Hc1 : q1.1 = q0.1 ++ match given name with
                               | Some _ => ["name LIKE %s"] | None => []
                               end)
    by (subst q1; destruct (given name); cbn [fst];
        by rewrite ?app_nil_r).
  rewrite Hc0 in Hc1. clearbody q1. clear q0 Hb0 Hl0 Hc0.
  lazymatch goal with
  | |- P (let q := ?e in @?b q) =>
      change (let q := e in P (b q)); cbv beta; intros q2
  end.
  assert (Hb2 : balanced q2)
    by (subst q2; destruct (given genre);
        [by apply (balanced_add _ _ [_]) | exact Hb1]).
  assert (Hl2 : (length q2.2 <= 2)%nat)
    by (subst q2; destruct (given genre); cbn [snd];
        rewrite ?length_app; cbn [length]; lia).
  assert (Hc2 : q2.1 = q1.1 ++ match given genre with
                               | Some _ => ["genres LIKE %s"] | None => []
                               end)
    by (subst q2; destruct (given genre); cbn [fst];
        by rewrite ?app_nil_r).
  rewrite Hc1 in Hc2. clearbody q2. clear q1 Hb1 Hl1 Hc1.
  lazymatch goal with
  | |- P (let q := ?e in @?b q) =>
      change (let q := e in P (b q)); cbv beta; intros q3
  end.
  assert (Hb3 : balanced q3)
    by (subst q3; destruct min_price;
        [by apply (balanced_add _ _ [_]) | exact Hb2]).
  assert (Hl3 : (length q3.2 <= 3)%nat)
    by (subst q3; destruct min_price; cbn [snd];
        rewrite ?length_app; cbn [length]; lia).
  assert (Hc3 : q3.1 = q2.1 ++ match min_price with
                               | Some _ => ["price >= %s"] | None => []
                               end)
    by (subst q3; destruct min_price; cbn [fst]; by rewrite ?app_nil_r).
  rewrite Hc2 in Hc3. clearbody q3. clear q2 Hb2 Hl2 Hc2.
  lazymatch goal with
  | |- P (let q := ?e in @?b q) =>
      change (let q := e in P (b q)); cbv beta; intros q4
  end.
  assert (Hb4 : balanced q4)
    by (subst q4; destruct max_price;
        [by apply (balanced_add _ _ [_]) | exact Hb3]).
  assert (Hl4 : (length q4.2 <= 4)%nat)
    by (subst q4; destruct max_price; cbn [snd];
        rewrite ?length_app; cbn [length]; lia).
  assert (Hc4 : q4.1 = q3.1 ++ match max_price with
                               | Some _ => ["price <= %s"] | None => []
                               end)
    by (subst q4; destruct max_price; cbn [fst]; by rewrite ?app_nil_r).
  rewrite Hc3 in Hc4. clearbody q4. clear q3 Hb3 Hl3 Hc3.
  lazymatch goal with
  | |- P (let q := ?e in @?b q) =>
      change (let q := e in P (b q)); cbv beta; intros q5
  end.
  assert (Hb5 : balanced q5)
    by (subst q5; destruct min_positive_reviews;
        [by apply (balanced_add _ _ [_]) | exact Hb4]).
  assert (Hl5 : (length q5.2 <= 5)%nat)
    by (subst q5; destruct min_positive_reviews; cbn [snd];
        rewrite ?length_app; cbn [length]; lia).
  assert (Hc5 : q5.1 = q4.1 ++ match min_positive_reviews with
                               | Some _ => ["positive_reviews >= %s"]
                               | None => []
                               end)
    by (subst q5; destruct min_positive_reviews; cbn [fst];
        by rewrite ?app_nil_r).
  rewrite Hc4 in Hc5. clearbody q5. clear q4 Hb4 Hl4 Hc4.
  lazymatch goal with
  | |- P (let q := ?e in @?b q) =>
      change (let q := e in P (b q)); cbv beta; intros q6
  end.
  assert (H6 : balanced q6 /\ q6.2 = q5.2 /\
               q6.1 = q5.1 ++ match Text.lower <$> given platform with
                              | Some p =>
                                  if String.eqb p "windows"
                                  then ["windows = TRUE"]
                                  else if String.eqb p "mac"
                                  then ["mac = TRUE"]
                                  else if String.eqb p "linux"
                                  then ["linux = TRUE"]
                                  else []
                              | None => []
                              end).
  { subst q6. destruct (given platform) as [p|]; cbn [fmap option_fmap
      option_map]; cbv zeta;
      [|by rewrite app_nil_r].
    destruct (String.eqb (Text.lower p) "windows");
      [split; [by apply balanced_add_plain | done]|].
    destruct (String.eqb (Text.lower p) "mac");
      [split; [by apply balanced_add_plain | done]|].
    destruct (String.eqb (Text.lower p) "linux");
      [split; [by apply balanced_add_plain | done]|].
    by rewrite app_nil_r. }
  destruct H6 as (Hb6 & Hp6 & Hc6). rewrite Hc5 in Hc6.
  rewrite <- Hp6 in Hl5. clearbody q6. clear q5 Hb5 Hc5 Hp6.
  cbv zeta. by apply HP.
Qed.

Lemma where_clause_balanced (q : list string * list param) :
  balanced q ->
  placeholders
    (list_ascii_of_string
       match q.1 with [] => "1=1" | _ :: _ => join_and q.1 end)
  = Some (length q.2).
Proof.
  unfold balanced. destruct q.1; [|done]. cbn. by intros <-.
Qed.

(** X25.  The statement that [search_games] builds holds one placeholder
    for each of its parameters and no other percent sign; the last
    parameter is the limit, capped at 100, after at most five filter
    values. *)
Theorem search_games_statement_well_formed (name genre : option string)
      (min_price max_price : option pyfloat)
      (min_positive_reviews : option Z) (platform : option string)
      (limit : Z) :
  let statement :=
    search_games name genre min_price max_price min_positive_reviews
      platform limit in
  placeholders (list_ascii_of_string statement.1)
  = Some (length statement.2) /\
  (exists filters,
      statement.2 = filters ++ [PInteger (Z.min limit 100)]
      /\ (length filters <= 5)%nat) /\
  Z.min limit 100 <= 100.
Proof.
  cbv zeta. apply search_games_cases. intros q Hb Hl _.
  cbn [fst snd]. split; [|split; [by exists q.2 | lia]].
  rewrite length_app. cbn [length].
  apply (placeholders_append _ _ 0); [reflexivity|].
  apply placeholders_append; [by apply where_clause_balanced | reflexivity].
Qed.

Lemma present_cases {A B} (a : option A) (b : option B) :
  (is_Some a <-> is_Some b) ->
  (exists x y, a = Some x /\ b = Some y) \/ (a = None /\ b = None).
Proof.
  destruct a as [x|], b as [y|]; intros [H1 H2].
  - left. by exists x, y.
  - destruct H1 as [? ?]; [by eexists | discriminate].
  - destruct H2 as [? ?]; [by eexists | discriminate].
  - by right.
Qed.

(** X26.  The text of the statement of [search_games] is fixed by which
    filters are given and by the platform in lower case: the values of the
    filters reach the server as parameters only. *)
Theorem search_games_text_fixed_by_filters
      (name genre name' genre' : option string)
      (min_price max_price min_price' max_price' : option pyfloat)
      (min_positive_reviews min_positive_reviews' : option Z)
      (platform platform' : option string) (limit limit' : Z) :
  (is_Some (given name) <-> is_Some (given name')) ->
  (is_Some (given genre) <-> is_Some (given genre')) ->
  (is_Some min_price <-> is_Some min_price') ->
  (is_Some max_price <-> is_Some max_price') ->
  (is_Some min_positive_reviews <-> is_Some min_positive_reviews') ->
  Text.lower <$> given platform = Text.lower <$> given platform' ->
  (search_games name genre min_price max_price min_positive_reviews
     platform limit).1
  = (search_games name' genre' min_price' max_price' min_positive_reviews'
       platform' limit').1.
Proof.
  intros Hn Hg Hlo Hhi Hr Hp.
  apply (search_games_cases name genre). intros q _ _ Hq.
  apply (search_games_cases name' genre'). intros q' _ _ Hq'.
  cbn [fst]. replace q'.1 with q.1; [reflexivity|].
  rewrite Hq, Hq', Hp.
  destruct (present_cases _ _ Hn) as [(? & ? & -> & ->) | [-> ->]];
    destruct (present_cases _ _ Hg) as [(? & ? & -> & ->) | [-> ->]];
    destruct (present_cases _ _ Hlo) as [(? & ? & -> & ->) | [-> ->]];
    destruct (present_cases _ _ Hhi) as [(? & ? & -> & ->) | [-> ->]];
    destruct (present_cases _ _ Hr) as [(? & ? & -> & ->) | [-> ->]];
    reflexivity.
Qed.

(** X27.  The statement of [get_top_rated_games] holds one placeholder for
    each of its parameters; the parameters are the review threshold, then
    the genre between two percent signs exactly when a genre is given, then
    the limit as passed, without a cap; the text depends on no value, only
    on a genre being given. *)
Theorem get_top_rated_games_statement (min_reviews : Z)
      (genre : option string) (limit : Z) :
  let statement := get_top_rated_games min_reviews genre limit in
  placeholders (list_ascii_of_string statement.1)
  = Some (length statement.2) /\
  statement.2
  = [PInteger min_reviews]
    ++ match given genre with
       | Some genre => [PText ("%" +:+ genre +:+ "%")]
       | None => []
       end
    ++ [PInteger limit] /\
  forall min_reviews' genre' limit',
    (is_Some (given genre) <-> is_Some (given genre')) ->
    (get_top_rated_games min_reviews' genre' limit').1 = statement.1.
Proof.
  cbv zeta. unfold get_top_rated_games. cbv zeta. cbn [fst snd].
  split; [|split].
  - rewrite length_app. cbn [length].
    apply (placeholders_append _ _ 0); [reflexivity|].
    apply placeholders_append; [|reflexivity].
    assert (Hb : balanced
                   (["positive_reviews + negative_reviews >= %s"],
                    [PInteger min_reviews])) by reflexivity.
    destruct (given genre) as [g|]; [|exact Hb].
    exact (balanced_add _ "genres LIKE %s" [_] Hb eq_refl).
  - destruct (given genre) as [g|]; reflexivity.
  - intros min_reviews' genre' limit' Hg.
    destruct (present_cases _ _ Hg) as [(g & g' & -> & ->) | [-> ->]];
      reflexivity.
Qed.

End Queries.

(** ** Instances of the further properties *)

Lemma safe_str_result_shape_witness :
  @safe_str sample_runtime (VStr "  Half-Life 2  ") (Some 9%nat)
  = Some "Half-Life" /\
  ("Half-Life" <> EmptyString /\
   (String.length "Half-Life" <= 9)%nat).
Proof.
  assert (Hs : @safe_str sample_runtime (VStr "  Half-Life 2  ")
                 (Some 9%nat) = Some "Half-Life") by reflexivity.
  split; [exact Hs|].
  destruct (@safe_str_result_shape sample_runtime _ _ _ Hs)
    as (Hne & _ & Hlen & _).
  split; [exact Hne|]. apply (Hlen 9%nat); [reflexivity | lia].
Defined.

Lemma safe_str_idempotent_witness :
  @safe_str sample_runtime (VStr "  Valve ") None = Some "Valve" /\
  @safe_str sample_runtime (VStr "Valve") None = Some "Valve".
Proof.
  assert (Hs : @safe_str sample_runtime (VStr "  Valve ") None
               = Some "Valve") by reflexivity.
  split; [exact Hs|].
  exact (@safe_str_idempotent sample_runtime _ _ Hs).
Defined.

Lemma safe_int_exact_below_2_53_witness :
  Z.abs 440 < 2 ^ 53 /\
  @safe_int sample_runtime (VInt 440) 0 = Ret 440.
Proof.
  assert (Hn : Z.abs 440 < 2 ^ 53) by (vm_compute; reflexivity).
  split; [exact Hn|].
  exact (proj1 (@safe_int_exact_below_2_53 sample_runtime 440 0 FNaN Hn)).
Defined.

Lemma parse_date_reads_its_own_output_witness :
  @parse_date sample_runtime (VStr "Oct 29, 2024")
  = (Some "2024-10-29", Some 2024) /\
  @parse_date sample_runtime (VStr "2024-10-29")
  = (Some "2024-10-29", Some 2024).
Proof.
  assert (Hp : @parse_date sample_runtime (VStr "Oct 29, 2024")
               = (Some "2024-10-29", Some 2024))
    by (vm_compute; reflexivity).
  split; [exact Hp|].
  apply (@parse_date_reads_its_own_output sample_runtime _ _ _ Hp).
  right. lia.
Defined.

Lemma load_rows_committed_batches_witness :
  let st := {| conn := connect empty_database; inserted := 0; errors := 0;
               stdout := [] |} in
  let df := [portal; nameless; portal_renamed; portal] in
  0 < 2 /\ inserted st = 0 /\
  length (@accepted sample_runtime sample_schema df) = 3%nat /\
  committed (conn (@load_rows sample_runtime sample_schema 2 st 0 df))
  = with_games
      (upsert_all ∅ (take 2 (@accepted sample_runtime sample_schema df)))
      empty_database.
Proof.
  cbv zeta.
  assert (Hb : 0 < 2) by lia.
  assert (Hlen : length (@accepted sample_runtime sample_schema
                           [portal; nameless; portal_renamed; portal])
                 = 3%nat) by (vm_compute; reflexivity).
  split; [exact Hb|]. split; [reflexivity|]. split; [exact Hlen|].
  destruct (@load_rows_committed_batches sample_runtime sample_schema 2
              {| conn := connect empty_database; inserted := 0; errors := 0;
                 stdout := [] |}
              [portal; nameless; portal_renamed; portal] Hb eq_refl)
    as [_ Hc].
  rewrite Hlen in Hc. exact Hc.
Defined.

Lemma parse_date_ignores_outer_whitespace_witness :
  TextSpec.spaces (list_ascii_of_string "  ") /\
  TextSpec.spaces (list_ascii_of_string " ") /\
  @parse_date sample_runtime (VStr "  Oct 29, 2024 ")
  = @parse_date sample_runtime (VStr "Oct 29, 2024").
Proof.
  assert (H1 : TextSpec.spaces (list_ascii_of_string "  "))
    by (repeat constructor).
  assert (H2 : TextSpec.spaces (list_ascii_of_string " "))
    by (repeat constructor).
  split; [exact H1|]. split; [exact H2|].
  exact (@parse_date_ignores_outer_whitespace sample_runtime
           "  " "Oct 29, 2024" " " H1 H2).
Defined.

Lemma parse_date_year_range_witness :
  (@parse_date sample_runtime (VStr "Coming in 2025")).2 = Some 2025 /\
  1 <= 2025 <= 9999.
Proof.
  assert (Hp : (@parse_date sample_runtime (VStr "Coming in 2025")).2
               = Some 2025) by (vm_compute; reflexivity).
  split; [exact Hp|].
  exact (proj1 (@parse_date_year_range sample_runtime _ _ Hp)).
Defined.

Lemma tokens_of_joined_labels_witness :
  TextSpec.spaces (list_ascii_of_string " ") /\
  Forall (clean_piece ",") ["Action"; "Free to Play"; "RPG"] /\
  tokens "Action, Free to Play, RPG" = ["Action"; "Free to Play"; "RPG"].
Proof.
  assert (Hgap : TextSpec.spaces (list_ascii_of_string " "))
    by (repeat constructor).
  assert (Hall : Forall (clean_piece ",") ["Action"; "Free to Play"; "RPG"]).
  { repeat constructor; try discriminate;
      intros Hin; cbn in Hin;
      repeat (apply elem_of_cons in Hin as [Hin|Hin]; [discriminate|]);
      by apply elem_of_nil in Hin. }
  split; [exact Hgap|]. split; [exact Hall|].
  exact (tokens_of_joined_labels " " _ Hgap Hall).
Defined.

Lemma populate_preserves_constraints_witness :
  let loaded :=
    conn (@load_games sample_runtime sample_schema
            (connect empty_database) action_rpg_frame 500) in
  constraints_hold (session loaded) /\
  constraints_hold (session (populate_normalized_tables loaded).1).
Proof.
  cbv zeta.
  assert (Hc : constraints_hold
                 (session (conn (@load_games sample_runtime sample_schema
                                   (connect empty_database)
                                   action_rpg_frame 500)))).
  { destruct (@load_games_session sample_runtime sample_schema
                (connect empty_database) action_rpg_frame 500) as [-> _].
    repeat split; constructor. }
  split; [exact Hc|].
  exact (populate_preserves_constraints _ Hc).
Defined.

Lemma execute_schema_joined_witness :
  TextSpec.spaces (list_ascii_of_string " ") /\
  Forall (clean_piece ";") sample_statements /\
  schema_statements
    "CREATE TABLE games (app_id INT PRIMARY KEY); DROP TABLE missing; "
  = sample_statements /\
  (@execute_schema sample_server (connect empty_database)
     "CREATE TABLE games (app_id INT PRIMARY KEY); DROP TABLE missing; ").2
  = [PrintCreating; PrintWarning "Unknown table"; PrintCreated].
Proof.
  assert (Hgap : TextSpec.spaces (list_ascii_of_string " "))
    by (repeat constructor).
  assert (Hall : Forall (clean_piece ";") sample_statements).
  { repeat constructor; try discriminate;
      intros Hin; cbn in Hin;
      repeat (apply elem_of_cons in Hin as [Hin|Hin]; [discriminate|]);
      by apply elem_of_nil in Hin. }
  split; [exact Hgap|]. split; [exact Hall|].
  destruct (@execute_schema_joined sample_server (connect empty_database)
              " " sample_statements Hgap Hall) as (_ & Hs & He).
  split; [exact Hs|]. exact (f_equal snd He).
Defined.

Lemma main_then_get_game_details_witness :
  exists db out,
    @main sample_runtime sample_schema sample_server sample_backend
      "CREATE TABLE games (app_id INT PRIMARY KEY);"
      [portal; nameless; portal_renamed]
    = (Ret db, out) /\
    exists row,
      Server.get_game_details
        {| Server.reachable := true; Server.stored := db |} 10
      = Ret row /\
      row !! "name" = Some (SStr "Portal 2").
Proof.
  destruct (@main_unfold sample_runtime sample_schema sample_server
              sample_backend "CREATE TABLE games (app_id INT PRIMARY KEY);"
              [portal; nameless; portal_renamed] eq_refl)
    as (out & Hm & _).
  cbv zeta in Hm. eexists _, _. split; [exact Hm|].
  destruct (@main_then_get_game_details sample_runtime sample_schema
              sample_server _ _ _ _ _ Hm) as [Hfound _].
  destruct (Hfound 10 (values_row portal_renamed_values))
    as (row & Hrow & Hcols); [reflexivity|].
  exists row. split; [exact Hrow|].
  rewrite (Hcols "name") by (by left). reflexivity.
Defined.

Lemma search_games_text_fixed_by_filters_witness :
  (Query.search_games (Some "Portal") None None None None (Some "Mac")
     20).1
  = (Query.search_games (Some "x' OR 1=1 --") None None None None
       (Some "MAC") 500).1.
Proof.
  apply search_games_text_fixed_by_filters;
    try reflexivity; split; intros _; by eexists.
Defined.

Lemma isolates_failures_witness :
  (2 <> 0) /\
  @row_ok sample_runtime sample_schema portal = true /\
  @row_ok sample_runtime sample_schema half_life = true /\
  @storage_rejects sample_schema
     (match @map_row sample_runtime nameless with
      | Ret values => values
      | Raise _ => []
      end) = true /\
  let st := @load_games sample_runtime sample_schema
              (connect empty_database)
              [portal; nameless; half_life] 2 in
  let stored := games (committed (conn st)) in
  errors st = 1 /\ inserted st = 2 /\
  error_lines (stdout st) = [PrintErrorRow 1 DatabaseError] /\
  conn st = conn (@load_games sample_runtime sample_schema
                    (connect empty_database) [portal; half_life] 2) /\
  Z.of_nat (size stored) = 2 /\
  (exists kept, stored !! 10 = Some kept
                /\ kept !! "name" = Some (SStr "Portal")) /\
  (exists kept, stored !! 70 = Some kept
                /\ kept !! "name" = Some (SStr "Half-Life")) /\
  stored !! 20 = None.
Proof.
  assert (Hb : 2 <> 0) by lia.
  assert (H1 : @row_ok sample_runtime sample_schema portal = true)
    by (vm_compute; reflexivity).
  assert (H2 : @row_ok sample_runtime sample_schema half_life = true)
    by (vm_compute; reflexivity).
  destruct (@map_row sample_runtime nameless) as [values|e] eqn:Hm;
    [|vm_compute in Hm; discriminate].
  assert (H3 : @storage_rejects sample_schema values = true)
    by (vm_compute in Hm; injection Hm as <-; reflexivity).
  repeat (split; [assumption|]).
  assert (Hp : @row_outcome sample_runtime sample_schema portal
               = Ret (10, values_row portal_values)).
  { apply (@row_outcome_accepts sample_runtime sample_schema);
      [vm_compute | |]; reflexivity. }
  assert (Hh : @row_outcome sample_runtime sample_schema half_life
               = Ret (70, values_row half_life_values)).
  { apply (@row_outcome_accepts sample_runtime sample_schema);
      [vm_compute | |]; reflexivity. }
  assert (Hkeys : (@accepted sample_runtime sample_schema
                     [portal; half_life]).*1 = [10; 70]).
  { rewrite !accepted_cons, Hp, Hh. reflexivity. }
  destruct (@load_games_isolates_failures sample_runtime sample_schema
              (connect empty_database) [portal; nameless; half_life]
              2 Hb) as (_ & _ & _ & _ & _ & _ & _ & Hone).
  destruct (Hone [portal] nameless [half_life] values eq_refl
              ltac:(by repeat constructor) ltac:(by repeat constructor)
              Hm H3) as (He & Hi & Hl & Hc & _ & Hdom & _ & Hexact).
  cbn [app] in Hdom, Hexact. rewrite Hkeys in Hdom, Hexact.
  destruct Hexact as [Hsize Hrows].
  { repeat constructor;
      [intros Hin%list_elem_of_singleton; discriminate
      | apply not_elem_of_nil]. }
  { intros k _. apply lookup_empty. }
  cbv zeta. split; [exact He|]. split; [exact Hi|].
  split; [exact Hl|]. split; [exact Hc|].
  split; [rewrite Hsize; reflexivity|].
  split; [exists (values_row portal_values); split;
            [apply (Hrows portal); [by left | exact Hp] | reflexivity]|].
  split; [exists (values_row half_life_values); split;
            [apply (Hrows half_life); [by right; left | exact Hh]
            | reflexivity]|].
  apply not_elem_of_dom. rewrite Hdom.
  intros [Hin|Hin]%elem_of_union.
  - apply elem_of_dom in Hin as [? Hin].
    unfold connect, empty_database in Hin. cbn [games session] in Hin.
    by rewrite lookup_empty in Hin.
  - apply elem_of_list_to_set in Hin.
    repeat (apply elem_of_cons in Hin as [Hin|Hin]; [discriminate|]).
    by apply elem_of_nil in Hin.
Defined.

